(** * Cat and Mouse - The Grand Chase: the simulation core of [main.cpp]

    A shallow embedding of the game logic of [src/main.cpp]: the maze
    layouts, the level populator [initLevelData], the player move
    [processPlayerMove], the breadth-first pursuit [moveCat], the tick
    callback [catTimer], the keyboard handlers, the frame callback [idle]
    and the reset / next-level flow, followed by the properties the
    specification states about them.

    Conventions of the embedding.
    - A C++ [int] is a [Z].  Signed overflow is undefined behaviour in C++,
      so the model describes the executions in which no counter overflows.
    - The module-level variables of [main.cpp] are the fields of the record
      [Game]; every function of the source that mutates them is a function
      [Game -> Game] (explicit state passing).
    - [glutTimerFunc] appends to the list [timers] of pending callbacks;
      [glutGet(GLUT_ELAPSED_TIME)] is the argument [now] of the handlers
      that read the clock; [rand()] reads the next element of a sequence
      of draws [nat -> nat] (a draw is never negative).
    - Rendering ([display], [glutPostRedisplay], the sparkle phase of a
      power-up) and console output are not part of the model. *)

From Stdlib Require Import ZArith List Bool Ascii Lia.
From stdpp Require Import base decidable numbers option list gmap sorting.
Import ListNotations.

Local Open Scope Z_scope.

(** ** Configuration constants *)

Definition ROWS : Z := 23.
Definition COLS : Z := 23.
Definition TUNNEL_ROW_INDEX : Z := 11.

Definition TILE_WALL : Z := 1.
Definition TILE_PATH : Z := 0.
Definition TILE_BLOCKED : Z := 3.
Definition TILE_SLOW_POWERUP : Z := 4.

Definition PLAYER_START_X : Z := 1.
Definition PLAYER_START_Y : Z := 1.
Definition CAT_START_X : Z := 11.
Definition CAT_START_Y : Z := 11.
Definition MAX_LEVELS : Z := 3.
Definition NUM_CHEESE_TO_PLACE : Z := 12.
Definition NUM_POWERUPS_PER_LEVEL : Z := 1.

Definition CAT_SLOW_DURATION_MS : Z := 5000.
Definition INITIAL_CAT_DELAY_MS : Z := 350.
Definition MIN_CAT_DELAY_MS : Z := 150.

(** ** The maze *)

(** A position is a pair (column x, row y). *)
Definition Pos : Type := (Z * Z)%type.

(** [int maze[ROWS][COLS]], row-major: [maze[y][x]].  A grid is a list of
    rows; a cell the list does not hold reads as a wall.  The source reads
    [maze[y][x]] only behind a bounds check or with both indices reduced
    modulo the dimensions. *)
Definition Grid : Type := list (list Z).

Definition tile (g : Grid) (x y : Z) : Z :=
  nth (Z.to_nat x) (nth (Z.to_nat y) g []) TILE_WALL.

Definition layout1 : Grid :=
  [ [1;1;1;1;1;1;1;1;1;1;1;1;1;1;1;1;1;1;1;1;1;1;1];
    [1;0;0;0;1;0;0;0;0;0;0;0;0;0;0;0;0;0;1;0;0;0;1];
    [1;0;1;0;1;0;1;1;1;1;1;0;1;1;1;1;1;0;1;0;1;0;1];
    [1;0;0;0;0;0;0;0;1;0;0;0;0;0;1;0;0;0;0;0;0;0;1];
    [1;1;1;0;1;0;1;0;1;0;1;1;1;0;1;0;1;0;1;0;1;1;1];
    [1;0;0;0;1;0;1;0;1;0;1;3;1;0;1;0;1;0;1;0;0;0;1];
    [1;0;1;0;1;0;1;0;1;0;1;1;1;0;1;0;1;0;1;0;1;0;1];
    [1;0;0;0;1;0;1;0;0;0;0;0;0;0;0;0;1;0;1;0;0;0;1];
    [1;1;1;1;1;0;1;0;1;1;1;1;1;1;1;0;1;0;1;1;1;1;1];
    [1;0;0;0;0;0;1;0;0;0;0;0;0;0;0;0;1;0;0;0;0;0;1];
    [1;0;1;1;1;1;1;0;1;1;1;0;1;1;1;0;1;1;1;1;1;0;1];
    [0;0;0;0;0;0;0;0;1;0;0;0;0;0;1;0;0;0;0;0;0;0;0];
    [1;0;1;1;1;1;1;0;1;1;1;1;1;1;1;0;1;1;1;1;1;0;1];
    [1;0;0;0;0;0;1;0;0;0;0;0;0;0;0;0;1;0;0;0;0;0;1];
    [1;1;1;1;1;0;1;0;1;1;1;1;1;1;1;0;1;0;1;1;1;1;1];
    [1;0;0;0;1;0;1;0;0;0;0;0;0;0;0;0;1;0;1;0;0;0;1];
    [1;0;1;0;1;0;1;0;1;0;1;1;1;0;1;0;1;0;1;0;1;0;1];
    [1;0;0;0;1;0;1;0;1;0;1;3;1;0;1;0;1;0;1;0;0;0;1];
    [1;1;1;0;1;0;1;0;1;0;1;1;1;0;1;0;1;0;1;0;1;1;1];
    [1;0;0;0;0;0;0;0;1;0;0;0;0;0;1;0;0;0;0;0;0;0;1];
    [1;0;1;0;1;0;1;1;1;1;1;0;1;1;1;1;1;0;1;0;1;0;1];
    [1;0;0;0;1;0;0;0;0;0;0;0;0;0;0;0;0;0;1;0;0;0;1];
    [1;1;1;1;1;1;1;1;1;1;1;1;1;1;1;1;1;1;1;1;1;1;1] ].

Definition layout2 : Grid :=
  [ [1;1;1;1;1;1;1;1;1;1;1;1;1;1;1;1;1;1;1;1;1;1;1];
    [1;0;0;0;0;0;0;0;0;0;0;1;0;0;0;0;0;0;0;0;0;0;1];
    [1;0;1;1;1;0;1;1;1;1;0;1;0;1;1;1;1;1;0;1;1;0;1];
    [1;0;0;0;1;0;0;0;0;0;0;0;0;0;0;0;0;1;0;1;0;0;1];
    [1;1;1;0;1;1;1;0;1;1;1;1;1;1;1;1;0;1;0;1;1;0;1];
    [1;0;0;0;0;0;1;0;0;0;0;0;0;0;0;1;0;0;0;0;0;0;1];
    [1;0;1;1;1;0;1;1;1;1;0;1;0;1;0;1;1;1;1;1;1;0;1];
    [1;0;1;0;0;0;0;0;0;1;0;1;0;1;0;0;0;0;0;0;1;0;1];
    [1;0;1;0;1;1;1;1;0;1;0;1;0;1;1;1;1;1;1;0;1;0;1];
    [1;0;0;0;0;0;0;1;0;0;0;0;0;1;0;0;0;0;1;0;0;0;1];
    [1;1;1;1;1;1;0;1;1;1;1;0;1;1;1;0;1;0;1;1;1;1;1];
    [0;0;0;0;0;0;0;0;0;0;0;0;0;0;0;0;0;0;0;0;0;0;0];
    [1;1;1;1;1;1;0;1;1;1;1;0;1;1;1;0;1;0;1;1;1;1;1];
    [1;0;0;0;0;0;0;1;0;0;0;0;0;1;0;0;0;0;1;0;0;0;1];
    [1;0;1;0;1;1;1;1;0;1;0;1;0;1;1;1;1;1;1;0;1;0;1];
    [1;0;1;0;0;0;0;0;0;1;0;1;0;1;0;0;0;0;0;0;1;0;1];
    [1;0;1;1;1;0;1;1;1;1;0;1;0;1;0;1;1;1;1;1;1;0;1];
    [1;0;0;0;1;0;0;0;0;0;0;0;0;0;0;1;0;0;0;0;0;0;1];
    [1;1;1;0;1;1;1;0;1;1;1;1;1;1;1;1;0;1;0;1;1;0;1];
    [1;0;0;0;1;0;0;0;0;0;0;1;0;0;0;0;0;1;0;1;0;0;1];
    [1;0;1;1;1;0;1;1;1;1;0;1;0;1;1;1;1;1;0;1;1;0;1];
    [1;0;0;0;0;0;0;0;0;0;0;1;0;0;0;0;0;0;0;0;0;0;1];
    [1;1;1;1;1;1;1;1;1;1;1;1;1;1;1;1;1;1;1;1;1;1;1] ].

Definition layout3 : Grid :=
  [ [1;1;1;1;1;1;1;1;1;1;1;1;1;1;1;1;1;1;1;1;1;1;1];
    [1;0;1;0;0;0;1;0;0;0;1;0;1;0;0;0;1;0;0;0;1;0;1];
    [1;0;1;0;1;0;1;0;1;0;1;0;1;0;1;0;0;0;1;0;1;0;1];
    [1;0;0;0;1;0;0;0;1;0;1;0;1;0;1;1;1;0;1;0;0;0;1];
    [1;0;1;1;1;1;1;0;1;0;1;0;1;0;0;0;1;0;1;1;1;0;1];
    [1;0;0;0;1;0;0;0;1;0;0;0;1;1;1;0;1;0;0;0;1;0;1];
    [1;1;1;0;1;0;1;1;1;0;1;0;0;0;1;0;1;1;1;0;1;0;1];
    [1;0;0;0;1;0;0;0;0;0;1;0;1;0;1;0;0;0;0;0;1;0;1];
    [1;0;1;1;1;1;1;1;1;0;1;0;1;0;1;1;1;1;1;0;1;0;1];
    [1;0;1;0;0;0;0;0;1;0;1;0;1;0;0;0;1;0;0;0;1;0;1];
    [1;0;1;0;1;1;1;0;1;0;1;0;1;1;1;0;1;0;1;1;1;0;1];
    [0;0;0;0;1;0;0;0;0;0;0;0;0;0;1;0;0;0;0;0;0;0;0];
    [1;0;1;0;1;1;1;0;1;0;1;0;1;1;1;0;1;0;1;1;1;0;1];
    [1;0;1;0;0;0;0;0;1;0;1;0;1;0;0;0;1;0;0;0;1;0;1];
    [1;0;1;1;1;1;1;1;1;0;1;0;1;0;1;1;1;1;1;0;1;0;1];
    [1;0;0;0;1;0;0;0;0;0;1;0;1;0;1;0;0;0;0;0;1;0;1];
    [1;1;1;0;1;0;1;1;1;0;1;0;0;0;1;0;1;1;1;0;1;0;1];
    [1;0;0;0;1;0;0;0;1;0;0;0;1;1;1;0;1;0;0;0;1;0;1];
    [1;0;1;1;1;1;1;0;1;0;1;0;1;0;0;0;1;0;1;1;1;0;1];
    [1;0;0;0;1;0;0;0;1;0;1;0;1;0;1;1;1;0;1;0;0;0;1];
    [1;0;1;0;1;0;1;0;1;0;1;0;1;0;1;0;0;0;1;0;1;0;1];
    [1;0;1;0;0;0;1;0;0;0;1;0;1;0;0;0;1;0;0;0;1;0;1];
    [1;1;1;1;1;1;1;1;1;1;1;1;1;1;1;1;1;1;1;1;1;1;1] ].

(** [initMaze]: the layout copied into [maze]; any level other than 2 and
    3 selects the first layout. *)
Definition selectLayout (level : Z) : Grid :=
  if level =? 2 then layout2
  else if level =? 3 then layout3
  else layout1.

(** The tunnel rule shared by [processPlayerMove] and [moveCat]:
    [if (ny == TUNNEL_ROW_INDEX) { if (nx < 0) nx = COLS - 1;
                                   else if (nx >= COLS) nx = 0; }] *)
Definition wrapTunnel (p : Pos) : Pos :=
  let '(nx, ny) := p in
  if ny =? TUNNEL_ROW_INDEX then
    if nx <? 0 then (COLS - 1, ny)
    else if nx >=? COLS then (0, ny)
    else (nx, ny)
  else (nx, ny).

Definition inGrid (p : Pos) : bool :=
  let '(x, y) := p in
  (0 <=? x) && (x <? COLS) && (0 <=? y) && (y <? ROWS).

(** [nx >= 0 && nx < COLS && ny >= 0 && ny < ROWS && maze[ny][nx] == TILE_PATH] *)
Definition isPath (g : Grid) (p : Pos) : bool :=
  inGrid p && (tile g (fst p) (snd p) =? TILE_PATH).

(** ** The pursuit: [moveCat] *)

(** [dx], [dy] of [moveCat]: up, down, left, right. *)
Definition directions : list Pos := [(0, -1); (0, 1); (-1, 0); (1, 0)].

(** The local variables of the search: the queue [q], the array [visited]
    (the set of cells marked [true]), the array [parent] (the cells whose
    entry is not [-1,-1]) and [found] with [targetX,targetY]. *)
Record Search : Type := mkSearch {
  sq : list Pos;
  svisited : gset Pos;
  sparent : gmap Pos Pos;
  sfound : option Pos
}.

Definition noParent : Pos := (-1, -1).

Definition parentOf (par : gmap Pos Pos) (p : Pos) : Pos :=
  default noParent (par !! p).

(** One pass of the body of [for (int i = 0; i < 4 && !found; ++i)]. *)
Definition visitNeighbour (g : Grid) (player cur : Pos) (st : Search) (d : Pos) : Search :=
  match sfound st with
  | Some _ => st
  | None =>
      let n := wrapTunnel (fst cur + fst d, snd cur + snd d) in
      if isPath g n && negb (bool_decide (n ∈ svisited st)) then
        mkSearch (sq st ++ [n]) ({[n]} ∪ svisited st) (<[n := cur]> (sparent st))
                 (if bool_decide (n = player) then Some n else None)
      else st
  end.

(** The loop [while (!q.empty() && !found)]; [fuel] bounds the number of
    iterations (every cell enters the queue at most once, see
    [bfsLoop_terminates]). *)
Fixpoint bfsLoop (fuel : nat) (g : Grid) (player : Pos) (st : Search) : Search :=
  match fuel with
  | O => st
  | S fuel' =>
      match sfound st, sq st with
      | None, cur :: rest =>
          if bool_decide (cur = player) then
            mkSearch rest (svisited st) (sparent st) (Some cur)
          else
            bfsLoop fuel' g player
              (fold_left (visitNeighbour g player cur) directions
                 (mkSearch rest (svisited st) (sparent st) None))
      | _, _ => st
      end
  end.

Definition searchFuel : nat := Z.to_nat (ROWS * COLS) + 1.

Definition bfs (g : Grid) (cat player : Pos) : Search :=
  bfsLoop searchFuel g player (mkSearch [cat] {[cat]} ∅ None).

(** The backtracking loop [while (true)], from the target towards the cat;
    the result is [(nextStepX, nextStepY)], [(-1,-1)] when no step was
    found. *)
Fixpoint backtrack (fuel : nat) (par : gmap Pos Pos) (cat c : Pos) : Pos :=
  match fuel with
  | O => noParent
  | S fuel' =>
      if bool_decide (c = cat) then noParent
      else
        let p := parentOf par c in
        if bool_decide (p = noParent) then noParent
        else if bool_decide (p = cat) then c
        else backtrack fuel' par cat p
  end.

Definition nextStep (g : Grid) (cat player : Pos) : option Pos :=
  let st := bfs g cat player in
  match sfound st with
  | None => None
  | Some t => Some (backtrack searchFuel (sparent st) cat t)
  end.

(** ** The delay curve

    [processPlayerMove] and [idle] compute the delay of the cat with
    [float progress = (float)score / initialCheeseCount;
     MIN_CAT_DELAY_MS + (int)((INITIAL_CAT_DELAY_MS - MIN_CAT_DELAY_MS)
                              * (1.0f - sqrt(progress)))]
    and clamp it with [std::max(MIN_CAT_DELAY_MS, _)].

    The arithmetic is IEEE 754 with round-to-nearest, ties-to-even.  All
    the values of this computation are finite, non-negative and at most
    200, so the model needs neither signs, infinities nor overflow: a
    value of a binary format is represented by the integer [n] such that
    the value is [n] times the smallest positive number of the format,
    [2^-fscale]; the representable values are the [n] with at most [fprec]
    significant bits. *)

Record Format : Type := mkFormat { fprec : Z; fscale : Z }.

(** [float] and [double]. *)
Definition binary32 : Format := mkFormat 24 149.
Definition binary64 : Format := mkFormat 53 1074.

(** The integer nearest to [a / c], a tie going to the even one. *)
Definition roundHalfEven (a c : Z) : Z :=
  let q := a / c in
  let r := a mod c in
  if 2 * r <? c then q
  else if c <? 2 * r then q + 1
  else if Z.even q then q else q + 1.

(** The multiple of the unit with at most [prec] significant bits that is
    nearest to the rational [a / b] (in units), a tie going to the even
    significand: [k] is the number of low bits the format cannot hold at
    the magnitude of [a / b]. *)
Definition roundFloat (prec a b : Z) : Z :=
  let k := Z.max 0 (Z.log2 (a / b) + 1 - prec) in
  roundHalfEven a (b * 2 ^ k) * 2 ^ k.

Definition ofInt (F : Format) (n : Z) : Z := n * 2 ^ fscale F.

(** [(int)x]: truncation. *)
Definition toInt (F : Format) (x : Z) : Z := Z.quot x (2 ^ fscale F).

Definition fdiv (F : Format) (x y : Z) : Z :=
  roundFloat (fprec F) (x * 2 ^ fscale F) y.

Definition fsub (F : Format) (x y : Z) : Z :=
  roundFloat (fprec F) (x - y) 1.

Definition fmul (F : Format) (x y : Z) : Z :=
  roundFloat (fprec F) (x * y) (2 ^ fscale F).

(** The correctly rounded square root.  In units the root of [x] is the
    real number [sqrt (x * 2^fscale)], which lies in [[t/2, (t+1)/2)] for
    [t = Z.sqrt (4 * x * 2^fscale)]; the boundaries between two roundings
    are multiples of [1/2], so the root rounds like [t/2] when it is equal
    to it and like the midpoint [(2t+1)/4] of the interval otherwise. *)
Definition fsqrt (F : Format) (x : Z) : Z :=
  let m := 4 * (x * 2 ^ fscale F) in
  let t := Z.sqrt m in
  roundFloat (fprec F) (2 * t + (if t * t =? m then 0 else 1)) 4.

(** A [float] read in the format [W] (the conversion is exact). *)
Definition widen (W : Format) (x : Z) : Z :=
  x * 2 ^ (fscale W - fscale binary32).

(** [(float)score / initialCheeseCount] *)
Definition progressOf (score count : Z) : Z :=
  fdiv binary32 (ofInt binary32 score) (ofInt binary32 count).

(** The delay for a [float] progress.  [W] is the format in which
    [sqrt(progress)] and the arithmetic around it are evaluated: [sqrt]
    names the [double] function of the C library or the [float] overload
    of the C++ library, depending on the implementation. *)
Definition delayFor (W : Format) (progress : Z) : Z :=
  let root := fsqrt W (widen W progress) in
  let scaled :=
    fmul W (ofInt W (INITIAL_CAT_DELAY_MS - MIN_CAT_DELAY_MS))
           (fsub W (ofInt W 1) root) in
  Z.max MIN_CAT_DELAY_MS (MIN_CAT_DELAY_MS + toInt W scaled).

(** The delay as the game computes it from its two counters. *)
Definition catDelayFor (score count : Z) : Z :=
  delayFor binary64 (progressOf score count).

(** ** The game state *)

Inductive GameState : Type :=
  | INTRO | START_MENU | PLAYING | PAUSED | GAME_OVER | GAME_WON_LEVEL
  | GAME_WON_FINAL.

#[global] Instance GameState_eq_dec : EqDecision GameState.
Proof. solve_decision. Defined.

(** [struct Powerup] without its cosmetic [sparklePhase]. *)
Record Powerup : Type := mkPowerup { px : Z; py : Z; ptype : Z }.

(** The three functions the program hands to [glutTimerFunc]: [catTimer],
    the lambda of [nextLevel] and the lambda of [main]. *)
Inductive Callback : Type := CbCatTimer | CbNextLevel | CbIntro.

(** A pending [glutTimerFunc (tdelay, tcallback, tvalue)]. *)
Record Timer : Type := mkTimer { tdelay : Z; tcallback : Callback; tvalue : Z }.

(** The module-level variables, in the order of their declaration,
    followed by the pending timers and the number of [rand()] calls made
    so far. *)
Record Game : Type := mkGame {
  currentGameState : GameState;
  playerX : Z;
  playerY : Z;
  catX : Z;
  catY : Z;
  maze : Grid;
  currentLevel : Z;
  score : Z;
  totalScore : Z;
  initialCheeseCount : Z;
  cheeseLocations : list Pos;
  powerupLocations : list Powerup;
  isCatSlowed : bool;
  catSlowDurationTimer : Z;
  currentCatDelay : Z;
  normalCatDelayBeforeSlowdown : Z;
  lastTickTime : Z;
  timerActive : bool;
  resetIdentifier : Z;
  timers : list Timer;
  randCount : nat
}.

Definition set_currentGameState (v : GameState) (s : Game) : Game :=
  mkGame v (playerX s) (playerY s) (catX s) (catY s) (maze s) (currentLevel
      s) (score s) (totalScore s) (initialCheeseCount s) (cheeseLocations s)
      (powerupLocations s) (isCatSlowed s) (catSlowDurationTimer s)
      (currentCatDelay s) (normalCatDelayBeforeSlowdown s) (lastTickTime s)
      (timerActive s) (resetIdentifier s) (timers s) (randCount s).
Definition set_playerX (v : Z) (s : Game) : Game :=
  mkGame (currentGameState s) v (playerY s) (catX s) (catY s) (maze s)
      (currentLevel s) (score s) (totalScore s) (initialCheeseCount s)
      (cheeseLocations s) (powerupLocations s) (isCatSlowed s)
      (catSlowDurationTimer s) (currentCatDelay s)
      (normalCatDelayBeforeSlowdown s) (lastTickTime s) (timerActive s)
      (resetIdentifier s) (timers s) (randCount s).
Definition set_playerY (v : Z) (s : Game) : Game :=
  mkGame (currentGameState s) (playerX s) v (catX s) (catY s) (maze s)
      (currentLevel s) (score s) (totalScore s) (initialCheeseCount s)
      (cheeseLocations s) (powerupLocations s) (isCatSlowed s)
      (catSlowDurationTimer s) (currentCatDelay s)
      (normalCatDelayBeforeSlowdown s) (lastTickTime s) (timerActive s)
      (resetIdentifier s) (timers s) (randCount s).
Definition set_catX (v : Z) (s : Game) : Game :=
  mkGame (currentGameState s) (playerX s) (playerY s) v (catY s) (maze s)
      (currentLevel s) (score s) (totalScore s) (initialCheeseCount s)
      (cheeseLocations s) (powerupLocations s) (isCatSlowed s)
      (catSlowDurationTimer s) (currentCatDelay s)
      (normalCatDelayBeforeSlowdown s) (lastTickTime s) (timerActive s)
      (resetIdentifier s) (timers s) (randCount s).
Definition set_catY (v : Z) (s : Game) : Game :=
  mkGame (currentGameState s) (playerX s) (playerY s) (catX s) v (maze s)
      (currentLevel s) (score s) (totalScore s) (initialCheeseCount s)
      (cheeseLocations s) (powerupLocations s) (isCatSlowed s)
      (catSlowDurationTimer s) (currentCatDelay s)
      (normalCatDelayBeforeSlowdown s) (lastTickTime s) (timerActive s)
      (resetIdentifier s) (timers s) (randCount s).
Definition set_maze (v : Grid) (s : Game) : Game :=
  mkGame (currentGameState s) (playerX s) (playerY s) (catX s) (catY s) v
      (currentLevel s) (score s) (totalScore s) (initialCheeseCount s)
      (cheeseLocations s) (powerupLocations s) (isCatSlowed s)
      (catSlowDurationTimer s) (currentCatDelay s)
      (normalCatDelayBeforeSlowdown s) (lastTickTime s) (timerActive s)
      (resetIdentifier s) (timers s) (randCount s).
Definition set_currentLevel (v : Z) (s : Game) : Game :=
  mkGame (currentGameState s) (playerX s) (playerY s) (catX s) (catY s)
      (maze s) v (score s) (totalScore s) (initialCheeseCount s)
      (cheeseLocations s) (powerupLocations s) (isCatSlowed s)
      (catSlowDurationTimer s) (currentCatDelay s)
      (normalCatDelayBeforeSlowdown s) (lastTickTime s) (timerActive s)
      (resetIdentifier s) (timers s) (randCount s).
Definition set_score (v : Z) (s : Game) : Game :=
  mkGame (currentGameState s) (playerX s) (playerY s) (catX s) (catY s)
      (maze s) (currentLevel s) v (totalScore s) (initialCheeseCount s)
      (cheeseLocations s) (powerupLocations s) (isCatSlowed s)
      (catSlowDurationTimer s) (currentCatDelay s)
      (normalCatDelayBeforeSlowdown s) (lastTickTime s) (timerActive s)
      (resetIdentifier s) (timers s) (randCount s).
Definition set_totalScore (v : Z) (s : Game) : Game :=
  mkGame (currentGameState s) (playerX s) (playerY s) (catX s) (catY s)
      (maze s) (currentLevel s) (score s) v (initialCheeseCount s)
      (cheeseLocations s) (powerupLocations s) (isCatSlowed s)
      (catSlowDurationTimer s) (currentCatDelay s)
      (normalCatDelayBeforeSlowdown s) (lastTickTime s) (timerActive s)
      (resetIdentifier s) (timers s) (randCount s).
Definition set_initialCheeseCount (v : Z) (s : Game) : Game :=
  mkGame (currentGameState s) (playerX s) (playerY s) (catX s) (catY s)
      (maze s) (currentLevel s) (score s) (totalScore s) v (cheeseLocations
      s) (powerupLocations s) (isCatSlowed s) (catSlowDurationTimer s)
      (currentCatDelay s) (normalCatDelayBeforeSlowdown s) (lastTickTime s)
      (timerActive s) (resetIdentifier s) (timers s) (randCount s).
Definition set_cheeseLocations (v : list Pos) (s : Game) : Game :=
  mkGame (currentGameState s) (playerX s) (playerY s) (catX s) (catY s)
      (maze s) (currentLevel s) (score s) (totalScore s) (initialCheeseCount
      s) v (powerupLocations s) (isCatSlowed s) (catSlowDurationTimer s)
      (currentCatDelay s) (normalCatDelayBeforeSlowdown s) (lastTickTime s)
      (timerActive s) (resetIdentifier s) (timers s) (randCount s).
Definition set_powerupLocations (v : list Powerup) (s : Game) : Game :=
  mkGame (currentGameState s) (playerX s) (playerY s) (catX s) (catY s)
      (maze s) (currentLevel s) (score s) (totalScore s) (initialCheeseCount
      s) (cheeseLocations s) v (isCatSlowed s) (catSlowDurationTimer s)
      (currentCatDelay s) (normalCatDelayBeforeSlowdown s) (lastTickTime s)
      (timerActive s) (resetIdentifier s) (timers s) (randCount s).
Definition set_isCatSlowed (v : bool) (s : Game) : Game :=
  mkGame (currentGameState s) (playerX s) (playerY s) (catX s) (catY s)
      (maze s) (currentLevel s) (score s) (totalScore s) (initialCheeseCount
      s) (cheeseLocations s) (powerupLocations s) v (catSlowDurationTimer s)
      (currentCatDelay s) (normalCatDelayBeforeSlowdown s) (lastTickTime s)
      (timerActive s) (resetIdentifier s) (timers s) (randCount s).
Definition set_catSlowDurationTimer (v : Z) (s : Game) : Game :=
  mkGame (currentGameState s) (playerX s) (playerY s) (catX s) (catY s)
      (maze s) (currentLevel s) (score s) (totalScore s) (initialCheeseCount
      s) (cheeseLocations s) (powerupLocations s) (isCatSlowed s) v
      (currentCatDelay s) (normalCatDelayBeforeSlowdown s) (lastTickTime s)
      (timerActive s) (resetIdentifier s) (timers s) (randCount s).
Definition set_currentCatDelay (v : Z) (s : Game) : Game :=
  mkGame (currentGameState s) (playerX s) (playerY s) (catX s) (catY s)
      (maze s) (currentLevel s) (score s) (totalScore s) (initialCheeseCount
      s) (cheeseLocations s) (powerupLocations s) (isCatSlowed s)
      (catSlowDurationTimer s) v (normalCatDelayBeforeSlowdown s)
      (lastTickTime s) (timerActive s) (resetIdentifier s) (timers s)
      (randCount s).
Definition set_normalCatDelayBeforeSlowdown (v : Z) (s : Game) : Game :=
  mkGame (currentGameState s) (playerX s) (playerY s) (catX s) (catY s)
      (maze s) (currentLevel s) (score s) (totalScore s) (initialCheeseCount
      s) (cheeseLocations s) (powerupLocations s) (isCatSlowed s)
      (catSlowDurationTimer s) (currentCatDelay s) v (lastTickTime s)
      (timerActive s) (resetIdentifier s) (timers s) (randCount s).
Definition set_lastTickTime (v : Z) (s : Game) : Game :=
  mkGame (currentGameState s) (playerX s) (playerY s) (catX s) (catY s)
      (maze s) (currentLevel s) (score s) (totalScore s) (initialCheeseCount
      s) (cheeseLocations s) (powerupLocations s) (isCatSlowed s)
      (catSlowDurationTimer s) (currentCatDelay s)
      (normalCatDelayBeforeSlowdown s) v (timerActive s) (resetIdentifier s)
      (timers s) (randCount s).
Definition set_timerActive (v : bool) (s : Game) : Game :=
  mkGame (currentGameState s) (playerX s) (playerY s) (catX s) (catY s)
      (maze s) (currentLevel s) (score s) (totalScore s) (initialCheeseCount
      s) (cheeseLocations s) (powerupLocations s) (isCatSlowed s)
      (catSlowDurationTimer s) (currentCatDelay s)
      (normalCatDelayBeforeSlowdown s) (lastTickTime s) v (resetIdentifier
      s) (timers s) (randCount s).
Definition set_resetIdentifier (v : Z) (s : Game) : Game :=
  mkGame (currentGameState s) (playerX s) (playerY s) (catX s) (catY s)
      (maze s) (currentLevel s) (score s) (totalScore s) (initialCheeseCount
      s) (cheeseLocations s) (powerupLocations s) (isCatSlowed s)
      (catSlowDurationTimer s) (currentCatDelay s)
      (normalCatDelayBeforeSlowdown s) (lastTickTime s) (timerActive s) v
      (timers s) (randCount s).
Definition set_timers (v : list Timer) (s : Game) : Game :=
  mkGame (currentGameState s) (playerX s) (playerY s) (catX s) (catY s)
      (maze s) (currentLevel s) (score s) (totalScore s) (initialCheeseCount
      s) (cheeseLocations s) (powerupLocations s) (isCatSlowed s)
      (catSlowDurationTimer s) (currentCatDelay s)
      (normalCatDelayBeforeSlowdown s) (lastTickTime s) (timerActive s)
      (resetIdentifier s) v (randCount s).
Definition set_randCount (v : nat) (s : Game) : Game :=
  mkGame (currentGameState s) (playerX s) (playerY s) (catX s) (catY s)
      (maze s) (currentLevel s) (score s) (totalScore s) (initialCheeseCount
      s) (cheeseLocations s) (powerupLocations s) (isCatSlowed s)
      (catSlowDurationTimer s) (currentCatDelay s)
      (normalCatDelayBeforeSlowdown s) (lastTickTime s) (timerActive s)
      (resetIdentifier s) (timers s) v.

Definition playerPos (s : Game) : Pos := (playerX s, playerY s).
Definition catPos (s : Game) : Pos := (catX s, catY s).

Definition glutTimerFunc (ms : Z) (cb : Callback) (value : Z) (s : Game) : Game :=
  set_timers (timers s ++ [mkTimer ms cb value]) s.

(** ** Level population: [initMaze] and [initLevelData] *)

Definition initMaze (level : Z) (s : Game) : Game :=
  set_maze (selectLayout level) s.

Definition maxAttempts : nat := Z.to_nat (ROWS * COLS * 10).

Definition isStartTile (rx ry : Z) : bool :=
  ((rx =? PLAYER_START_X) && (ry =? PLAYER_START_Y))
  || ((rx =? CAT_START_X) && (ry =? CAT_START_Y)).

(** [maze[ry][rx] == TILE_PATH && !(player start) && !(cat start)] *)
Definition freeTile (g : Grid) (rx ry : Z) : bool :=
  (tile g rx ry =? TILE_PATH) && negb (isStartTile rx ry).

Definition cheeseAt (rx ry : Z) (cheese : list Pos) : bool :=
  existsb (fun loc => (fst loc =? rx) && (snd loc =? ry)) cheese.

Definition powerupAt (rx ry : Z) (powerups : list Powerup) : bool :=
  existsb (fun p => (px p =? rx) && (py p =? ry)) powerups.

Section Populate.

(** The results of the successive calls of [rand()]. *)
Variable draws : nat -> nat.

Definition rand (n : nat) : Z := Z.of_nat (draws n).

(** The first [while] of [initLevelData]; [left] is
    [maxAttempts - attempts], [n] the number of draws consumed. *)
Fixpoint placeCheese (left : nat) (g : Grid) (n : nat) (placedCheese : Z)
    (cheese : list Pos) : list Pos * Z * nat :=
  match left with
  | O => (cheese, placedCheese, n)
  | S left' =>
      if placedCheese <? NUM_CHEESE_TO_PLACE then
        let rx := Z.rem (rand n) COLS in
        let ry := Z.rem (rand (S n)) ROWS in
        if freeTile g rx ry && negb (cheeseAt rx ry cheese) then
          placeCheese left' g (S (S n)) (placedCheese + 1) (cheese ++ [(rx, ry)])
        else placeCheese left' g (S (S n)) placedCheese cheese
      else (cheese, placedCheese, n)
  end.

(** The second [while]. *)
Fixpoint placePowerups (left : nat) (g : Grid) (cheese : list Pos) (n : nat)
    (placedPowerups : Z) (powerups : list Powerup) : list Powerup * Z * nat :=
  match left with
  | O => (powerups, placedPowerups, n)
  | S left' =>
      if placedPowerups <? NUM_POWERUPS_PER_LEVEL then
        let rx := Z.rem (rand n) COLS in
        let ry := Z.rem (rand (S n)) ROWS in
        if freeTile g rx ry && negb (cheeseAt rx ry cheese)
           && negb (powerupAt rx ry powerups) then
          placePowerups left' g cheese (S (S n)) (placedPowerups + 1)
            (powerups ++ [mkPowerup rx ry TILE_SLOW_POWERUP])
        else placePowerups left' g cheese (S (S n)) placedPowerups powerups
      else (powerups, placedPowerups, n)
  end.

Definition initLevelData (s : Game) : Game :=
  let s := set_score 0 s in
  let s := set_currentCatDelay INITIAL_CAT_DELAY_MS s in
  let '(cheese, _, n1) := placeCheese maxAttempts (maze s) (randCount s) 0 [] in
  let '(powerups, _, n2) := placePowerups maxAttempts (maze s) cheese n1 0 [] in
  let s := set_cheeseLocations cheese s in
  let s := set_powerupLocations powerups s in
  let s := set_randCount n2 s in
  let s := set_initialCheeseCount (Z.of_nat (length cheese)) s in
  let s := set_playerX PLAYER_START_X s in
  let s := set_playerY PLAYER_START_Y s in
  let s := set_catX CAT_START_X s in
  let s := set_catY CAT_START_Y s in
  let s := set_isCatSlowed false s in
  let s := set_catSlowDurationTimer 0 s in
  set_normalCatDelayBeforeSlowdown (currentCatDelay s) s.

End Populate.

(** ** The adversary step and its timer *)

(** The body of the collision branch of [moveCat]. *)
Definition caught (s : Game) : Game :=
  let s := set_totalScore (totalScore s + score s) s in
  let s := set_score 0 s in
  let s := set_currentGameState GAME_OVER s in
  set_timerActive false s.

(** [moveCat]: search, backtrack, move, then the collision check. *)
Definition moveCat (s : Game) : Game :=
  match nextStep (maze s) (catPos s) (playerPos s) with
  | None => s
  | Some next =>
      let s := if fst next =? -1 then s
               else set_catY (snd next) (set_catX (fst next) s) in
      if (catX s =? playerX s) && (catY s =? playerY s)
         && bool_decide (currentGameState s = PLAYING) then caught s
      else s
  end.

Definition catTimer (value : Z) (s : Game) : Game :=
  if negb (value =? resetIdentifier s)
     && negb (bool_decide (currentGameState s = START_MENU)) then s
  else if bool_decide (currentGameState s = PLAYING) && timerActive s then
    let s := if negb (isCatSlowed s) then moveCat s else s in
    glutTimerFunc (currentCatDelay s) CbCatTimer (resetIdentifier s) s
  else s.

(** ** Game flow: reset and level change *)

Section Flow.

Variable draws : nat -> nat.

Definition resetGame (now : Z) (s : Game) : Game :=
  let s := set_resetIdentifier (resetIdentifier s + 1) s in
  let s := set_timerActive false s in
  let s := set_currentLevel 1 s in
  let s := set_totalScore 0 s in
  let s := initMaze (currentLevel s) s in
  let s := initLevelData draws s in
  let s := set_currentGameState PLAYING s in
  let s := set_timerActive true s in
  let s := set_lastTickTime now s in
  catTimer (resetIdentifier s) s.

Definition nextLevel (s : Game) : Game :=
  let s := set_totalScore (totalScore s + score s) s in
  let s := set_score 0 s in
  let s := set_currentLevel (currentLevel s + 1) s in
  let s := set_timerActive false s in
  if currentLevel s >? MAX_LEVELS then
    set_currentGameState GAME_WON_FINAL s
  else
    let s := set_currentGameState GAME_WON_LEVEL s in
    glutTimerFunc 2000 CbNextLevel (currentLevel s) s.

(** The lambda [nextLevel] schedules; [v] is the level it captured. *)
Definition startLevel (now : Z) (v : Z) (s : Game) : Game :=
  let s := set_resetIdentifier (resetIdentifier s + 1) s in
  let s := initMaze v s in
  let s := initLevelData draws s in
  let s := set_currentGameState PLAYING s in
  let s := set_timerActive true s in
  let s := set_lastTickTime now s in
  catTimer (resetIdentifier s) s.

(** The lambda [main] schedules. *)
Definition leaveIntro (s : Game) : Game :=
  if bool_decide (currentGameState s = INTRO) then
    set_currentGameState START_MENU s
  else s.

(** ** The player move *)

(** [cheeseLocations.erase(it)] at the first entry equal to the position. *)
Fixpoint eraseCheese (x y : Z) (cheese : list Pos) : option (list Pos) :=
  match cheese with
  | [] => None
  | loc :: rest =>
      if (fst loc =? x) && (snd loc =? y) then Some rest
      else option_map (cons loc) (eraseCheese x y rest)
  end.

(** [powerupLocations.erase(it)] at the first slow power-up at the
    position. *)
Fixpoint erasePowerup (x y : Z) (powerups : list Powerup) : option (list Powerup) :=
  match powerups with
  | [] => None
  | p :: rest =>
      if (px p =? x) && (py p =? y) && (ptype p =? TILE_SLOW_POWERUP) then Some rest
      else option_map (cons p) (erasePowerup x y rest)
  end.

(** The power-up loop of [processPlayerMove]: nothing is collected while
    the cat is slowed. *)
Definition collectPowerup (s : Game) : Game :=
  if isCatSlowed s then s
  else
    match erasePowerup (playerX s) (playerY s) (powerupLocations s) with
    | None => s
    | Some rest =>
        let s := set_isCatSlowed true s in
        let s := set_catSlowDurationTimer CAT_SLOW_DURATION_MS s in
        let s := set_normalCatDelayBeforeSlowdown (currentCatDelay s) s in
        let s := set_currentCatDelay
                   (Z.max (currentCatDelay s) (INITIAL_CAT_DELAY_MS + 100)) s in
        set_powerupLocations rest s
    end.

Definition processPlayerMove (nextX nextY : Z) (s : Game) : Game :=
  let '(nextX, nextY) := wrapTunnel (nextX, nextY) in
  if isPath (maze s) (nextX, nextY) then
    let s := set_playerX nextX s in
    let s := set_playerY nextY s in
    match eraseCheese (playerX s) (playerY s) (cheeseLocations s) with
    | Some rest =>
        let s := set_cheeseLocations rest s in
        let s := set_score (score s + 1) s in
        let s :=
          if negb (isCatSlowed s) && (initialCheeseCount s >? 0) then
            let s := set_currentCatDelay
                       (catDelayFor (score s) (initialCheeseCount s)) s in
            set_normalCatDelayBeforeSlowdown (currentCatDelay s) s
          else s in
        match cheeseLocations s with
        | [] => nextLevel s
        | _ :: _ => collectPowerup s
        end
    | None => collectPowerup s
    end
  else s.

(** ** Input handlers *)

Local Open Scope char_scope.

Definition isKey (key a b : ascii) : bool :=
  Ascii.eqb key a || Ascii.eqb key b.

Definition KEY_ENTER : ascii := ascii_of_nat 13.
Definition KEY_ESCAPE : ascii := ascii_of_nat 27.

(** [keyboard]; the result [None] is [exit(0)]. *)
Definition keyboard (now : Z) (key : ascii) (s : Game) : option Game :=
  match currentGameState s with
  | INTRO => Some (set_currentGameState START_MENU s)
  | START_MENU =>
      if Ascii.eqb key KEY_ENTER then Some (resetGame now s)
      else if Ascii.eqb key KEY_ESCAPE then None
      else Some s
  | GAME_OVER | GAME_WON_FINAL | GAME_WON_LEVEL =>
      if isKey key "r" "R"
         && negb (bool_decide (currentGameState s = GAME_WON_FINAL)) then
        Some (resetGame now s)
      else if Ascii.eqb key KEY_ESCAPE then None
      else Some s
  | PLAYING | PAUSED =>
      if isKey key "p" "P" then
        if bool_decide (currentGameState s = PLAYING) then
          Some (set_timerActive false (set_currentGameState PAUSED s))
        else
          let s := set_currentGameState PLAYING s in
          let s := set_timerActive true s in
          let s := set_lastTickTime now s in
          let s := set_resetIdentifier (resetIdentifier s + 1) s in
          Some (catTimer (resetIdentifier s) s)
      else if Ascii.eqb key KEY_ESCAPE then None
      else if negb (bool_decide (currentGameState s = PLAYING)) then Some s
      else if isKey key "r" "R" then Some (resetGame now s)
      else if isKey key "w" "W" then
        Some (processPlayerMove (playerX s) (playerY s - 1) s)
      else if isKey key "s" "S" then
        Some (processPlayerMove (playerX s) (playerY s + 1) s)
      else if isKey key "a" "A" then
        Some (processPlayerMove (playerX s - 1) (playerY s) s)
      else if isKey key "d" "D" then
        Some (processPlayerMove (playerX s + 1) (playerY s) s)
      else Some s
  end.

Local Close Scope char_scope.

(** The key codes of [GL/glut.h]. *)
Definition GLUT_KEY_LEFT : Z := 100.
Definition GLUT_KEY_UP : Z := 101.
Definition GLUT_KEY_RIGHT : Z := 102.
Definition GLUT_KEY_DOWN : Z := 103.

Definition specialKeyboard (key : Z) (s : Game) : Game :=
  if negb (bool_decide (currentGameState s = PLAYING)) then s
  else if key =? GLUT_KEY_UP then processPlayerMove (playerX s) (playerY s - 1) s
  else if key =? GLUT_KEY_DOWN then processPlayerMove (playerX s) (playerY s + 1) s
  else if key =? GLUT_KEY_LEFT then processPlayerMove (playerX s - 1) (playerY s) s
  else if key =? GLUT_KEY_RIGHT then processPlayerMove (playerX s + 1) (playerY s) s
  else s.

(** [idle]; [now] is [glutGet(GLUT_ELAPSED_TIME)]. *)
Definition idle (now : Z) (s : Game) : Game :=
  let deltaTime := now - lastTickTime s in
  if deltaTime >? 0 then
    let s :=
      if (bool_decide (currentGameState s = PLAYING)
          || bool_decide (currentGameState s = PAUSED))
         && isCatSlowed s && bool_decide (currentGameState s = PLAYING) then
        let s := set_catSlowDurationTimer (catSlowDurationTimer s - deltaTime) s in
        if catSlowDurationTimer s <=? 0 then
          let s := set_isCatSlowed false s in
          if initialCheeseCount s >? 0 then
            set_currentCatDelay (catDelayFor (score s) (initialCheeseCount s)) s
          else set_currentCatDelay (normalCatDelayBeforeSlowdown s) s
        else s
      else s in
    set_lastTickTime now s
  else s.

(** ** The event loop *)

(** What [glutMainLoop] delivers: a key, a special key, an idle call, or
    the expiry of the pending timer number [i].  Handlers that read the
    clock receive its value. *)
Inductive Event : Type :=
  | EvKey (now : Z) (key : ascii)
  | EvSpecial (key : Z)
  | EvIdle (now : Z)
  | EvTimer (now : Z) (i : nat).

Definition fire (now : Z) (t : Timer) (s : Game) : Game :=
  match tcallback t with
  | CbCatTimer => catTimer (tvalue t) s
  | CbNextLevel => startLevel now (tvalue t) s
  | CbIntro => leaveIntro s
  end.

(** One event; [None] when the process has exited or the timer does not
    exist. *)
Definition step (ev : Event) (s : Game) : option Game :=
  match ev with
  | EvKey now key => keyboard now key s
  | EvSpecial key => Some (specialKeyboard key s)
  | EvIdle now => Some (idle now s)
  | EvTimer now i =>
      match timers s !! i with
      | Some t => Some (fire now t (set_timers (delete i (timers s)) s))
      | None => None
      end
  end.

Fixpoint run (evs : list Event) (s : Game) : option Game :=
  match evs with
  | [] => Some s
  | ev :: evs' =>
      match step ev s with
      | Some s' => run evs' s'
      | None => None
      end
  end.

(** The state [main] builds before it enters [glutMainLoop]: the
    initializers of the variables, the intro timer, [initMaze],
    [initLevelData] and the first reading of the clock. *)
Definition zeroGrid : Grid :=
  repeat (repeat 0 (Z.to_nat COLS)) (Z.to_nat ROWS).

Definition staticInit : Game :=
  mkGame INTRO PLAYER_START_X PLAYER_START_Y CAT_START_X CAT_START_Y
    zeroGrid 1 0 0 0 [] [] false 0 INITIAL_CAT_DELAY_MS 0 0 false 0 [] 0.

Definition mainInit (now : Z) : Game :=
  let s := glutTimerFunc 3500 CbIntro 0 staticInit in
  let s := initMaze (currentLevel s) s in
  let s := initLevelData draws s in
  set_lastTickTime now s.

(** The states of a run of the program. *)
Definition reachable (s : Game) : Prop :=
  exists now evs, run evs (mainInit now) = Some s.

End Flow.

(** ** Shortest walks and the invariant of the search

    The notions the properties of [moveCat] are stated with, and the
    invariant its loop maintains. *)

(** [edge g u w]: the search at [u] may enqueue [w]. *)
Definition edge (g : Grid) (u w : Pos) : Prop :=
  exists d, d ∈ directions
            /\ w = wrapTunnel (fst u + fst d, snd u + snd d)
            /\ isPath g w = true.

(** [walk g n u w]: [n] moves lead from [u] to [w]. *)
Inductive walk (g : Grid) : nat -> Pos -> Pos -> Prop :=
  | walk_here u : walk g O u u
  | walk_more n u v w : walk g n u v -> edge g v w -> walk g (S n) u w.

(** [n] is the length of a shortest walk from [u] to [w]. *)
Definition distance (g : Grid) (u w : Pos) (n : nat) : Prop :=
  walk g n u w /\ forall m, walk g m u w -> (n <= m)%nat.

Definition allCells : list Pos :=
  x ← seqZ 0 COLS; y ← seqZ 0 ROWS; [(x, y)].

Definition cells : gset Pos := list_to_set allCells.

Definition bump (D : Pos -> nat) (n : Pos) (k : nat) : Pos -> nat :=
  fun v => if bool_decide (v = n) then k else D v.

Record BfsInv (g : Grid) (s : Pos) (D : Pos -> nat) (q : list Pos)
    (V : gset Pos) (P : gmap Pos Pos) : Prop := mkBfsInv {
  inv_src : s ∈ V /\ D s = O /\ P !! s = None;
  inv_par : forall v, v ∈ V -> v <> s ->
            exists u, P !! v = Some u /\ u ∈ V /\ edge g u v /\ D v = S (D u);
  inv_dom : forall v, v ∉ V -> P !! v = None;
  inv_queue : forall v, v ∈ q -> v ∈ V;
  inv_closed : forall u w, u ∈ V -> u ∉ q -> edge g u w ->
               w ∈ V /\ (D w <= S (D u))%nat;
  inv_sorted : StronglySorted (fun x y => (D x <= D y)%nat) q;
  inv_span : forall h v, head q = Some h -> v ∈ V -> (D v <= S (D h))%nat;
  inv_done : forall h u, head q = Some h -> u ∈ V -> u ∉ q -> (D u <= D h)%nat;
  inv_cells : V ⊆ cells;
  inv_depth : forall v, v ∈ V -> (D v < size V)%nat
}.

(** The search state while the head [h] is being expanded ([h] is out of
    [sq st] already, but not yet closed). *)
Definition SearchInv (g : Grid) (s : Pos) (q : list Pos) (st : Search) : Prop :=
  exists D, BfsInv g s D q (svisited st) (sparent st).

Definition foundOk (player : Pos) (st : Search) : Prop :=
  forall t, sfound st = Some t -> t = player /\ t ∈ svisited st.

(** What is left to do: queue entries and unvisited cells. *)
Definition searchMeasure (st : Search) : nat :=
  (length (sq st) + (Z.to_nat (ROWS * COLS) - size (svisited st)))%nat.


(** ** Sample inputs *)

(** Two sequences of draws: one that never hits a free tile (every draw is
    0, the wall at the top left corner) and one that does. *)
Definition zeroDraws (n : nat) : nat := O.
Definition sampleDraws (n : nat) : nat :=
  Z.to_nat ((7 * Z.of_nat n + 3) mod 101).

(** The program at its start, and after Enter in the start menu. *)
Definition sampleStart : Game := mainInit sampleDraws 0.
Definition samplePlaying : Game := resetGame sampleDraws 5 sampleStart.

(** The state after the third level was completed with 12 cheese each. *)
Definition sampleWonFinal : Game :=
  mkGame GAME_WON_FINAL 5 3 11 9 layout3 4 0 36 12 [] [] false 0 150 150 90000
    false 3 [mkTimer 150 CbCatTimer 3] 500.

(** ** Notions the properties are stated with *)

(** The [float] 1.0. *)
Definition one32 : Z := ofInt binary32 1.

(** The cat one tile below the tunnel junction, the player two moves away. *)
Definition sampleChase : Game := set_playerY 9 (set_playerX 12 samplePlaying).

(** The player on the blocked tile of the first layout. *)
Definition sampleBlocked : Game := set_playerY 5 (set_playerX 11 samplePlaying).

Definition playerStart : Pos := (PLAYER_START_X, PLAYER_START_Y).
Definition catStart : Pos := (CAT_START_X, CAT_START_Y).
Definition powerupPos (p : Powerup) : Pos := (px p, py p).

(** What the populator owes every item it places. *)
Definition goodTile (g : Grid) (p : Pos) : Prop :=
  isPath g p = true /\ p <> playerStart /\ p <> catStart.

Definition cheeseInv (g : Grid) (placed : Z) (cheese : list Pos) : Prop :=
  NoDup cheese /\ Forall (goodTile g) cheese
  /\ placed = Z.of_nat (length cheese) /\ placed <= NUM_CHEESE_TO_PLACE.

Definition powerupInv (g : Grid) (cheese : list Pos) (placed : Z)
    (powerups : list Powerup) : Prop :=
  NoDup (cheese ++ map powerupPos powerups)
  /\ Forall (goodTile g) (map powerupPos powerups)
  /\ Forall (fun p => ptype p = TILE_SLOW_POWERUP) powerups
  /\ placed = Z.of_nat (length powerups) /\ placed <= NUM_POWERUPS_PER_LEVEL.

(** A pending [catTimer] callback. *)
Definition isCatTick (t : Timer) : bool :=
  match tcallback t with CbCatTimer => true | _ => false end.

(** The pending ticks that carry the epoch [r]. *)
Fixpoint countLive (r : Z) (ts : list Timer) : nat :=
  match ts with
  | [] => O
  | t :: ts' =>
      ((if isCatTick t && (tvalue t =? r)%Z then 1 else 0) + countLive r ts')%nat
  end.

(** No pending tick is ahead of the epoch [r]. *)
Definition ticksUpTo (r : Z) (ts : list Timer) : Prop :=
  Forall (fun t => isCatTick t = true -> tvalue t <= r) ts.

(** What every state of a run satisfies. *)
Record GameInv (s : Game) : Prop := mkGameInv {
  gi_player : isPath (maze s) (playerPos s) = true;
  gi_cat : isPath (maze s) (catPos s) = true;
  gi_ticks : ticksUpTo (resetIdentifier s) (timers s);
  gi_live : (countLive (resetIdentifier s) (timers s) <= 1)%nat;
  gi_score : 0 <= score s;
  gi_cheese : score s + Z.of_nat (length (cheeseLocations s)) <= initialCheeseCount s;
  gi_count : initialCheeseCount s <= NUM_CHEESE_TO_PLACE;
  gi_playing : currentGameState s = PLAYING \/ currentGameState s = PAUSED ->
               score s + Z.of_nat (length (cheeseLocations s)) = initialCheeseCount s;
  gi_delay : MIN_CAT_DELAY_MS <= currentCatDelay s <= INITIAL_CAT_DELAY_MS + 100;
  gi_normal : MIN_CAT_DELAY_MS <= normalCatDelayBeforeSlowdown s <= INITIAL_CAT_DELAY_MS;
  gi_fast : isCatSlowed s = false -> currentCatDelay s <= INITIAL_CAT_DELAY_MS;
  gi_nocheese : initialCheeseCount s = 0 ->
                normalCatDelayBeforeSlowdown s = INITIAL_CAT_DELAY_MS
                /\ (isCatSlowed s = false -> currentCatDelay s = INITIAL_CAT_DELAY_MS);
  gi_slow : isCatSlowed s = true -> 0 < catSlowDurationTimer s
}.

Ltac inv_consts :=
  unfold MIN_CAT_DELAY_MS, INITIAL_CAT_DELAY_MS, NUM_CHEESE_TO_PLACE,
    CAT_SLOW_DURATION_MS in *.

(** Successive calls of [idle], with the clock readings [ticks]. *)
Definition idleAll (ticks : list Z) (s : Game) : Game :=
  fold_left (fun s now => idle now s) ticks s.

(** The delay [idle] installs when the slow effect ends. *)
Definition delayAfterSlow (s : Game) : Z :=
  if initialCheeseCount s >? 0 then catDelayFor (score s) (initialCheeseCount s)
  else normalCatDelayBeforeSlowdown s.

(** The player standing on a slow power-up, the effect not yet active. *)
Definition sampleOnPowerup : Game :=
  set_playerY 5 (set_playerX 7 samplePlaying).

(** The slow effect active with 5000 ms left, last frame at 1000 ms. *)
Definition sampleSlowed : Game :=
  set_lastTickTime 1000 (collectPowerup sampleOnPowerup).

(** The delay of the curve for the progress of a state; a level without
    cheese has made no progress. *)
Definition curveDelay (s : Game) : Z :=
  if initialCheeseCount s >? 0 then catDelayFor (score s) (initialCheeseCount s)
  else INITIAL_CAT_DELAY_MS.

(** The state in which [keyboard] leaves a playing game on [p]. *)
Definition pausedFrom (s : Game) : Game :=
  set_timerActive false (set_currentGameState PAUSED s).

(** The player one move left of the last cheese of the level. *)
Definition sampleLastCheese : Game :=
  set_cheeseLocations [(3, 1)] (set_score 11 (set_playerX 2 samplePlaying)).

(** The cat next to the player. *)
Definition sampleAdjacent : Game :=
  set_score 4 (set_playerY 9 (set_playerX 11 samplePlaying)).

(** A run into the slow effect: out of the intro, Enter, then the arrow
    keys down the left corridor and along row 3 to the power-up at (7,5),
    over the cheese at (5,3). *)
Definition sampleSlowRun : list Event :=
  [EvKey 1 " "%char; EvKey 5 KEY_ENTER;
   EvSpecial GLUT_KEY_DOWN; EvSpecial GLUT_KEY_DOWN;
   EvSpecial GLUT_KEY_RIGHT; EvSpecial GLUT_KEY_RIGHT; EvSpecial GLUT_KEY_RIGHT;
   EvSpecial GLUT_KEY_RIGHT; EvSpecial GLUT_KEY_RIGHT; EvSpecial GLUT_KEY_RIGHT;
   EvSpecial GLUT_KEY_DOWN; EvSpecial GLUT_KEY_DOWN].

Definition sampleSlowedRun : Game :=
  default sampleStart (run sampleDraws sampleSlowRun (mainInit sampleDraws 0)).

(** While the game is playing the timer flag is set and exactly one tick
    of the current epoch is pending. *)
Definition chainLive (s : Game) : Prop :=
  currentGameState s = PLAYING ->
  timerActive s = true /\ countLive (resetIdentifier s) (timers s) = 1%nat.

(** A level just completed, the start of the next one pending. *)
Definition sampleWonLevel : Game := processPlayerMove 3 1 sampleLastCheese.

(** ** The viewport
    [reshape] keeps the aspect ratio of the game.  The sizes GLUT reports
    are not negative, so the unsigned model of [float] serves; the
    conversion [(float)n] of an [int] rounds when [n] has more than 24
    significant bits.  The result is the argument list of [glViewport]:
    x, y, width, height. *)

Definition CELL_SIZE : Z := 25.
Definition WINDOW_WIDTH : Z := COLS * CELL_SIZE.
Definition WINDOW_HEIGHT : Z := ROWS * CELL_SIZE.

Definition floatOfInt (n : Z) : Z :=
  roundFloat (fprec binary32) (n * 2 ^ fscale binary32) 1.

Definition reshape (w h : Z) : Z * Z * Z * Z :=
  let h := if h =? 0 then 1 else h in
  let gameAspect := fdiv binary32 (floatOfInt WINDOW_WIDTH) (floatOfInt WINDOW_HEIGHT) in
  let windowAspect := fdiv binary32 (floatOfInt w) (floatOfInt h) in
  if gameAspect <? windowAspect then
    let newViewportH := h in
    let newViewportW := toInt binary32 (fmul binary32 (floatOfInt h) gameAspect) in
    let newViewportX := Z.quot (w - newViewportW) 2 in
    let newViewportY := 0 in
    (newViewportX, newViewportY, newViewportW, newViewportH)
  else
    let newViewportW := w in
    let newViewportH := toInt binary32 (fdiv binary32 (floatOfInt w) gameAspect) in
    let newViewportX := 0 in
    let newViewportY := Z.quot (h - newViewportH) 2 in
    (newViewportX, newViewportY, newViewportW, newViewportH).

(** One of the three grids of [initMaze]. *)
Definition isLayout (g : Grid) : Prop := g = layout1 \/ g = layout2 \/ g = layout3.

(** Every path tile of [g] is marked by the search that starts at the
    start tile of the cat and looks for a tile out of the grid. *)
Definition allMarked (g : Grid) : bool :=
  let st := bfs g (CAT_START_X, CAT_START_Y) noParent in
  forallb (fun p => negb (isPath g p) || bool_decide (p ∈ svisited st)) allCells.

(** The arrow key that stands for a letter key of the same move. *)
Definition arrowOf (key : ascii) : option Z :=
  if isKey key "w" "W" then Some GLUT_KEY_UP
  else if isKey key "s" "S" then Some GLUT_KEY_DOWN
  else if isKey key "a" "A" then Some GLUT_KEY_LEFT
  else if isKey key "d" "D" then Some GLUT_KEY_RIGHT
  else None.

(** The cat at the left mouth of the tunnel, the player at the right
    one. *)
Definition sampleTunnel : Game :=
  set_playerY TUNNEL_ROW_INDEX (set_playerX (COLS - 1)
    (set_catY TUNNEL_ROW_INDEX (set_catX 0 samplePlaying))).

(* ===================================================================== *)
(** * Properties *)
(* ===================================================================== *)

Arguments catDelayFor : simpl never.
Arguments nextStep : simpl never.
Arguments placeCheese : simpl never.
Arguments placePowerups : simpl never.
Arguments selectLayout : simpl never.

(** ** Tunnel wrap *)

Lemma wrapTunnel_other_row x y :
  y <> TUNNEL_ROW_INDEX -> wrapTunnel (x, y) = (x, y).
Proof.
  intros Hy. unfold wrapTunnel.
  destruct (Z.eqb_spec y TUNNEL_ROW_INDEX); [contradiction | reflexivity].
Qed.

Lemma wrapTunnel_inGrid p : inGrid p = true -> wrapTunnel p = p.
Proof.
  destruct p as [x y]. unfold inGrid, wrapTunnel, COLS, ROWS. intros H.
  repeat (apply andb_prop in H; destruct H as [H ?]).
  destruct (y =? TUNNEL_ROW_INDEX); [| reflexivity].
  destruct (Z.ltb_spec x 0); [lia |].
  destruct (x >=? 23) eqn:E; [| reflexivity]. lia.
Qed.

Lemma isPath_inGrid g p : isPath g p = true -> inGrid p = true.
Proof. unfold isPath. intros H. apply andb_prop in H. tauto. Qed.

Lemma isPath_tile g p : isPath g p = true -> tile g (fst p) (snd p) = TILE_PATH.
Proof. unfold isPath. intros H. apply andb_prop in H. destruct H. lia. Qed.

(** ** The player move *)

Lemma collectPowerup_frame s :
  currentGameState (collectPowerup s) = currentGameState s
  /\ playerPos (collectPowerup s) = playerPos s
  /\ catPos (collectPowerup s) = catPos s
  /\ maze (collectPowerup s) = maze s
  /\ resetIdentifier (collectPowerup s) = resetIdentifier s
  /\ timers (collectPowerup s) = timers s.
Proof.
  unfold collectPowerup.
  destruct (isCatSlowed s); [tauto |].
  destruct (erasePowerup _ _ _); simpl; tauto.
Qed.

Lemma nextLevel_frame s :
  (currentGameState (nextLevel s) = GAME_WON_FINAL
   \/ currentGameState (nextLevel s) = GAME_WON_LEVEL)
  /\ playerPos (nextLevel s) = playerPos s
  /\ catPos (nextLevel s) = catPos s
  /\ maze (nextLevel s) = maze s
  /\ resetIdentifier (nextLevel s) = resetIdentifier s.
Proof.
  unfold nextLevel. simpl.
  destruct (currentLevel s + 1 >? MAX_LEVELS); simpl; tauto.
Qed.

(** What a move that passes the tile test does to the fields the
    properties below speak about. *)
Lemma processPlayerMove_valid nx ny s :
  isPath (maze s) (wrapTunnel (nx, ny)) = true ->
  let s' := processPlayerMove nx ny s in
  playerPos s' = wrapTunnel (nx, ny)
  /\ catPos s' = catPos s
  /\ maze s' = maze s
  /\ resetIdentifier s' = resetIdentifier s
  /\ (currentGameState s' = currentGameState s
      \/ currentGameState s' = GAME_WON_FINAL
      \/ currentGameState s' = GAME_WON_LEVEL).
Proof.
  intros Hp. unfold processPlayerMove.
  destruct (wrapTunnel (nx, ny)) as [wx wy] eqn:Hw. rewrite Hp. simpl.
  destruct (eraseCheese wx wy (cheeseLocations s)) as [rest |].
  - simpl.
    set (s1 := if negb (isCatSlowed s) && (initialCheeseCount s >? 0) then _ else _).
    assert (H1 : currentGameState s1 = currentGameState s /\ playerPos s1 = (wx, wy)
                 /\ catPos s1 = catPos s /\ maze s1 = maze s
                 /\ resetIdentifier s1 = resetIdentifier s
                 /\ cheeseLocations s1 = rest).
    { subst s1. destruct (negb (isCatSlowed s) && (initialCheeseCount s >? 0));
        simpl; tauto. }
    destruct H1 as (Hs & Hpl & Hc & Hm & Hr & Hch). rewrite Hch.
    destruct rest.
    + destruct (nextLevel_frame s1) as (Hst & Hpl' & Hc' & Hm' & Hr').
      rewrite Hpl', Hc', Hm', Hr'. tauto.
    + destruct (collectPowerup_frame s1) as (Hst & Hpl' & Hc' & Hm' & Hr' & _).
      rewrite Hpl', Hc', Hm', Hr', Hst. tauto.
  - set (s1 := set_playerY wy (set_playerX wx s)).
    destruct (collectPowerup_frame s1) as (Hst & Hpl' & Hc' & Hm' & Hr' & _).
    rewrite Hpl', Hc', Hm', Hr', Hst. subst s1. simpl. tauto.
Qed.

Lemma processPlayerMove_invalid nx ny s :
  isPath (maze s) (wrapTunnel (nx, ny)) = false ->
  processPlayerMove nx ny s = s.
Proof.
  intros Hp. unfold processPlayerMove.
  destruct (wrapTunnel (nx, ny)) as [wx wy]. rewrite Hp. reflexivity.
Qed.

(** C8.  A move whose candidate tile, after the tunnel rule, is not a path
    tile of the grid changes nothing: the position of the player, the
    score and every other field of the state are as before. *)
Theorem rejected_move_changes_nothing (s : Game) (nextX nextY : Z) :
  isPath (maze s) (wrapTunnel (nextX, nextY)) = false ->
  processPlayerMove nextX nextY s = s.
Proof. apply processPlayerMove_invalid. Qed.

Lemma rejected_move_changes_nothing_witness :
  isPath (maze samplePlaying) (wrapTunnel (1, 0)) = false
  /\ processPlayerMove 1 0 samplePlaying = samplePlaying.
Proof.
  split; [reflexivity |].
  apply (rejected_move_changes_nothing samplePlaying 1 0). reflexivity.
Defined.

(** ** The adversary step and its timer *)

Lemma set_cat_same s : set_catY (catY s) (set_catX (catX s) s) = s.
Proof. destruct s; reflexivity. Qed.

(** [moveCat] moves the cat or leaves it, and then may end the game. *)
Lemma moveCat_cases s :
  exists c : Pos,
    let s1 := set_catY (snd c) (set_catX (fst c) s) in
    (c = catPos s
     \/ exists t, nextStep (maze s) (catPos s) (playerPos s) = Some c
                  /\ sfound (bfs (maze s) (catPos s) (playerPos s)) = Some t
                  /\ fst c <> -1)
    /\ (moveCat s = s1
        \/ (currentGameState s = PLAYING /\ c = playerPos s /\ moveCat s = caught s1)).
Proof.
  unfold moveCat.
  destruct (nextStep (maze s) (catPos s) (playerPos s)) as [next |] eqn:Hn.
  - set (s1 := if fst next =? -1 then s else _).
    assert (H1 : exists c, s1 = set_catY (snd c) (set_catX (fst c) s)
               /\ (c = catPos s \/ (next = c /\ fst c <> -1))).
    { subst s1. destruct (Z.eqb_spec (fst next) (-1)).
      - exists (catPos s). simpl. rewrite set_cat_same. tauto.
      - exists next. tauto. }
    destruct H1 as (c & Hs1 & Hc). exists c. cbv zeta. rewrite <- Hs1. split.
    + destruct Hc as [Hc | [Hc Hne]]; [tauto |]. right. subst next.
      unfold nextStep in Hn |- *.
      destruct (sfound (bfs (maze s) (catPos s) (playerPos s))) as [t |]; [| discriminate].
      exists t. tauto.
    + destruct ((catX s1 =? playerX s1) && (catY s1 =? playerY s1)
                && bool_decide (currentGameState s1 = PLAYING)) eqn:E; [| tauto].
      right. apply andb_prop in E. destruct E as [E Hst].
      apply andb_prop in E. destruct E as [Ex Ey].
      apply bool_decide_eq_true in Hst.
      rewrite Hs1 in Ex, Ey, Hst. simpl in Ex, Ey, Hst.
      split; [exact Hst |]. split; [| reflexivity].
      unfold playerPos. destruct c. simpl in *. f_equal; lia.
  - exists (catPos s). simpl. rewrite set_cat_same. tauto.
Qed.

Lemma moveCat_frame s :
  let s' := moveCat s in
  maze s' = maze s /\ playerPos s' = playerPos s
  /\ resetIdentifier s' = resetIdentifier s /\ timers s' = timers s
  /\ isCatSlowed s' = isCatSlowed s
  /\ currentCatDelay s' = currentCatDelay s
  /\ (currentGameState s' = currentGameState s \/ currentGameState s' = GAME_OVER).
Proof.
  destruct (moveCat_cases s) as (c & _ & [H | (_ & _ & H)]); cbv zeta in *;
    rewrite H; simpl; tauto.
Qed.

Lemma catTimer_cases v s :
  catTimer v s = s
  \/ (currentGameState s = PLAYING /\ timerActive s = true
      /\ (v = resetIdentifier s \/ currentGameState s = START_MENU)
      /\ let s1 := if negb (isCatSlowed s) then moveCat s else s in
         catTimer v s = glutTimerFunc (currentCatDelay s1) CbCatTimer (resetIdentifier s1) s1).
Proof.
  unfold catTimer.
  destruct (negb (v =? resetIdentifier s)
            && negb (bool_decide (currentGameState s = START_MENU))) eqn:E1; [tauto |].
  destruct (bool_decide (currentGameState s = PLAYING) && timerActive s) eqn:E2; [| tauto].
  right. apply andb_prop in E2. destruct E2 as [E2 E3].
  apply bool_decide_eq_true in E2.
  split; [assumption |]. split; [assumption |]. split; [| reflexivity].
  apply andb_false_iff in E1. destruct E1 as [E1 | E1].
  - left. apply negb_false_iff in E1. lia.
  - right. apply negb_false_iff in E1. apply bool_decide_eq_true in E1. exact E1.
Qed.

(** A tick whose value is not the current identifier is dropped. *)
Lemma catTimer_stale v s : v <> resetIdentifier s -> catTimer v s = s.
Proof.
  intros Hv. destruct (catTimer_cases v s) as [H | (Hp & _ & [Hv' | Hm] & _)].
  - exact H.
  - contradiction.
  - congruence.
Qed.

Lemma catTimer_frame v s :
  let s' := catTimer v s in
  maze s' = maze s /\ playerPos s' = playerPos s
  /\ resetIdentifier s' = resetIdentifier s
  /\ (currentGameState s' = currentGameState s \/ currentGameState s' = GAME_OVER).
Proof.
  destruct (catTimer_cases v s) as [H | (_ & _ & _ & H)]; cbv zeta in *; rewrite H.
  - tauto.
  - destruct (isCatSlowed s); simpl.
    + tauto.
    + pose proof (moveCat_frame s) as F. cbv zeta in F. tauto.
Qed.

(** The cat standing on the player: the search stops at its first
    dequeue and no step is taken. *)
Lemma nextStep_same g c : nextStep g c c = Some noParent.
Proof.
  unfold nextStep, bfs, searchFuel. rewrite Nat.add_1_r.
  cbn [bfsLoop sfound sq]. rewrite bool_decide_eq_true_2 by reflexivity.
  cbn [sfound sparent backtrack].
  rewrite bool_decide_eq_true_2 by reflexivity. reflexivity.
Qed.

Lemma moveCat_on_player s :
  currentGameState s = PLAYING -> catPos s = playerPos s ->
  moveCat s = caught s.
Proof.
  intros Hst Hpos. unfold moveCat. rewrite Hpos, nextStep_same.
  change (fst noParent =? -1) with true. cbv iota zeta.
  injection Hpos as Hx Hy. rewrite Hx, Hy, !Z.eqb_refl.
  rewrite bool_decide_eq_true_2 by assumption. reflexivity.
Qed.

(** ** Caught is signalled by the adversary step only *)

(** C10.  A player move never ends the game, not even one onto the tile
    of the cat; neither does a frame tick.  A tick of the cat while the
    slow effect is active skips [moveCat]: it only schedules the next
    tick.  With the effect inactive, a tick of the current epoch on a
    cat that shares the tile of the player signals the capture. *)
Theorem caught_only_by_adversary_step :
  (forall s nextX nextY,
      currentGameState s = PLAYING ->
      currentGameState (processPlayerMove nextX nextY s) <> GAME_OVER)
  /\ (forall s key,
        currentGameState s <> GAME_OVER ->
        currentGameState (specialKeyboard key s) <> GAME_OVER)
  /\ (forall s now, currentGameState (idle now s) = currentGameState s)
  /\ (forall s value,
        isCatSlowed s = true ->
        catTimer value s = s
        \/ catTimer value s
           = glutTimerFunc (currentCatDelay s) CbCatTimer (resetIdentifier s) s)
  /\ (forall s,
        currentGameState s = PLAYING -> timerActive s = true ->
        isCatSlowed s = false -> catPos s = playerPos s ->
        currentGameState (catTimer (resetIdentifier s) s) = GAME_OVER).
Proof.
  assert (Hmove : forall s nx ny, currentGameState s <> GAME_OVER ->
            currentGameState (processPlayerMove nx ny s) <> GAME_OVER).
  { intros s nx ny Hst.
    destruct (isPath (maze s) (wrapTunnel (nx, ny))) eqn:Hp.
    - pose proof (processPlayerMove_valid nx ny s Hp) as F. cbv zeta in F.
      destruct F as (_ & _ & _ & _ & [F | [F | F]]); rewrite F; congruence.
    - rewrite processPlayerMove_invalid by assumption. exact Hst. }
  split.
  { intros s nx ny Hst. apply Hmove. congruence. }
  split.
  { intros s key Hst. unfold specialKeyboard.
    repeat match goal with |- context [if ?b then _ else _] => destruct b end;
      auto. }
  split.
  { intros s now. unfold idle.
    repeat match goal with |- context [if ?b then _ else _] => destruct b end;
      reflexivity. }
  split.
  { intros s v Hslow.
    destruct (catTimer_cases v s) as [H | (_ & _ & _ & H)]; [tauto |].
    right. cbv zeta in H. rewrite Hslow in H. exact H. }
  intros s Hst Hta Hslow Hpos. unfold catTimer.
  rewrite Z.eqb_refl, Hta, Hslow, Hst. cbn [negb andb].
  rewrite bool_decide_eq_true_2 by reflexivity. cbn [andb].
  rewrite moveCat_on_player by assumption. reflexivity.
Qed.

(** ** Level initialisation, reset and the epoch *)

(** [initLevelData] written out: the cheese and the power-ups of the two
    placement loops, the start positions and the initial delay. *)
Lemma initLevelData_eq draws s :
  let pc := placeCheese draws maxAttempts (maze s) (randCount s) 0 [] in
  let pp := placePowerups draws maxAttempts (maze s) (fst (fst pc)) (snd pc) 0 [] in
  initLevelData draws s
  = mkGame (currentGameState s) PLAYER_START_X PLAYER_START_Y CAT_START_X
      CAT_START_Y (maze s) (currentLevel s) 0 (totalScore s)
      (Z.of_nat (length (fst (fst pc)))) (fst (fst pc)) (fst (fst pp)) false 0
      INITIAL_CAT_DELAY_MS INITIAL_CAT_DELAY_MS (lastTickTime s) (timerActive s)
      (resetIdentifier s) (timers s) (snd pp).
Proof.
  unfold initLevelData. cbn [maze randCount set_score set_currentCatDelay].
  destruct (placeCheese draws maxAttempts (maze s) (randCount s) 0 [])
    as [[cheese pc] n1]. cbn [fst snd].
  destruct (placePowerups draws maxAttempts (maze s) cheese n1 0 [])
    as [[powerups pp] n2]. reflexivity.
Qed.

Lemma nextStep_layout1_start :
  nextStep layout1 (CAT_START_X, CAT_START_Y) (PLAYER_START_X, PLAYER_START_Y)
  = Some (11, 10).
Proof. vm_compute. reflexivity. Qed.

Lemma nextStep_layout2_start :
  nextStep layout2 (CAT_START_X, CAT_START_Y) (PLAYER_START_X, PLAYER_START_Y)
  = Some (11, 10).
Proof. vm_compute. reflexivity. Qed.

Lemma nextStep_layout3_start :
  nextStep layout3 (CAT_START_X, CAT_START_Y) (PLAYER_START_X, PLAYER_START_Y)
  = Some (11, 10).
Proof. vm_compute. reflexivity. Qed.

Lemma nextStep_selectLayout v :
  nextStep (selectLayout v) (CAT_START_X, CAT_START_Y)
    (PLAYER_START_X, PLAYER_START_Y) = Some (11, 10).
Proof.
  unfold selectLayout. destruct (v =? 2); [apply nextStep_layout2_start |].
  destruct (v =? 3); [apply nextStep_layout3_start | apply nextStep_layout1_start].
Qed.

(** [startLevel] written out: the level is populated, the epoch advances,
    and the tick it runs at once moves the cat from its start tile one
    step up. *)
Lemma startLevel_eq draws now v s :
  let pc := placeCheese draws maxAttempts (selectLayout v) (randCount s) 0 [] in
  let pp := placePowerups draws maxAttempts (selectLayout v) (fst (fst pc)) (snd pc) 0 [] in
  startLevel draws now v s
  = mkGame PLAYING PLAYER_START_X PLAYER_START_Y 11 10 (selectLayout v)
      (currentLevel s) 0 (totalScore s)
      (Z.of_nat (length (fst (fst pc)))) (fst (fst pc)) (fst (fst pp)) false 0
      INITIAL_CAT_DELAY_MS INITIAL_CAT_DELAY_MS now true
      (resetIdentifier s + 1)
      (timers s ++ [mkTimer INITIAL_CAT_DELAY_MS CbCatTimer (resetIdentifier s + 1)])
      (snd pp).
Proof.
  unfold startLevel. cbv zeta. rewrite initLevelData_eq. cbv zeta.
  unfold initMaze. cbn -[placeCheese placePowerups maxAttempts Z.add].
  unfold catTimer. cbn -[placeCheese placePowerups maxAttempts Z.add moveCat].
  rewrite Z.eqb_refl. cbn -[placeCheese placePowerups maxAttempts Z.add moveCat].
  unfold moveCat. cbn -[placeCheese placePowerups maxAttempts Z.add nextStep].
  unfold catPos, playerPos. cbn -[placeCheese placePowerups maxAttempts Z.add nextStep].
  rewrite nextStep_selectLayout.
  cbn -[placeCheese placePowerups maxAttempts Z.add nextStep].
  reflexivity.
Qed.

(** [resetGame] written out. *)
Lemma resetGame_eq draws now s :
  let pc := placeCheese draws maxAttempts layout1 (randCount s) 0 [] in
  let pp := placePowerups draws maxAttempts layout1 (fst (fst pc)) (snd pc) 0 [] in
  resetGame draws now s
  = mkGame PLAYING PLAYER_START_X PLAYER_START_Y 11 10 layout1 1 0 0
      (Z.of_nat (length (fst (fst pc)))) (fst (fst pc)) (fst (fst pp)) false 0
      INITIAL_CAT_DELAY_MS INITIAL_CAT_DELAY_MS now true
      (resetIdentifier s + 1)
      (timers s ++ [mkTimer INITIAL_CAT_DELAY_MS CbCatTimer (resetIdentifier s + 1)])
      (snd pp).
Proof.
  unfold resetGame. cbv zeta. rewrite initLevelData_eq. cbv zeta.
  unfold initMaze. cbn -[placeCheese placePowerups maxAttempts layout1 Z.add].
  change (selectLayout 1) with layout1.
  unfold catTimer. cbn -[placeCheese placePowerups maxAttempts layout1 Z.add moveCat].
  rewrite Z.eqb_refl. cbn -[placeCheese placePowerups maxAttempts layout1 Z.add moveCat].
  unfold moveCat. cbn -[placeCheese placePowerups maxAttempts layout1 Z.add nextStep].
  unfold catPos, playerPos. cbn -[placeCheese placePowerups maxAttempts layout1 Z.add nextStep].
  rewrite nextStep_layout1_start.
  cbn -[placeCheese placePowerups maxAttempts layout1 Z.add nextStep].
  reflexivity.
Qed.

Lemma idle_frame now s :
  let s' := idle now s in
  currentGameState s' = currentGameState s /\ maze s' = maze s
  /\ playerPos s' = playerPos s /\ catPos s' = catPos s
  /\ resetIdentifier s' = resetIdentifier s /\ timers s' = timers s
  /\ score s' = score s /\ initialCheeseCount s' = initialCheeseCount s
  /\ cheeseLocations s' = cheeseLocations s.
Proof.
  unfold idle.
  repeat match goal with |- context [if ?b then _ else _] => destruct b end;
    simpl; tauto.
Qed.

Lemma processPlayerMove_rid nx ny s :
  resetIdentifier (processPlayerMove nx ny s) = resetIdentifier s.
Proof.
  destruct (isPath (maze s) (wrapTunnel (nx, ny))) eqn:Hp.
  - pose proof (processPlayerMove_valid nx ny s Hp) as F. cbv zeta in F. tauto.
  - rewrite processPlayerMove_invalid by assumption. reflexivity.
Qed.

Lemma catTimer_rid v s : resetIdentifier (catTimer v s) = resetIdentifier s.
Proof. pose proof (catTimer_frame v s) as F. cbv zeta in F. tauto. Qed.

Lemma keyboard_rid draws now key s s' :
  keyboard draws now key s = Some s' -> resetIdentifier s <= resetIdentifier s'.
Proof.
  unfold keyboard. intros H.
  repeat match type of H with
         | context [match currentGameState ?s with _ => _ end] =>
             destruct (currentGameState s)
         | context [if ?b then _ else _] => destruct b
         end;
    try discriminate; injection H as <-;
    rewrite ?resetGame_eq, ?processPlayerMove_rid, ?catTimer_rid; simpl; lia.
Qed.

Lemma specialKeyboard_rid key s :
  resetIdentifier (specialKeyboard key s) = resetIdentifier s.
Proof.
  unfold specialKeyboard.
  repeat match goal with |- context [if ?b then _ else _] => destruct b end;
    rewrite ?processPlayerMove_rid; reflexivity.
Qed.

(** No event lowers the epoch. *)
Lemma step_rid draws ev s s' :
  step draws ev s = Some s' -> resetIdentifier s <= resetIdentifier s'.
Proof.
  destruct ev as [now key | key | now | now i]; simpl; intros H.
  - eapply keyboard_rid; eassumption.
  - injection H as <-. rewrite specialKeyboard_rid. lia.
  - injection H as <-. pose proof (idle_frame now s) as F. cbv zeta in F.
    destruct F as (_ & _ & _ & _ & -> & _). lia.
  - destruct (timers s !! i) as [t |]; [| discriminate]. injection H as <-.
    unfold fire. destruct (tcallback t).
    + rewrite catTimer_rid. simpl. lia.
    + rewrite startLevel_eq. simpl. lia.
    + unfold leaveIntro. destruct (bool_decide _); simpl; lia.
Qed.

Lemma run_rid draws evs : forall s s',
  run draws evs s = Some s' -> resetIdentifier s <= resetIdentifier s'.
Proof.
  induction evs as [| ev evs IH]; simpl; intros s s' H.
  - injection H as <-. lia.
  - destruct (step draws ev s) as [s1 |] eqn:E; [| discriminate].
    apply step_rid in E. apply IH in H. lia.
Qed.

(** C3.  A tick callback carries the epoch of the moment it was
    scheduled.  Take any value [value] that was an epoch at or before a
    state [s]; after a reset in [s], followed by any events (further
    resets among them), a tick carrying [value] leaves the whole state as
    it is: nothing moves, nothing is scheduled. *)
Theorem stale_tick_is_noop (draws : nat -> nat) (s s' : Game) (now value : Z)
    (evs : list Event) :
  value <= resetIdentifier s ->
  run draws evs (resetGame draws now s) = Some s' ->
  catTimer value s' = s'.
Proof.
  intros Hv Hrun. apply catTimer_stale. apply run_rid in Hrun.
  rewrite resetGame_eq in Hrun. simpl in Hrun. lia.
Qed.


Lemma stale_tick_is_noop_witness :
  0 <= resetIdentifier sampleStart
  /\ run sampleDraws [EvIdle 20; EvSpecial GLUT_KEY_RIGHT]
       (resetGame sampleDraws 5 sampleStart)
     = Some (specialKeyboard GLUT_KEY_RIGHT (idle 20 samplePlaying))
  /\ catTimer 0 (specialKeyboard GLUT_KEY_RIGHT (idle 20 samplePlaying))
     = specialKeyboard GLUT_KEY_RIGHT (idle 20 samplePlaying).
Proof.
  assert (H0 : 0 <= resetIdentifier sampleStart).
  { replace (resetIdentifier sampleStart) with 0 by (vm_compute; reflexivity). lia. }
  assert (H1 : run sampleDraws [EvIdle 20; EvSpecial GLUT_KEY_RIGHT]
                 (resetGame sampleDraws 5 sampleStart)
               = Some (specialKeyboard GLUT_KEY_RIGHT (idle 20 samplePlaying)))
    by (vm_compute; reflexivity).
  split; [exact H0 |]. split; [exact H1 |].
  exact (stale_tick_is_noop sampleDraws sampleStart _ 5 0 _ H0 H1).
Defined.

(** ** Reset *)

(** In the final state the reset key is ignored: the state after the key
    is the state before it, still [GAME_WON_FINAL]. *)
Lemma reset_ignored_after_final_win :
  currentGameState sampleWonFinal = GAME_WON_FINAL
  /\ keyboard sampleDraws 90500 "r" sampleWonFinal = Some sampleWonFinal
  /\ keyboard sampleDraws 90500 "R" sampleWonFinal = Some sampleWonFinal
  /\ currentGameState sampleWonFinal <> PLAYING.
Proof.
  split; [reflexivity |].
  split; [vm_compute; reflexivity |].
  split; [vm_compute; reflexivity |].
  unfold sampleWonFinal. cbn [currentGameState]. discriminate.
Qed.

(** C2 (amended).  In [GAME_OVER] the reset key returns the game to
    [PLAYING] at level 1 with both scores zero; in [GAME_WON_FINAL] the
    reset key changes nothing. *)
Theorem reset_restarts_from_game_over (draws : nat -> nat) (now : Z)
    (key : ascii) (s : Game) :
  isKey key "r" "R" = true ->
  (currentGameState s = GAME_OVER ->
   exists s', keyboard draws now key s = Some s'
              /\ currentGameState s' = PLAYING /\ currentLevel s' = 1
              /\ score s' = 0 /\ totalScore s' = 0)
  /\ (currentGameState s = GAME_WON_FINAL -> keyboard draws now key s = Some s).
Proof.
  intros Hkey. split; intros Hst; unfold keyboard; rewrite Hst, Hkey.
  - rewrite bool_decide_eq_false_2 by congruence. cbn [negb andb].
    eexists. split; [reflexivity |]. rewrite resetGame_eq. simpl. tauto.
  - rewrite bool_decide_eq_true_2 by reflexivity. cbn [negb andb].
    destruct (Ascii.eqb_spec key KEY_ESCAPE) as [-> | _]; [discriminate | reflexivity].
Qed.

Lemma reset_restarts_from_game_over_witness :
  isKey "r" "r" "R" = true
  /\ (currentGameState (caught samplePlaying) = GAME_OVER ->
      exists s', keyboard sampleDraws 7 "r" (caught samplePlaying) = Some s'
                 /\ currentGameState s' = PLAYING /\ currentLevel s' = 1
                 /\ score s' = 0 /\ totalScore s' = 0)
  /\ (currentGameState (caught samplePlaying) = GAME_WON_FINAL ->
      keyboard sampleDraws 7 "r" (caught samplePlaying) = Some (caught samplePlaying)).
Proof.
  split; [reflexivity |].
  apply (reset_restarts_from_game_over sampleDraws 7 "r" (caught samplePlaying)).
  reflexivity.
Defined.

(** ** The search of [moveCat] *)

Lemma inGrid_cells p : inGrid p = true -> p ∈ cells.
Proof.
  destruct p as [x y]. unfold inGrid. intros H.
  repeat (apply andb_prop in H; destruct H as [H ?]).
  unfold cells, allCells. apply elem_of_list_to_set.
  apply list_elem_of_bind. exists x. split.
  - apply list_elem_of_bind. exists y. split; [apply list_elem_of_singleton; reflexivity |].
    apply elem_of_seqZ. lia.
  - apply elem_of_seqZ. lia.
Qed.

Lemma size_cells : size cells = 529%nat.
Proof. vm_compute. reflexivity. Qed.

Lemma bfsInv_init g s :
  inGrid s = true -> BfsInv g s (fun _ => O) [s] {[s]} ∅.
Proof.
  intros Hs. apply inGrid_cells in Hs.
  assert (Hce : ({[s]} : gset Pos) ⊆ cells).
  { intros x Hx. apply elem_of_singleton in Hx. subst x. exact Hs. }
  clear Hs. constructor; [| | | | | | | | exact Hce |]; clear Hce.
  - split; [apply elem_of_singleton; reflexivity |].
    split; [reflexivity | apply lookup_empty].
  - intros v Hv Hne. apply elem_of_singleton in Hv. contradiction.
  - intros v _. apply lookup_empty.
  - intros v Hv. apply list_elem_of_singleton in Hv. apply elem_of_singleton. exact Hv.
  - intros u w Hu Hq. apply elem_of_singleton in Hu. subst.
    exfalso. apply Hq. apply list_elem_of_singleton. reflexivity.
  - repeat constructor.
  - intros; lia.
  - intros; lia.
  - intros v _. rewrite size_singleton. lia.
Qed.

Lemma bump_same D n k : bump D n k n = k.
Proof. unfold bump. rewrite bool_decide_eq_true_2; reflexivity. Qed.

Lemma bump_other D n k v : v <> n -> bump D n k v = D v.
Proof. intros H. unfold bump. rewrite bool_decide_eq_false_2; [reflexivity | assumption]. Qed.

Lemma bump_visited (D : Pos -> nat) (n : Pos) (k : nat) (V : gset Pos) (v : Pos) :
  n ∉ V -> v ∈ V -> bump D n k v = D v.
Proof. intros Hn Hv. apply bump_other. intros ->. contradiction. Qed.

Lemma StronglySorted_on {A} (R R' : A -> A -> Prop) (l : list A) :
  (forall x y, x ∈ l -> y ∈ l -> R x y -> R' x y) ->
  StronglySorted R l -> StronglySorted R' l.
Proof.
  induction l as [| a l IH]; intros HR Hs; [constructor |].
  apply StronglySorted_cons in Hs. destruct Hs as [Ha Hl].
  apply StronglySorted_cons. split.
  - rewrite Forall_forall in Ha |- *. intros y Hy.
    apply HR; [left | right; assumption | apply Ha; assumption].
  - apply IH; [| assumption]. intros x y Hx Hy. apply HR; right; assumption.
Qed.

(** Enqueueing an unvisited neighbour [n] of the head [h]. *)
Lemma bfsInv_push (g : Grid) (s : Pos) (D : Pos -> nat) (h : Pos) (q : list Pos)
    (V : gset Pos) (P : gmap Pos Pos) (n : Pos) :
  BfsInv g s D (h :: q) V P ->
  edge g h n -> n ∉ V ->
  BfsInv g s (bump D n (S (D h))) (h :: q ++ [n]) ({[n]} ∪ V) (<[n := h]> P).
Proof.
  intros [Hsrc Hpar Hdom Hq Hcl Hso Hsp Hdn Hce Hde] He Hn.
  destruct Hsrc as (HsV & HDs & HPs).
  assert (HhV : h ∈ V) by (apply Hq; left).
  assert (Hns : n <> s) by (intros ->; contradiction).
  assert (Hnh : h <> n) by (intros ->; contradiction).
  assert (HB : forall v, v ∈ V -> bump D n (S (D h)) v = D v)
    by (intros v Hv; apply (bump_visited _ _ _ V); assumption).
  assert (Hce' : {[n]} ∪ V ⊆ cells).
  { destruct He as (d & _ & _ & Hp). apply isPath_inGrid, inGrid_cells in Hp.
    intros x Hx. apply elem_of_union in Hx. destruct Hx as [Hx | Hx].
    - apply elem_of_singleton in Hx. subst x. exact Hp.
    - apply Hce. exact Hx. }
  clear Hce. constructor; [| | | | | | | | exact Hce' |]; clear Hce'.
  - split; [set_solver |]. split; [rewrite HB by assumption; exact HDs |].
    rewrite lookup_insert_ne by assumption. exact HPs.
  - intros v Hv Hvs. destruct (decide (v = n)) as [-> | Hvn].
    + exists h. rewrite lookup_insert_eq, bump_same, HB by assumption.
      split; [reflexivity |]. split; [set_solver |]. split; [assumption | reflexivity].
    + assert (HvV : v ∈ V) by set_solver.
      destruct (Hpar v HvV Hvs) as (u & HPu & HuV & Heu & HDu).
      exists u. rewrite lookup_insert_ne by congruence.
      rewrite !HB by assumption. split; [assumption |]. split; [set_solver |]. tauto.
  - intros v Hv. rewrite lookup_insert_ne by set_solver. apply Hdom. set_solver.
  - intros v Hv. apply elem_of_cons in Hv. destruct Hv as [-> | Hv]; [set_solver |].
    apply elem_of_app in Hv. destruct Hv as [Hv | Hv].
    + apply elem_of_union_r. apply Hq. right. exact Hv.
    + apply list_elem_of_singleton in Hv. set_solver.
  - intros u w Hu Huq Hew.
    assert (Hun : u <> n).
    { intros ->. apply Huq. right. apply elem_of_app. right. apply list_elem_of_singleton. reflexivity. }
    assert (HuV : u ∈ V) by set_solver.
    assert (Huq' : u ∉ h :: q).
    { intros Hin. apply Huq. apply elem_of_cons in Hin. destruct Hin as [-> | Hin]; [left |].
      right. apply elem_of_app. left. exact Hin. }
    destruct (Hcl u w HuV Huq' Hew) as [HwV HDw].
    split; [set_solver |]. rewrite !HB by assumption. exact HDw.
  - change (h :: q ++ [n]) with ((h :: q) ++ [n]).
    apply StronglySorted_app. split; [| split].
    + intros x y Hx Hy. apply list_elem_of_singleton in Hy. subst y.
      rewrite bump_same, HB by (apply Hq; exact Hx).
      apply (Hsp h); [reflexivity | apply Hq; exact Hx].
    + eapply StronglySorted_on; [| exact Hso].
      intros x y Hx Hy. cbv beta. rewrite !HB by (apply Hq; assumption). tauto.
    + repeat constructor.
  - intros h' v Hh Hv. simpl in Hh. injection Hh as <-. rewrite (HB h) by assumption.
    destruct (decide (v = n)) as [-> | Hvn]; [rewrite bump_same; lia |].
    rewrite HB by set_solver. apply (Hsp h); [reflexivity | set_solver].
  - intros h' u Hh Hu Huq. simpl in Hh. injection Hh as <-.
    assert (Hun : u <> n).
    { intros ->. apply Huq. right. apply elem_of_app. right. apply list_elem_of_singleton. reflexivity. }
    assert (HuV : u ∈ V) by set_solver.
    rewrite !HB by assumption. apply (Hdn h); [reflexivity | assumption |].
    intros Hin. apply Huq. apply elem_of_cons in Hin. destruct Hin as [-> | Hin]; [left |].
    right. apply elem_of_app. left. exact Hin.
  - intros v Hv. rewrite size_union by set_solver. rewrite size_singleton.
    destruct (decide (v = n)) as [-> | Hvn].
    + rewrite bump_same. specialize (Hde h HhV). lia.
    + rewrite HB by set_solver. assert (HvV : v ∈ V) by set_solver.
      specialize (Hde v HvV). lia.
Qed.

(** Dequeueing the head once all its neighbours are visited. *)
Lemma bfsInv_pop (g : Grid) (s : Pos) (D : Pos -> nat) (h : Pos) (q : list Pos)
    (V : gset Pos) (P : gmap Pos Pos) :
  BfsInv g s D (h :: q) V P ->
  (forall w, edge g h w -> w ∈ V) ->
  BfsInv g s D q V P.
Proof.
  intros [Hsrc Hpar Hdom Hq Hcl Hso Hsp Hdn Hce Hde] Hh.
  assert (HhV : h ∈ V) by (apply Hq; left).
  apply StronglySorted_cons in Hso. destruct Hso as [Hhq Hso].
  rewrite Forall_forall in Hhq.
  constructor; try assumption.
  - intros v Hv. apply Hq. right. exact Hv.
  - intros u w Hu Huq He. destruct (decide (u = h)) as [-> | Hne].
    + split; [apply Hh; assumption |]. apply (Hsp h); [reflexivity |]. apply Hh. assumption.
    + apply Hcl; try assumption. intros Hin. apply elem_of_cons in Hin. tauto.
  - intros h' v Hh' Hv. destruct q as [| x q']; [discriminate |]. injection Hh' as ->.
    specialize (Hhq h' ltac:(left)). specialize (Hsp h v eq_refl Hv). lia.
  - intros h' u Hh' Hu Huq. destruct q as [| x q']; [discriminate |]. injection Hh' as ->.
    specialize (Hhq h' ltac:(left)).
    destruct (decide (u = h)) as [-> | Hne]; [assumption |].
    assert (Hd : (D u <= D h)%nat).
    { apply (Hdn h); [reflexivity | assumption |].
      intros Hin. apply elem_of_cons in Hin. tauto. }
    lia.
Qed.

(** The tree of parents realises the depth [D]. *)
Lemma bfsInv_walk (g : Grid) (s : Pos) (D : Pos -> nat) (q : list Pos)
    (V : gset Pos) (P : gmap Pos Pos) :
  BfsInv g s D q V P ->
  forall k v, v ∈ V -> D v = k -> walk g k s v.
Proof.
  intros I. induction k as [| k IH]; intros v Hv HD.
  - destruct (decide (v = s)) as [-> | Hne]; [constructor |].
    destruct (inv_par _ _ _ _ _ _ I v Hv Hne) as (u & _ & _ & _ & HDu). lia.
  - destruct (decide (v = s)) as [-> | Hne].
    { destruct (inv_src _ _ _ _ _ _ I) as (_ & H0 & _). lia. }
    destruct (inv_par _ _ _ _ _ _ I v Hv Hne) as (u & _ & HuV & He & HDu).
    apply walk_more with u; [apply IH; [assumption | lia] | assumption].
Qed.

(** No walk from the source is shorter than the depth of its end, unless
    it crosses the queue. *)
Lemma bfsInv_frontier (g : Grid) (s : Pos) (D : Pos -> nat) (q : list Pos)
    (V : gset Pos) (P : gmap Pos Pos) :
  BfsInv g s D q V P ->
  forall n v, walk g n s v ->
    (v ∈ V /\ (D v <= n)%nat) \/ (exists x, x ∈ q /\ (D x < n)%nat).
Proof.
  intros I n v W. induction W as [u | n u v w W IH He].
  - left. destruct (inv_src _ _ _ _ _ _ I) as (Hs & H0 & _). split; [assumption | lia].
  - destruct (IH I) as [[HvV HDv] | (x & Hx & HDx)].
    + destruct (decide (v ∈ q)) as [Hin | Hout].
      * right. exists v. split; [assumption | lia].
      * left. destruct (inv_closed _ _ _ _ _ _ I v w HvV Hout He) as [HwV HDw].
        split; [assumption | lia].
    + right. exists x. split; [assumption | lia].
Qed.

Lemma bfsInv_shortest (g : Grid) (s : Pos) (D : Pos -> nat) (q : list Pos)
    (V : gset Pos) (P : gmap Pos Pos) :
  BfsInv g s D q V P ->
  forall n v, v ∈ V -> walk g n s v -> (D v <= n)%nat.
Proof.
  intros I n v Hv W.
  destruct (bfsInv_frontier _ _ _ _ _ _ I n v W) as [[_ H] | (x & Hx & HDx)]; [exact H |].
  destruct q as [| h q']; [apply elem_of_nil in Hx; contradiction |].
  pose proof (inv_span _ _ _ _ _ _ I h v eq_refl Hv) as Hsp.
  pose proof (inv_sorted _ _ _ _ _ _ I) as Hso.
  apply StronglySorted_cons in Hso. destruct Hso as [Hhq _].
  rewrite Forall_forall in Hhq.
  apply elem_of_cons in Hx. destruct Hx as [-> | Hx]; [lia |].
  specialize (Hhq x Hx). lia.
Qed.

Lemma bfsInv_exhausted (g : Grid) (s : Pos) (D : Pos -> nat)
    (V : gset Pos) (P : gmap Pos Pos) :
  BfsInv g s D [] V P -> forall n v, walk g n s v -> v ∈ V.
Proof.
  intros I n v W.
  destruct (bfsInv_frontier _ _ _ _ _ _ I n v W) as [[H _] | (x & Hx & _)]; [exact H |].
  apply elem_of_nil in Hx. contradiction.
Qed.

Lemma walk_cons g n u v w : edge g u v -> walk g n v w -> walk g (S n) u w.
Proof.
  intros He W. induction W as [v | n v x w W IH Hxw].
  - apply walk_more with u; [constructor | assumption].
  - apply walk_more with x; [apply IH; assumption | assumption].
Qed.

Lemma noParent_not_cell : noParent ∉ cells.
Proof.
  intros H. unfold cells, allCells in H. apply elem_of_list_to_set in H.
  apply list_elem_of_bind in H. destruct H as (x & H & Hx).
  apply list_elem_of_bind in H. destruct H as (y & H & Hy).
  apply list_elem_of_singleton in H. apply elem_of_seqZ in Hx.
  unfold noParent in H. injection H as <- <-. lia.
Qed.

Lemma cells_inGrid p : p ∈ cells -> inGrid p = true.
Proof.
  intros H. unfold cells, allCells in H. apply elem_of_list_to_set in H.
  apply list_elem_of_bind in H. destruct H as (x & H & Hx).
  apply list_elem_of_bind in H. destruct H as (y & H & Hy).
  apply list_elem_of_singleton in H. subst p.
  apply elem_of_seqZ in Hx. apply elem_of_seqZ in Hy.
  unfold inGrid. repeat (apply andb_true_intro; split); lia.
Qed.

(** Backtracking from a visited cell other than the source ends at the
    child of the source on the branch of that cell. *)
Lemma backtrack_child (g : Grid) (s : Pos) (D : Pos -> nat) (q : list Pos)
    (V : gset Pos) (P : gmap Pos Pos) :
  BfsInv g s D q V P ->
  forall fuel v, v ∈ V -> v <> s -> (D v <= fuel)%nat ->
    let c := backtrack fuel P s v in
    P !! c = Some s /\ c ∈ V /\ walk g (D v - 1) c v.
Proof.
  intros I. induction fuel as [| fuel IH]; intros v Hv Hne Hf; cbv zeta.
  - destruct (inv_par _ _ _ _ _ _ I v Hv Hne) as (u & _ & _ & _ & HDu). lia.
  - destruct (inv_par _ _ _ _ _ _ I v Hv Hne) as (u & HPu & HuV & He & HDu).
    cbn [backtrack]. rewrite bool_decide_eq_false_2 by assumption.
    unfold parentOf. rewrite HPu. cbn [default].
    rewrite (bool_decide_eq_false_2 (u = noParent)).
    2:{ intros ->. apply noParent_not_cell. apply (inv_cells _ _ _ _ _ _ I). assumption. }
    destruct (decide (u = s)) as [-> | Hus].
    + rewrite bool_decide_eq_true_2 by reflexivity.
      split; [assumption |]. split; [assumption |].
      destruct (inv_src _ _ _ _ _ _ I) as (_ & H0 & _).
      replace (D v - 1)%nat with O by lia. constructor.
    + rewrite bool_decide_eq_false_2 by assumption.
      destruct (IH u HuV Hus ltac:(lia)) as (Hc & HcV & W).
      split; [assumption |]. split; [assumption |].
      destruct (inv_par _ _ _ _ _ _ I u HuV Hus) as (u' & _ & _ & _ & HDu').
      replace (D v - 1)%nat with (S (D u - 1)) by lia.
      apply walk_more with u; assumption.
Qed.

Lemma bfsInv_size (g : Grid) (s : Pos) (D : Pos -> nat) (q : list Pos)
    (V : gset Pos) (P : gmap Pos Pos) :
  BfsInv g s D q V P -> (size V <= Z.to_nat (ROWS * COLS))%nat.
Proof.
  intros I. pose proof (subseteq_size _ _ (inv_cells _ _ _ _ _ _ I)) as H.
  rewrite size_cells in H. exact H.
Qed.

Lemma visitNeighbour_inv g s player h st d :
  sfound st = None ->
  SearchInv g s (h :: sq st) st ->
  d ∈ directions ->
  let st' := visitNeighbour g player h st d in
  SearchInv g s (h :: sq st') st'
  /\ svisited st ⊆ svisited st'
  /\ (forall x, x ∈ sq st -> x ∈ sq st')
  /\ (forall w, edge g h w -> w = wrapTunnel (fst h + fst d, snd h + snd d) ->
                w ∈ svisited st')
  /\ foundOk player st'
  /\ (sfound st' = None -> player ∈ svisited st' -> player ∈ svisited st)
  /\ (searchMeasure st' <= searchMeasure st)%nat.
Proof.
  intros Hf [D I] Hd. cbv zeta. unfold visitNeighbour. rewrite Hf.
  set (n := wrapTunnel (fst h + fst d, snd h + snd d)).
  destruct (isPath g n) eqn:Hp; cbn [andb].
  - destruct (decide (n ∈ svisited st)) as [Hin | Hout].
    + rewrite bool_decide_eq_true_2 by assumption. cbn [negb].
      split; [exists D; exact I |]. split; [set_solver |]. split; [tauto |].
      split; [intros w _ ->; exact Hin |].
      split; [intros t Ht; congruence |]. split; [tauto | lia].
    + rewrite bool_decide_eq_false_2 by assumption. cbn [negb sq svisited sparent sfound].
      assert (He : edge g h n) by (exists d; tauto).
      pose proof (bfsInv_push g s D h (sq st) _ _ n I He Hout) as I'.
      split; [eexists; exact I' |]. split; [set_solver |].
      split; [intros x Hx; apply elem_of_app; tauto |].
      split; [intros w _ ->; set_solver |].
      split.
      { intros t Ht. destruct (decide (n = player)) as [Heq | Hne].
        - rewrite bool_decide_eq_true_2 in Ht by assumption. injection Ht as <-.
          split; [assumption | set_solver].
        - rewrite bool_decide_eq_false_2 in Ht by assumption. discriminate. }
      split.
      { intros Hnf Hpl. destruct (decide (n = player)) as [Heq | Hne].
        - rewrite bool_decide_eq_true_2 in Hnf by assumption. discriminate.
        - set_solver. }
      unfold searchMeasure. cbn [sq svisited].
      pose proof (bfsInv_size _ _ _ _ _ _ I') as Hsz.
      rewrite size_union in Hsz |- * by set_solver.
      rewrite size_singleton in Hsz |- *. rewrite length_app. cbn [length]. lia.
  - split; [exists D; exact I |]. split; [set_solver |]. split; [tauto |].
    split.
    { intros w (d' & _ & _ & Hpw) ->. fold n in Hpw. congruence. }
    split; [intros t Ht; congruence |]. split; [tauto | lia].
Qed.

Lemma visitNeighbour_found g player h st d t :
  sfound st = Some t -> visitNeighbour g player h st d = st.
Proof. intros H. unfold visitNeighbour. rewrite H. reflexivity. Qed.

Lemma fold_visit_found g player h ds : forall st t,
  sfound st = Some t -> fold_left (visitNeighbour g player h) ds st = st.
Proof.
  induction ds as [| d ds IH]; intros st t H; [reflexivity |].
  cbn [fold_left]. rewrite (visitNeighbour_found _ _ _ _ _ t H). apply (IH _ t H).
Qed.

(** The expansion of the head over a list of directions. *)
Lemma fold_visit_inv g s player h ds : forall st,
  (forall d, d ∈ ds -> d ∈ directions) ->
  sfound st = None ->
  SearchInv g s (h :: sq st) st ->
  let st' := fold_left (visitNeighbour g player h) ds st in
  SearchInv g s (h :: sq st') st'
  /\ svisited st ⊆ svisited st'
  /\ (forall x, x ∈ sq st -> x ∈ sq st')
  /\ (sfound st' = None ->
      forall d w, d ∈ ds -> edge g h w ->
                  w = wrapTunnel (fst h + fst d, snd h + snd d) -> w ∈ svisited st')
  /\ foundOk player st'
  /\ (sfound st' = None -> player ∈ svisited st' -> player ∈ svisited st)
  /\ (searchMeasure st' <= searchMeasure st)%nat.
Proof.
  induction ds as [| d ds IH]; intros st Hds Hf I; cbv zeta.
  - cbn [fold_left]. split; [assumption |]. split; [set_solver |]. split; [tauto |].
    split; [intros _ d w Hd; apply elem_of_nil in Hd; contradiction |].
    split; [intros t Ht; congruence |]. split; [tauto | lia].
  - cbn [fold_left].
    destruct (visitNeighbour_inv g s player h st d Hf I (Hds d ltac:(left)))
      as (I1 & Hsub1 & Hq1 & Hd1 & Hok1 & Hpl1 & Hm1).
    set (st1 := visitNeighbour g player h st d) in *.
    destruct (sfound st1) as [t |] eqn:Hf1.
    + rewrite (fold_visit_found _ _ _ _ _ t Hf1). rewrite Hf1.
      split; [assumption |]. split; [assumption |]. split; [assumption |].
      split; [discriminate |]. split; [assumption |]. split; [discriminate | assumption].
    + destruct (IH st1 (fun d' Hd' => Hds d' ltac:(right; exact Hd')) Hf1 I1)
        as (I2 & Hsub2 & Hq2 & Hd2 & Hok2 & Hpl2 & Hm2).
      split; [assumption |]. split; [set_solver |].
      split; [intros x Hx; apply Hq2, Hq1, Hx |].
      split.
      { intros Hnf d' w Hd' He Hw. apply elem_of_cons in Hd'. destruct Hd' as [-> | Hd'].
        - apply Hsub2. apply Hd1; assumption.
        - apply (Hd2 Hnf d'); assumption. }
      split; [assumption |]. split; [| lia].
      intros Hnf Hpl. apply Hpl1; [reflexivity |]. apply Hpl2; assumption.
Qed.

Lemma bfsLoop_found fuel g player st t :
  sfound st = Some t -> bfsLoop fuel g player st = st.
Proof. intros H. destruct fuel; [reflexivity |]. cbn [bfsLoop]. rewrite H. reflexivity. Qed.

(** The loop: with fuel above the measure it runs to its end, where either
    the player was found or the queue is empty and every cell that can be
    reached has been visited. *)
Lemma bfsLoop_inv g s player : forall fuel st,
  SearchInv g s (sq st) st ->
  foundOk player st ->
  (sfound st = None -> player ∈ svisited st -> player ∈ sq st) ->
  (searchMeasure st < fuel)%nat ->
  let st' := bfsLoop fuel g player st in
  exists q', SearchInv g s q' st' /\ foundOk player st'
             /\ (sfound st' = None -> q' = [] /\ player ∉ svisited st').
Proof.
  induction fuel as [| fuel IH]; intros st I Hok Hpend Hm; cbv zeta; [lia |].
  cbn [bfsLoop]. destruct (sfound st) as [t |] eqn:Hf.
  { exists (sq st). rewrite Hf. split; [assumption |]. split; [assumption | discriminate]. }
  destruct (sq st) as [| h rest] eqn:Hq.
  { exists []. rewrite Hf. split; [assumption |]. split; [assumption |].
    intros _. split; [reflexivity |]. intros Hin. specialize (Hpend eq_refl Hin).
    apply elem_of_nil in Hpend. contradiction. }
  destruct (decide (h = player)) as [Heq | Hne].
  - rewrite bool_decide_eq_true_2 by assumption.
    exists (h :: rest). cbn [sfound svisited sparent].
    split; [exact I |]. split; [| discriminate].
    intros t [= <-]. split; [assumption |].
    destruct I as [D I]. apply (inv_queue _ _ _ _ _ _ I). left.
  - rewrite bool_decide_eq_false_2 by assumption.
    set (st0 := mkSearch rest (svisited st) (sparent st) None).
    assert (I0 : SearchInv g s (h :: sq st0) st0) by exact I.
    destruct (fold_visit_inv g s player h directions st0 (fun d H => H) eq_refl I0)
      as (I1 & Hsub & Hq1 & Hcl & Hok1 & Hpl1 & Hm1).
    set (st1 := fold_left (visitNeighbour g player h) directions st0) in *.
    destruct (sfound st1) as [t |] eqn:Hf1.
    + rewrite (bfsLoop_found _ _ _ _ t Hf1). exists (h :: sq st1). rewrite Hf1.
      split; [assumption |]. split; [assumption | discriminate].
    + apply IH.
      * destruct I1 as [D1 I1]. exists D1. apply (bfsInv_pop g s D1 h); [assumption |].
        intros w He. destruct He as (d & Hd & Hw & Hp).
        apply (Hcl eq_refl d w Hd); [exists d; tauto | assumption].
      * assumption.
      * intros _ Hin. apply Hq1. specialize (Hpl1 eq_refl Hin).
        specialize (Hpend eq_refl Hpl1). apply elem_of_cons in Hpend.
        destruct Hpend as [-> | Hr]; [contradiction | exact Hr].
      * unfold searchMeasure in Hm, Hm1 |- *. rewrite Hq in Hm.
        change (sq st0) with rest in Hm1.
        change (svisited st0) with (svisited st) in Hm1.
        cbn [length] in Hm. lia.
Qed.

Lemma bfs_inv g s player :
  inGrid s = true ->
  let st := bfs g s player in
  exists q, SearchInv g s q st /\ foundOk player st
            /\ (sfound st = None -> q = [] /\ player ∉ svisited st).
Proof.
  intros Hs. unfold bfs. apply bfsLoop_inv.
  - exists (fun _ => O). apply bfsInv_init. assumption.
  - intros t Ht. discriminate.
  - intros _ Hin. cbn [svisited sq] in *. apply elem_of_singleton in Hin. subst. left.
  - unfold searchMeasure, searchFuel. cbn [sq svisited length].
    rewrite size_singleton. change (Z.to_nat (ROWS * COLS)) with 529%nat. lia.
Qed.

(** The step the cat takes when the player is [S d] moves away. *)
Lemma nextStep_shortest g cat player d :
  inGrid cat = true ->
  distance g cat player (S d) ->
  exists c, nextStep g cat player = Some c
            /\ edge g cat c /\ distance g c player d.
Proof.
  intros Hs [W Hmin].
  destruct (bfs_inv g cat player Hs) as (q & [D I] & Hok & Hnone).
  unfold nextStep. destruct (sfound (bfs g cat player)) as [t |] eqn:Hf.
  - destruct (Hok t Hf) as [-> HtV].
    pose proof (bfsInv_shortest _ _ _ _ _ _ I _ _ HtV W) as Hle.
    pose proof (bfsInv_walk _ _ _ _ _ _ I _ _ HtV eq_refl) as Wt.
    pose proof (Hmin _ Wt) as Hge.
    assert (HD : D player = S d) by lia.
    assert (Hne : player <> cat).
    { intros ->. destruct (inv_src _ _ _ _ _ _ I) as (_ & H0 & _). lia. }
    pose proof (inv_depth _ _ _ _ _ _ I _ HtV) as Hdep.
    pose proof (bfsInv_size _ _ _ _ _ _ I) as Hsz.
    destruct (backtrack_child _ _ _ _ _ _ I searchFuel player HtV Hne) as (Hc & HcV & Wc).
    { unfold searchFuel. lia. }
    set (c := backtrack searchFuel (sparent (bfs g cat player)) cat player) in *.
    assert (Hcs : c <> cat).
    { intros Heq. destruct (inv_src _ _ _ _ _ _ I) as (_ & _ & HP). congruence. }
    destruct (inv_par _ _ _ _ _ _ I c HcV Hcs) as (u & HPu & _ & He & _).
    assert (u = cat) by congruence. subst u.
    exists c. split; [reflexivity |]. split; [assumption |].
    rewrite HD in Wc. replace (S d - 1)%nat with d in Wc by lia.
    split; [assumption |].
    intros m Wm. pose proof (Hmin _ (walk_cons _ _ _ _ _ He Wm)). lia.
  - destruct (Hnone eq_refl) as [-> Hout]. exfalso. apply Hout.
    eapply bfsInv_exhausted; eassumption.
Qed.

(** A player that can be reached is at some shortest distance. *)
Lemma walk_distance g cat player n :
  inGrid cat = true -> walk g n cat player ->
  exists d, distance g cat player d /\ (d <= n)%nat.
Proof.
  intros Hs W.
  destruct (bfs_inv g cat player Hs) as (q & [D I] & Hok & Hnone).
  destruct (sfound (bfs g cat player)) as [t |] eqn:Hf.
  - destruct (Hok t Hf) as [-> HtV]. exists (D player). split.
    + split; [eapply bfsInv_walk; [eassumption | assumption | reflexivity] |].
      intros m Wm. eapply bfsInv_shortest; eassumption.
    + eapply bfsInv_shortest; eassumption.
  - destruct (Hnone eq_refl) as [-> Hout]. exfalso. apply Hout.
    eapply bfsInv_exhausted; eassumption.
Qed.

Lemma backtrack_result (P : gmap Pos Pos) (s : Pos) : forall fuel v,
  let c := backtrack fuel P s v in
  c = noParent \/ P !! c = Some s.
Proof.
  induction fuel as [| fuel IH]; intros v; cbv zeta; cbn [backtrack]; [tauto |].
  destruct (bool_decide (v = s)); [tauto |].
  destruct (bool_decide (parentOf P v = noParent)) eqn:E1; [tauto |].
  destruct (bool_decide (parentOf P v = s)) eqn:E2; [| apply IH].
  right. apply bool_decide_eq_false in E1. apply bool_decide_eq_true in E2.
  unfold parentOf in E1, E2. destruct (P !! v) as [u |]; [| contradiction].
  simpl in E2. congruence.
Qed.

(** Whatever the search finds, a step it yields is a move of the cat onto
    a path tile. *)
Lemma nextStep_isPath g cat player c :
  inGrid cat = true ->
  nextStep g cat player = Some c -> fst c <> -1 ->
  isPath g c = true /\ edge g cat c.
Proof.
  intros Hs Hn Hc.
  destruct (bfs_inv g cat player Hs) as (q & [D I] & _ & _).
  unfold nextStep in Hn. destruct (sfound (bfs g cat player)) as [t |]; [| discriminate].
  apply (inj Some) in Hn.
  destruct (backtrack_result (sparent (bfs g cat player)) cat searchFuel t) as [H | H].
  - rewrite <- Hn, H in Hc. exfalso. apply Hc. reflexivity.
  - rewrite Hn in H.
    assert (HcV : c ∈ svisited (bfs g cat player)).
    { destruct (decide (c ∈ svisited (bfs g cat player))) as [Hin | Hout]; [assumption |].
      rewrite (inv_dom _ _ _ _ _ _ I c Hout) in H. discriminate. }
    assert (Hcs : c <> cat).
    { intros ->. destruct (inv_src _ _ _ _ _ _ I) as (_ & _ & HP). congruence. }
    destruct (inv_par _ _ _ _ _ _ I c HcV Hcs) as (u & HPu & _ & He & _).
    assert (u = cat) by congruence. subst u.
    split; [| assumption]. destruct He as (d & _ & _ & Hp). exact Hp.
Qed.

Lemma isPath_fst g c : isPath g c = true -> fst c <> -1.
Proof.
  intros H. apply isPath_inGrid in H. destruct c as [x y]. unfold inGrid in H.
  repeat (apply andb_prop in H; destruct H as [H ?]). simpl. lia.
Qed.

Lemma edge_isPath g u w : edge g u w -> isPath g w = true.
Proof. intros (d & _ & _ & H). exact H. Qed.

(** The effect of [moveCat] when the search yields the step [c]. *)
Lemma moveCat_to s c :
  nextStep (maze s) (catPos s) (playerPos s) = Some c -> fst c <> -1 ->
  catPos (moveCat s) = c /\ maze (moveCat s) = maze s
  /\ playerPos (moveCat s) = playerPos s
  /\ (c <> playerPos s -> currentGameState (moveCat s) = currentGameState s)
  /\ (c = playerPos s -> currentGameState s = PLAYING ->
      currentGameState (moveCat s) = GAME_OVER).
Proof.
  intros Hn Hc. unfold moveCat. rewrite Hn.
  rewrite (proj2 (Z.eqb_neq _ _) Hc). cbn [catX catY playerX playerY currentGameState
    set_catX set_catY].
  destruct c as [cx cy].
  cbn [fst snd].
  destruct ((cx =? playerX s) && (cy =? playerY s)
            && bool_decide (currentGameState s = PLAYING)) eqn:E.
  - apply andb_prop in E. destruct E as [E Hst]. apply andb_prop in E.
    destruct E as [Ex Ey]. apply bool_decide_eq_true in Hst.
    unfold caught, catPos, playerPos. simpl.
    split; [reflexivity |]. split; [reflexivity |]. split; [reflexivity |].
    split; [| reflexivity]. intros Hne. exfalso. apply Hne. f_equal; lia.
  - unfold catPos, playerPos. simpl.
    split; [reflexivity |]. split; [reflexivity |]. split; [reflexivity |].
    split; [reflexivity |]. intros [= -> ->] Hst.
    rewrite !Z.eqb_refl, bool_decide_eq_true_2 in E by assumption. discriminate.
Qed.

Lemma walk_zero g u w : walk g O u w -> u = w.
Proof. intros W. inversion W. reflexivity. Qed.

Lemma distance_zero g u w : distance g u w O -> u = w.
Proof. intros [W _]. apply walk_zero in W. exact W. Qed.

(** [k] ticks of the cat against a player that stands still. *)
Lemma chase_inv s d :
  inGrid (catPos s) = true ->
  distance (maze s) (catPos s) (playerPos s) d ->
  forall k, (k <= d)%nat ->
    let sk := Nat.iter k moveCat s in
    maze sk = maze s /\ playerPos sk = playerPos s
    /\ inGrid (catPos sk) = true
    /\ distance (maze s) (catPos sk) (playerPos s) (d - k)
    /\ ((k < d)%nat -> currentGameState sk = currentGameState s)
    /\ ((0 < k)%nat -> k = d -> currentGameState s = PLAYING ->
        currentGameState sk = GAME_OVER).
Proof.
  intros Hin Hd. induction k as [| k IH]; intros Hk; cbv zeta.
  - cbn [Nat.iter]. rewrite Nat.sub_0_r.
    split; [reflexivity |]. split; [reflexivity |]. split; [assumption |].
    split; [assumption |]. split; [reflexivity | lia].
  - destruct (IH ltac:(lia)) as (Hm & Hp & Hg & Hdist & Hst & _).
    rewrite Nat.iter_succ. set (sk := Nat.iter k moveCat s) in *.
    replace (d - k)%nat with (S (d - S k)) in Hdist by lia.
    rewrite <- Hm, <- Hp in Hdist.
    destruct (nextStep_shortest _ _ _ _ Hg Hdist) as (c & Hn & He & Hdc).
    pose proof (edge_isPath _ _ _ He) as Hpc.
    destruct (moveCat_to sk c Hn (isPath_fst _ _ Hpc)) as (Hc & Hm' & Hp' & Hs1 & Hs2).
    rewrite Hc, Hm', Hp', Hm, Hp. rewrite Hm, Hp in Hdc.
    split; [reflexivity |]. split; [reflexivity |].
    split; [eapply isPath_inGrid; eassumption |]. split; [assumption |].
    split.
    + intros Hlt. rewrite Hs1; [apply Hst; lia |].
      intros Heq. rewrite Heq, Hp in Hdc.
      destruct Hdc as [_ Hmin]. specialize (Hmin O (walk_here _ _)). lia.
    + intros _ Hkd Hplay. subst d. apply Hs2.
      * rewrite Nat.sub_diag in Hdc. apply distance_zero in Hdc. rewrite Hp. exact Hdc.
      * rewrite Hst by lia. exact Hplay.
Qed.

(** X1.  Let the player be reachable from the cat, the player standing
    still.  Then there is a shortest distance [d] between them; if it is
    not zero, one [moveCat] takes the cat to a neighbour of its tile (under
    the tunnel rule) from which the player is [d - 1] moves away; after
    [k <= d] invocations the distance is [d - k], and after [d] of them the
    cat is on the tile of the player, which in a playing game ends the
    game. *)
Theorem moveCat_follows_shortest_path (s : Game) (n : nat) :
  inGrid (catPos s) = true ->
  walk (maze s) n (catPos s) (playerPos s) ->
  exists d,
    distance (maze s) (catPos s) (playerPos s) d
    /\ ((0 < d)%nat ->
        edge (maze s) (catPos s) (catPos (moveCat s))
        /\ distance (maze s) (catPos (moveCat s)) (playerPos s) (d - 1))
    /\ (forall k, (k <= d)%nat ->
          distance (maze s) (catPos (Nat.iter k moveCat s)) (playerPos s) (d - k))
    /\ catPos (Nat.iter d moveCat s) = playerPos s
    /\ ((0 < d)%nat -> currentGameState s = PLAYING ->
        currentGameState (Nat.iter d moveCat s) = GAME_OVER).
Proof.
  intros Hin W. destruct (walk_distance _ _ _ _ Hin W) as (d & Hd & _).
  exists d. split; [assumption |]. split; [| split; [| split]].
  - intros Hpos. destruct d as [| d]; [lia |].
    destruct (nextStep_shortest _ _ _ _ Hin Hd) as (c & Hn & He & Hdc).
    destruct (moveCat_to s c Hn (isPath_fst _ _ (edge_isPath _ _ _ He))) as (Hc & _).
    rewrite Hc. replace (S d - 1)%nat with d by lia. tauto.
  - intros k Hk. pose proof (chase_inv s d Hin Hd k Hk) as H. cbv zeta in H. tauto.
  - pose proof (chase_inv s d Hin Hd d (Nat.le_refl d)) as H. cbv zeta in H.
    destruct H as (_ & _ & _ & H & _). rewrite Nat.sub_diag in H.
    apply distance_zero in H. exact H.
  - intros Hpos Hplay. pose proof (chase_inv s d Hin Hd d (Nat.le_refl d)) as H.
    cbv zeta in H. destruct H as (_ & _ & _ & _ & _ & H). apply H; [assumption | reflexivity | assumption].
Qed.

(** ** Rounding is monotone *)

Lemma roundHalfEven_between a c :
  0 < c -> a / c <= roundHalfEven a c <= a / c + 1.
Proof.
  intros Hc. unfold roundHalfEven.
  destruct (2 * (a mod c) <? c); [lia |].
  destruct (c <? 2 * (a mod c)); [lia |].
  destruct (Z.even (a / c)); lia.
Qed.

Lemma roundHalfEven_exact m c : 0 < c -> roundHalfEven (m * c) c = m.
Proof.
  intros Hc. unfold roundHalfEven.
  rewrite Z.div_mul, Z.mod_mul by lia.
  destruct (Z.ltb_spec (2 * 0) c); [reflexivity | lia].
Qed.

Lemma roundHalfEven_mono a a' c :
  0 < c -> a <= a' -> roundHalfEven a c <= roundHalfEven a' c.
Proof.
  intros Hc Ha.
  pose proof (Z.div_le_mono a a' c Hc Ha) as Hq.
  destruct (Z.eq_dec (a / c) (a' / c)) as [Heq | Hne].
  - assert (Hr : a mod c <= a' mod c).
    { rewrite !Z.mod_eq by lia. rewrite Heq. lia. }
    unfold roundHalfEven. rewrite Heq.
    destruct (Z.ltb_spec (2 * (a mod c)) c); destruct (Z.ltb_spec (2 * (a' mod c)) c);
      try lia;
      destruct (Z.ltb_spec c (2 * (a mod c))); destruct (Z.ltb_spec c (2 * (a' mod c)));
      try lia; destruct (Z.even (a' / c)); lia.
  - pose proof (roundHalfEven_between a c Hc). pose proof (roundHalfEven_between a' c Hc). lia.
Qed.

Lemma roundHalfEven_nonneg a c : 0 < c -> 0 <= a -> 0 <= roundHalfEven a c.
Proof.
  intros Hc Ha. pose proof (roundHalfEven_between a c Hc).
  pose proof (Z.div_pos a c Ha Hc). lia.
Qed.

Lemma roundFloat_nonneg prec a b : 0 < b -> 0 <= a -> 0 <= roundFloat prec a b.
Proof.
  intros Hb Ha. unfold roundFloat. cbv zeta.
  set (k := Z.max 0 _). assert (0 < 2 ^ k) by (apply Z.pow_pos_nonneg; lia).
  apply Z.mul_nonneg_nonneg; [| lia]. apply roundHalfEven_nonneg; nia.
Qed.

Lemma pow2_log2_bounds q : 0 <= q -> q < 2 ^ (Z.log2 q + 1).
Proof.
  intros Hq. destruct (Z.eq_dec q 0) as [-> | Hne]; [reflexivity |].
  pose proof (Z.log2_spec q ltac:(lia)) as H. replace (Z.log2 q + 1) with (Z.succ (Z.log2 q)) by lia.
  lia.
Qed.

Lemma roundFloat_mono prec a a' b :
  0 < prec -> 0 < b -> 0 <= a -> a <= a' ->
  roundFloat prec a b <= roundFloat prec a' b.
Proof.
  intros Hp Hb Ha Hle. unfold roundFloat. cbv zeta.
  pose proof (Z.div_pos a b Ha Hb) as Hq0.
  pose proof (Z.div_le_mono a a' b Hb Hle) as Hq.
  pose proof (Z.log2_le_mono _ _ Hq) as Hl.
  set (k := Z.max 0 (Z.log2 (a / b) + 1 - prec)).
  set (k' := Z.max 0 (Z.log2 (a' / b) + 1 - prec)).
  assert (Hk : 0 <= k) by lia. assert (Hk' : k <= k') by lia.
  assert (H2k : 0 < 2 ^ k) by (apply Z.pow_pos_nonneg; lia).
  assert (H2k' : 0 < 2 ^ k') by (apply Z.pow_pos_nonneg; lia).
  destruct (Z.eq_dec k k') as [Heq | Hne].
  - rewrite <- Heq. apply Z.mul_le_mono_nonneg_r; [lia |].
    apply roundHalfEven_mono; [nia | assumption].
  - assert (Hkk : k + 1 <= k') by lia.
    (* the larger one is at least 2^(prec-1+k') *)
    assert (Hk'eq : k' = Z.log2 (a' / b) + 1 - prec) by lia.
    assert (Hq'pos : 0 < a' / b).
    { destruct (Z.eq_dec (a' / b) 0) as [E | E]; [| lia].
      rewrite E in Hk'eq. cbn in Hk'eq. lia. }
    pose proof (Z.log2_spec (a' / b) Hq'pos) as [Hlo _].
    replace (Z.log2 (a' / b)) with (prec - 1 + k') in Hlo by lia.
    assert (Hpk' : 2 ^ (prec - 1 + k') = 2 ^ (prec - 1) * 2 ^ k')
      by (apply Z.pow_add_r; lia).
    assert (Ha' : 2 ^ (prec - 1) * (b * 2 ^ k') <= a').
    { pose proof (Z.mul_div_le a' b Hb). nia. }
    pose proof (roundHalfEven_mono _ _ (b * 2 ^ k') ltac:(nia) Ha') as Hbig.
    rewrite roundHalfEven_exact in Hbig by nia.
    (* the smaller one is at most 2^(prec+k) *)
    pose proof (pow2_log2_bounds (a / b) Hq0) as Hhi.
    assert (Hexp : Z.log2 (a / b) + 1 <= prec + k) by lia.
    pose proof (Z.pow_le_mono_r 2 _ _ ltac:(lia) Hexp) as Hpow.
    assert (Hpk : 2 ^ (prec + k) = 2 ^ prec * 2 ^ k) by (apply Z.pow_add_r; lia).
    assert (Hasm : a <= 2 ^ prec * (b * 2 ^ k)).
    { pose proof (Z.mod_pos_bound a b Hb). pose proof (Z.div_mod a b ltac:(lia)). nia. }
    pose proof (roundHalfEven_mono _ _ (b * 2 ^ k) ltac:(nia) Hasm) as Hsmall.
    rewrite roundHalfEven_exact in Hsmall by nia.
    assert (Hstep : 2 ^ prec * 2 ^ k <= 2 ^ (prec - 1) * 2 ^ k').
    { rewrite <- Hpk, <- Hpk'. apply Z.pow_le_mono_r; lia. }
    set (r := roundHalfEven a (b * 2 ^ k)) in *.
    set (r' := roundHalfEven a' (b * 2 ^ k')) in *.
    assert (0 < 2 ^ (prec - 1)) by (apply Z.pow_pos_nonneg; lia).
    nia.
Qed.

Lemma pow2_pos n : 0 < 2 ^ n \/ 2 ^ n = 0.
Proof.
  destruct (Z.le_gt_cases 0 n) as [H | H].
  - left. apply Z.pow_pos_nonneg; lia.
  - right. apply Z.pow_neg_r. lia.
Qed.

Lemma fsqrt_mono F x y :
  0 < fprec F -> 0 <= fscale F -> 0 <= x -> x <= y -> fsqrt F x <= fsqrt F y.
Proof.
  intros Hp Hs Hx Hxy. unfold fsqrt. cbv zeta.
  assert (H2 : 0 < 2 ^ fscale F) by (apply Z.pow_pos_nonneg; lia).
  set (m := 4 * (x * 2 ^ fscale F)). set (m' := 4 * (y * 2 ^ fscale F)).
  assert (Hm : 0 <= m) by (subst m; nia).
  assert (Hmm : m <= m') by (subst m m'; nia).
  pose proof (Z.sqrt_le_mono _ _ Hmm) as Ht.
  pose proof (Z.sqrt_spec m Hm) as Hsp. pose proof (Z.sqrt_spec m' ltac:(lia)) as Hsp'.
  pose proof (Z.sqrt_nonneg m) as Htn.
  apply roundFloat_mono; [assumption | lia | |].
  - destruct (Z.sqrt m * Z.sqrt m =? m); lia.
  - destruct (Z.eqb_spec (Z.sqrt m * Z.sqrt m) m) as [He | He];
      destruct (Z.eqb_spec (Z.sqrt m' * Z.sqrt m') m') as [He' | He']; try lia.
    destruct (Z.eq_dec (Z.sqrt m) (Z.sqrt m')) as [Heq | Hne]; [| lia].
    exfalso. rewrite <- Heq in He'. cbv zeta in Hsp. lia.
Qed.

Lemma fsqrt_one32 : fsqrt binary32 (widen binary32 one32) = ofInt binary32 1.
Proof. vm_compute. reflexivity. Qed.

Lemma fsqrt_one64 : fsqrt binary64 (widen binary64 one32) = ofInt binary64 1.
Proof. vm_compute. reflexivity. Qed.

(** The curve is antitone in the progress, in either format. *)
Lemma delayFor_antitone W a b :
  W = binary32 \/ W = binary64 ->
  0 <= a -> a <= b -> b <= one32 ->
  delayFor W b <= delayFor W a.
Proof.
  intros HW Ha Hab Hb.
  assert (Hp : 0 < fprec W) by (destruct HW; subst W; reflexivity).
  assert (Hs : 0 <= fscale W) by (destruct HW; subst W; discriminate).
  assert (Hw : 0 <= fscale W - fscale binary32) by (destruct HW; subst W; discriminate).
  assert (Hone : fsqrt W (widen W one32) = ofInt W 1)
    by (destruct HW; subst W; [apply fsqrt_one32 | apply fsqrt_one64]).
  assert (H2 : 0 < 2 ^ fscale W) by (apply Z.pow_pos_nonneg; lia).
  assert (H2w : 0 < 2 ^ (fscale W - fscale binary32)) by (apply Z.pow_pos_nonneg; lia).
  unfold delayFor. cbv zeta.
  set (ra := fsqrt W (widen W a)). set (rb := fsqrt W (widen W b)).
  assert (Hrab : ra <= rb) by (apply fsqrt_mono; unfold widen; try assumption; nia).
  assert (Hrb1 : rb <= ofInt W 1).
  { rewrite <- Hone. apply fsqrt_mono; unfold widen; try assumption; nia. }
  set (da := fsub W (ofInt W 1) ra). set (db := fsub W (ofInt W 1) rb).
  assert (Hdab : db <= da)
    by (apply roundFloat_mono; lia).
  assert (Hdb0 : 0 <= db) by (apply roundFloat_nonneg; lia).
  set (c := ofInt W (INITIAL_CAT_DELAY_MS - MIN_CAT_DELAY_MS)).
  assert (Hc : 0 <= c) by (subst c; unfold ofInt, INITIAL_CAT_DELAY_MS, MIN_CAT_DELAY_MS; nia).
  assert (Hm : fmul W c db <= fmul W c da)
    by (apply roundFloat_mono; try assumption; nia).
  assert (Hm0 : 0 <= fmul W c db) by (apply roundFloat_nonneg; try assumption; nia).
  assert (Hq : toInt W (fmul W c db) <= toInt W (fmul W c da)).
  { unfold toInt. apply Z.quot_le_mono; lia. }
  lia.
Qed.

(** The progress [(float)score / count]. *)
Lemma progressOf_zero n : 0 < n -> progressOf 0 n = 0.
Proof.
  intros Hn. unfold progressOf, fdiv, ofInt, roundFloat. cbv zeta.
  rewrite !Z.mul_0_l. rewrite Z.div_0_l by (cbn; lia). cbn [Z.log2].
  unfold roundHalfEven. rewrite Z.div_0_l, Zmod_0_l by (cbn; lia).
  cbn [fprec fscale binary32].
  change (Z.max 0 (0 + 1 - 24)) with 0. change (2 ^ 0) with 1.
  destruct (Z.ltb_spec (2 * 0) (n * 2 ^ 149 * 1)); [reflexivity |].
  assert (0 < 2 ^ 149) by reflexivity. nia.
Qed.

Lemma progressOf_full n : 0 < n -> progressOf n n = one32.
Proof.
  intros Hn. unfold progressOf, fdiv, one32, ofInt, roundFloat. cbv zeta.
  cbn [fprec fscale binary32].
  set (u := 2 ^ 149). assert (Hu : 0 < u) by reflexivity.
  replace (n * u * u / (n * u)) with u by (apply Z.div_unique_exact; nia).
  change (Z.max 0 (Z.log2 u + 1 - 24)) with 126.
  replace (n * u * u) with (2 ^ 23 * (n * u * 2 ^ 126)).
  2:{ change u with (2 ^ 23 * 2 ^ 126). ring. }
  rewrite roundHalfEven_exact.
  - reflexivity.
  - assert (0 < 2 ^ 126) by reflexivity. nia.
Qed.

Lemma progressOf_mono sc sc' n :
  0 < n -> 0 <= sc -> sc <= sc' -> progressOf sc n <= progressOf sc' n.
Proof.
  intros Hn Hs Hss. unfold progressOf, fdiv, ofInt.
  assert (Hu : 0 < 2 ^ fscale binary32) by reflexivity.
  apply roundFloat_mono; [reflexivity | nia | nia | nia].
Qed.

Lemma progressOf_range sc n :
  0 <= sc <= n -> 0 < n -> 0 <= progressOf sc n <= one32.
Proof.
  intros Hs Hn. split.
  - rewrite <- (progressOf_zero n Hn). apply progressOf_mono; lia.
  - rewrite <- (progressOf_full n Hn). apply progressOf_mono; lia.
Qed.

Lemma delayFor_zero32 : delayFor binary32 0 = INITIAL_CAT_DELAY_MS.
Proof. vm_compute. reflexivity. Qed.
Lemma delayFor_zero64 : delayFor binary64 0 = INITIAL_CAT_DELAY_MS.
Proof. vm_compute. reflexivity. Qed.
Lemma delayFor_one32 : delayFor binary32 one32 = MIN_CAT_DELAY_MS.
Proof. vm_compute. reflexivity. Qed.
Lemma delayFor_one64 : delayFor binary64 one32 = MIN_CAT_DELAY_MS.
Proof. vm_compute. reflexivity. Qed.

(** X7.  The delay curve.  Whether [sqrt] is evaluated in [float] or in
    [double], the delay for progress 0 is [INITIAL_CAT_DELAY_MS], the delay
    for progress 1 is [MIN_CAT_DELAY_MS], and the delay never grows with
    the progress: for progress values [a <= b] between 0 and 1, the delay
    for [b] is at most the delay for [a]. *)
Theorem delayFor_endpoints_antitone (W : Format) :
  W = binary32 \/ W = binary64 ->
  delayFor W 0 = INITIAL_CAT_DELAY_MS
  /\ delayFor W one32 = MIN_CAT_DELAY_MS
  /\ (forall a b, 0 <= a -> a <= b -> b <= one32 -> delayFor W b <= delayFor W a).
Proof.
  intros HW. split; [| split].
  - destruct HW; subst W; [apply delayFor_zero32 | apply delayFor_zero64].
  - destruct HW; subst W; [apply delayFor_one32 | apply delayFor_one64].
  - intros a b. apply delayFor_antitone. exact HW.
Qed.

Lemma delayFor_endpoints_antitone_witness :
  (binary64 = binary32 \/ binary64 = binary64)
  /\ delayFor binary64 0 = INITIAL_CAT_DELAY_MS
  /\ delayFor binary64 one32 = MIN_CAT_DELAY_MS
  /\ (forall a b, 0 <= a -> a <= b -> b <= one32 ->
      delayFor binary64 b <= delayFor binary64 a).
Proof.
  split; [right; reflexivity |].
  exact (delayFor_endpoints_antitone binary64 (or_intror eq_refl)).
Defined.

Lemma catDelayFor_zero n : 0 < n -> catDelayFor 0 n = INITIAL_CAT_DELAY_MS.
Proof.
  intros Hn. unfold catDelayFor. rewrite progressOf_zero by assumption.
  apply delayFor_zero64.
Qed.

Lemma catDelayFor_full n : 0 < n -> catDelayFor n n = MIN_CAT_DELAY_MS.
Proof.
  intros Hn. unfold catDelayFor. rewrite progressOf_full by assumption.
  apply delayFor_one64.
Qed.

Lemma catDelayFor_antitone n sc sc' :
  0 < n -> 0 <= sc -> sc <= sc' -> sc' <= n ->
  catDelayFor sc' n <= catDelayFor sc n.
Proof.
  intros Hn Hs Hss Hsn. unfold catDelayFor.
  apply delayFor_antitone; [right; reflexivity | | |].
  - apply (progressOf_range sc n); lia.
  - apply progressOf_mono; lia.
  - apply (progressOf_range sc' n); lia.
Qed.

Lemma catDelayFor_min sc n : MIN_CAT_DELAY_MS <= catDelayFor sc n.
Proof. unfold catDelayFor, delayFor. apply Z.le_max_l. Qed.

Lemma catDelayFor_range sc n :
  0 <= sc <= n -> 0 < n ->
  MIN_CAT_DELAY_MS <= catDelayFor sc n <= INITIAL_CAT_DELAY_MS.
Proof.
  intros Hs Hn. split; [apply catDelayFor_min |].
  rewrite <- (catDelayFor_zero n Hn). apply catDelayFor_antitone; lia.
Qed.

(** X8.  The delay the game computes from its counters: with any
    positive cheese count that [float] holds exactly (up to 2^24) it is
    [INITIAL_CAT_DELAY_MS] at score 0, [MIN_CAT_DELAY_MS] when the score
    equals the count, never outside these two, and it never grows with
    the score. *)
Theorem catDelayFor_by_score (n : Z) :
  0 < n <= 2 ^ 24 ->
  catDelayFor 0 n = INITIAL_CAT_DELAY_MS
  /\ catDelayFor n n = MIN_CAT_DELAY_MS
  /\ (forall sc sc', 0 <= sc -> sc <= sc' -> sc' <= n ->
      catDelayFor sc' n <= catDelayFor sc n)
  /\ (forall sc, 0 <= sc <= n ->
      MIN_CAT_DELAY_MS <= catDelayFor sc n <= INITIAL_CAT_DELAY_MS).
Proof.
  intros [Hn _]. split; [apply catDelayFor_zero; assumption |].
  split; [apply catDelayFor_full; assumption |].
  split; [intros sc sc'; apply catDelayFor_antitone; assumption |].
  intros sc Hsc. apply catDelayFor_range; assumption.
Qed.

Lemma catDelayFor_by_score_witness :
  0 < 12 <= 2 ^ 24
  /\ catDelayFor 0 12 = INITIAL_CAT_DELAY_MS
  /\ catDelayFor 12 12 = MIN_CAT_DELAY_MS
  /\ (forall sc sc', 0 <= sc -> sc <= sc' -> sc' <= 12 ->
      catDelayFor sc' 12 <= catDelayFor sc 12)
  /\ (forall sc, 0 <= sc <= 12 ->
      MIN_CAT_DELAY_MS <= catDelayFor sc 12 <= INITIAL_CAT_DELAY_MS).
Proof.
  split; [lia |]. apply (catDelayFor_by_score 12). lia.
Defined.

(** The two evaluations of [sqrt] give the game the same delays. *)
Lemma delayFor_formats_agree :
  forallb (fun n => forallb (fun sc =>
             delayFor binary32 (progressOf sc n) =? delayFor binary64 (progressOf sc n))
             (seqZ 0 (n + 1))) (seqZ 1 12) = true.
Proof. vm_compute. reflexivity. Qed.

(** The model against known values of IEEE 754: [1.0f / 3.0f] is
    [0x3EAAAAAB], [sqrtf(2.0f)] is [0x3FB504F3] and [sqrt(2.0)] is
    [0x3FF6A09E667F3BCD]. *)
Lemma float_model_samples :
  fdiv binary32 (ofInt binary32 1) (ofInt binary32 3) = 11184811 * 2 ^ 124
  /\ fsqrt binary32 (ofInt binary32 2) = 11863283 * 2 ^ 126
  /\ fsqrt binary64 (ofInt binary64 2) = 6369051672525773 * 2 ^ 1022.
Proof. vm_compute. repeat split. Qed.

Lemma edge_intro g u w d :
  d ∈ directions -> w = wrapTunnel (fst u + fst d, snd u + snd d) ->
  isPath g w = true -> edge g u w.
Proof. intros. exists d. tauto. Qed.

Lemma sampleChase_walk : walk (maze sampleChase) 2 (catPos sampleChase) (playerPos sampleChase).
Proof.
  replace (maze sampleChase) with layout1 by (vm_compute; reflexivity).
  replace (catPos sampleChase) with ((11, 10) : Pos) by (vm_compute; reflexivity).
  replace (playerPos sampleChase) with ((12, 9) : Pos) by (vm_compute; reflexivity).
  apply walk_more with (11, 9).
  - apply walk_more with (11, 10); [constructor |].
    apply (edge_intro _ _ _ (0, -1));
      [apply list_elem_of_In; cbn; tauto | reflexivity | reflexivity].
  - apply (edge_intro _ _ _ (1, 0));
      [apply list_elem_of_In; cbn; tauto | reflexivity | reflexivity].
Qed.

Lemma moveCat_follows_shortest_path_witness :
  inGrid (catPos sampleChase) = true
  /\ walk (maze sampleChase) 2 (catPos sampleChase) (playerPos sampleChase)
  /\ exists d,
    distance (maze sampleChase) (catPos sampleChase) (playerPos sampleChase) d
    /\ ((0 < d)%nat ->
        edge (maze sampleChase) (catPos sampleChase) (catPos (moveCat sampleChase))
        /\ distance (maze sampleChase) (catPos (moveCat sampleChase))
             (playerPos sampleChase) (d - 1))
    /\ (forall k, (k <= d)%nat ->
          distance (maze sampleChase) (catPos (Nat.iter k moveCat sampleChase))
            (playerPos sampleChase) (d - k))
    /\ catPos (Nat.iter d moveCat sampleChase) = playerPos sampleChase
    /\ ((0 < d)%nat -> currentGameState sampleChase = PLAYING ->
        currentGameState (Nat.iter d moveCat sampleChase) = GAME_OVER).
Proof.
  assert (H1 : inGrid (catPos sampleChase) = true) by (vm_compute; reflexivity).
  split; [exact H1 |]. split; [exact sampleChase_walk |].
  exact (moveCat_follows_shortest_path sampleChase 2 H1 sampleChase_walk).
Defined.

(** A search that reports the player has walked to it. *)
Lemma bfs_found_walk g cat player t :
  inGrid cat = true ->
  sfound (bfs g cat player) = Some t ->
  t = player /\ exists n, walk g n cat player.
Proof.
  intros Hs Hf. destruct (bfs_inv g cat player Hs) as (q & [D I] & Hok & _).
  destruct (Hok t Hf) as [-> HtV]. split; [reflexivity |].
  exists (D player). eapply bfsInv_walk; [eassumption | assumption | reflexivity].
Qed.

(** X2.  When no walk over path tiles (with the tunnel) leads from the
    cat to the player, [moveCat] changes nothing: the cat holds its
    position and the game goes on. *)
Theorem moveCat_unreachable_holds (s : Game) :
  inGrid (catPos s) = true ->
  (forall n, ~ walk (maze s) n (catPos s) (playerPos s)) ->
  moveCat s = s.
Proof.
  intros Hin Hno. unfold moveCat, nextStep.
  destruct (sfound (bfs (maze s) (catPos s) (playerPos s))) as [t |] eqn:Hf; [| reflexivity].
  destruct (bfs_found_walk _ _ _ _ Hin Hf) as (_ & n & W).
  exfalso. exact (Hno n W).
Qed.

Lemma walk_end g n u w : walk g n u w -> u = w \/ isPath g w = true.
Proof.
  intros W. destruct W as [u | n u v w _ He]; [left; reflexivity |].
  right. eapply edge_isPath. eassumption.
Qed.

Lemma moveCat_unreachable_holds_witness :
  inGrid (catPos sampleBlocked) = true
  /\ (forall n, ~ walk (maze sampleBlocked) n (catPos sampleBlocked) (playerPos sampleBlocked))
  /\ moveCat sampleBlocked = sampleBlocked.
Proof.
  assert (H1 : inGrid (catPos sampleBlocked) = true) by (vm_compute; reflexivity).
  assert (H2 : forall n, ~ walk (maze sampleBlocked) n (catPos sampleBlocked)
                           (playerPos sampleBlocked)).
  { intros n W. apply walk_end in W. destruct W as [W | W].
    - vm_compute in W. discriminate.
    - vm_compute in W. discriminate. }
  split; [exact H1 |]. split; [exact H2 |].
  exact (moveCat_unreachable_holds sampleBlocked H1 H2).
Defined.

(** One [moveCat] leaves the cat where it is or moves it along one edge. *)
Lemma moveCat_step_edge (s : Game) :
  inGrid (catPos s) = true ->
  catPos (moveCat s) = catPos s
  \/ edge (maze s) (catPos s) (catPos (moveCat s)).
Proof.
  intros Hin.
  destruct (moveCat_cases s) as (c & Hc & Hres). cbv zeta in Hres.
  assert (Hpos : catPos (moveCat s) = c).
  { destruct Hres as [-> | (_ & _ & ->)]; destruct c; reflexivity. }
  rewrite Hpos. destruct Hc as [-> | (t & Hn & _ & Hne)]; [left; reflexivity |].
  right. apply (nextStep_isPath _ _ _ _ Hin Hn Hne).
Qed.

(** X3.  Whatever the position of the player, one [moveCat] leaves the cat
    where it is or moves it along one edge: onto a path tile next to it
    under the tunnel rule.  The maze and the player are not touched. *)
Theorem moveCat_moves_one_edge (s : Game) :
  inGrid (catPos s) = true ->
  (catPos (moveCat s) = catPos s
   \/ edge (maze s) (catPos s) (catPos (moveCat s)))
  /\ maze (moveCat s) = maze s
  /\ playerPos (moveCat s) = playerPos s.
Proof.
  intros Hin. pose proof (moveCat_frame s) as F. cbv zeta in F.
  destruct F as (Hm & Hp & _). split; [| tauto].
  apply moveCat_step_edge. exact Hin.
Qed.

Lemma moveCat_moves_one_edge_witness :
  inGrid (catPos samplePlaying) = true
  /\ (catPos (moveCat samplePlaying) = catPos samplePlaying
      \/ edge (maze samplePlaying) (catPos samplePlaying) (catPos (moveCat samplePlaying)))
  /\ maze (moveCat samplePlaying) = maze samplePlaying
  /\ playerPos (moveCat samplePlaying) = playerPos samplePlaying.
Proof.
  assert (H1 : inGrid (catPos samplePlaying) = true) by (vm_compute; reflexivity).
  split; [exact H1 |]. exact (moveCat_moves_one_edge samplePlaying H1).
Defined.

(** ** The tunnel *)

(** The cat next to the player moves onto its tile. *)
Lemma moveCat_adjacent s :
  inGrid (catPos s) = true ->
  catPos s <> playerPos s ->
  edge (maze s) (catPos s) (playerPos s) ->
  catPos (moveCat s) = playerPos s.
Proof.
  intros Hin Hne He.
  assert (Hd : distance (maze s) (catPos s) (playerPos s) 1).
  { split.
    - apply walk_more with (catPos s); [constructor | exact He].
    - intros m W. destruct m; [| lia]. apply walk_zero in W. contradiction. }
  destruct (nextStep_shortest _ _ _ _ Hin Hd) as (c & Hn & _ & Hc).
  apply distance_zero in Hc. subst c.
  destruct (moveCat_to s _ Hn (isPath_fst _ _ (edge_isPath _ _ _ He))) as (Hc & _).
  exact Hc.
Qed.

(** A step of the cat is a step to one of the four neighbours in the
    grid, or a passage through the tunnel. *)
Lemma moveCat_step_shape s :
  inGrid (catPos s) = true ->
  catPos (moveCat s) = catPos s
  \/ (isPath (maze s) (catPos (moveCat s)) = true
      /\ ((exists d, d ∈ directions
                     /\ catPos (moveCat s) = (catX s + fst d, catY s + snd d))
          \/ (catPos s = (0, TUNNEL_ROW_INDEX)
              /\ catPos (moveCat s) = (COLS - 1, TUNNEL_ROW_INDEX))
          \/ (catPos s = (COLS - 1, TUNNEL_ROW_INDEX)
              /\ catPos (moveCat s) = (0, TUNNEL_ROW_INDEX)))).
Proof.
  intros Hin. destruct (moveCat_step_edge s Hin) as [H | (d & Hd & Hw & Hp)];
    [left; exact H | right].
  split; [exact Hp |]. rewrite Hw.
  assert (Hd' : d = (0, -1) \/ d = (0, 1) \/ d = (-1, 0) \/ d = (1, 0)).
  { apply list_elem_of_In in Hd. cbn in Hd. intuition (subst; auto). }
  unfold catPos in *. cbn [fst snd] in *.
  unfold inGrid in Hin.
  repeat (apply andb_prop in Hin; destruct Hin as [Hin ?]).
  unfold wrapTunnel.
  destruct (Z.eqb_spec (catY s + snd d) TUNNEL_ROW_INDEX) as [Hy | Hy];
    [| left; exists d; split; [exact Hd | reflexivity]].
  destruct (Z.ltb_spec (catX s + fst d) 0) as [Hx | Hx].
  { right. left. unfold COLS, TUNNEL_ROW_INDEX in *.
    destruct Hd' as [-> | [-> | [-> | ->]]]; cbn [fst snd] in *;
      try lia. split; f_equal; lia. }
  destruct (catX s + fst d >=? COLS) eqn:Hge.
  { right. right. unfold COLS, TUNNEL_ROW_INDEX in *.
    destruct Hd' as [-> | [-> | [-> | ->]]]; cbn [fst snd] in *;
      try lia. split; f_equal; lia. }
  left. exists d. split; [exact Hd | reflexivity].
Qed.

(** C6.  The tunnel rule: on row 11 the candidate left of column 0 is
    column [COLS - 1] of that row and the candidate right of column
    [COLS - 1] is column 0; on any other row a candidate is left as it
    is, and one outside the grid is rejected.  The player move and the
    neighbour generation of the cat both follow it: a pass of the loop
    over the neighbours enqueues the tile at the other mouth; [moveCat]
    takes the cat from one mouth of the tunnel to the player at the other
    in one step; and whatever the state, a step of [moveCat] goes to one
    of the four neighbouring tiles inside the grid or from one mouth of
    the tunnel to the other, so that a cat off row 11 never wraps. *)
Theorem tunnel_wrap_only_on_tunnel_row :
  wrapTunnel (0 - 1, TUNNEL_ROW_INDEX) = (COLS - 1, TUNNEL_ROW_INDEX)
  /\ wrapTunnel (COLS - 1 + 1, TUNNEL_ROW_INDEX) = (0, TUNNEL_ROW_INDEX)
  /\ (forall x y, y <> TUNNEL_ROW_INDEX -> wrapTunnel (x, y) = (x, y))
  /\ (forall s,
        playerPos s = (0, TUNNEL_ROW_INDEX) ->
        isPath (maze s) (COLS - 1, TUNNEL_ROW_INDEX) = true ->
        playerPos (processPlayerMove (playerX s - 1) (playerY s) s)
        = (COLS - 1, TUNNEL_ROW_INDEX))
  /\ (forall s,
        playerPos s = (COLS - 1, TUNNEL_ROW_INDEX) ->
        isPath (maze s) (0, TUNNEL_ROW_INDEX) = true ->
        playerPos (processPlayerMove (playerX s + 1) (playerY s) s)
        = (0, TUNNEL_ROW_INDEX))
  /\ (forall s x y,
        y <> TUNNEL_ROW_INDEX -> inGrid (x, y) = false ->
        processPlayerMove x y s = s)
  /\ (forall g player st,
        sfound st = None ->
        isPath g (COLS - 1, TUNNEL_ROW_INDEX) = true ->
        (COLS - 1, TUNNEL_ROW_INDEX) ∉ svisited st ->
        sq (visitNeighbour g player (0, TUNNEL_ROW_INDEX) st (-1, 0))
        = sq st ++ [(COLS - 1, TUNNEL_ROW_INDEX)])
  /\ (forall g player st,
        sfound st = None ->
        isPath g (0, TUNNEL_ROW_INDEX) = true ->
        (0, TUNNEL_ROW_INDEX) ∉ svisited st ->
        sq (visitNeighbour g player (COLS - 1, TUNNEL_ROW_INDEX) st (1, 0))
        = sq st ++ [(0, TUNNEL_ROW_INDEX)])
  /\ (forall g player cur st d,
        snd cur + snd d <> TUNNEL_ROW_INDEX ->
        inGrid (fst cur + fst d, snd cur + snd d) = false ->
        visitNeighbour g player cur st d = st)
  /\ (forall s,
        catPos s = (0, TUNNEL_ROW_INDEX) ->
        playerPos s = (COLS - 1, TUNNEL_ROW_INDEX) ->
        isPath (maze s) (COLS - 1, TUNNEL_ROW_INDEX) = true ->
        catPos (moveCat s) = (COLS - 1, TUNNEL_ROW_INDEX))
  /\ (forall s,
        catPos s = (COLS - 1, TUNNEL_ROW_INDEX) ->
        playerPos s = (0, TUNNEL_ROW_INDEX) ->
        isPath (maze s) (0, TUNNEL_ROW_INDEX) = true ->
        catPos (moveCat s) = (0, TUNNEL_ROW_INDEX))
  /\ (forall s,
        inGrid (catPos s) = true ->
        catPos (moveCat s) = catPos s
        \/ (isPath (maze s) (catPos (moveCat s)) = true
            /\ ((exists d, d ∈ directions
                           /\ catPos (moveCat s) = (catX s + fst d, catY s + snd d))
                \/ (catPos s = (0, TUNNEL_ROW_INDEX)
                    /\ catPos (moveCat s) = (COLS - 1, TUNNEL_ROW_INDEX))
                \/ (catPos s = (COLS - 1, TUNNEL_ROW_INDEX)
                    /\ catPos (moveCat s) = (0, TUNNEL_ROW_INDEX)))))
  /\ (forall s,
        inGrid (catPos s) = true -> catY s <> TUNNEL_ROW_INDEX ->
        catPos (moveCat s) = catPos s
        \/ (inGrid (catPos (moveCat s)) = true
            /\ exists d, d ∈ directions
                         /\ catPos (moveCat s) = (catX s + fst d, catY s + snd d))).
Proof.
  split; [reflexivity |]. split; [reflexivity |].
  split; [exact wrapTunnel_other_row |].
  split.
  { intros s Hp Hpath. injection Hp as Hx Hy. rewrite Hx, Hy.
    apply (processPlayerMove_valid (0 - 1) TUNNEL_ROW_INDEX s). exact Hpath. }
  split.
  { intros s Hp Hpath. injection Hp as Hx Hy. rewrite Hx, Hy.
    apply (processPlayerMove_valid (COLS - 1 + 1) TUNNEL_ROW_INDEX s). exact Hpath. }
  split.
  { intros s x y Hy Hout. apply processPlayerMove_invalid.
    rewrite wrapTunnel_other_row by assumption.
    unfold isPath. rewrite Hout. reflexivity. }
  split.
  { intros g player st Hf Hpath Hv. unfold visitNeighbour. rewrite Hf.
    change (wrapTunnel (fst (0, TUNNEL_ROW_INDEX) + fst (-1, 0),
                        snd (0, TUNNEL_ROW_INDEX) + snd (-1, 0)))
      with (COLS - 1, TUNNEL_ROW_INDEX).
    rewrite Hpath, bool_decide_eq_false_2 by assumption. reflexivity. }
  split.
  { intros g player st Hf Hpath Hv. unfold visitNeighbour. rewrite Hf.
    change (wrapTunnel (fst (COLS - 1, TUNNEL_ROW_INDEX) + fst (1, 0),
                        snd (COLS - 1, TUNNEL_ROW_INDEX) + snd (1, 0)))
      with (0, TUNNEL_ROW_INDEX).
    rewrite Hpath, bool_decide_eq_false_2 by assumption. reflexivity. }
  split.
  { intros g player cur st d Hy Hout. unfold visitNeighbour.
    destruct (sfound st); [reflexivity |].
    rewrite wrapTunnel_other_row by assumption.
    unfold isPath. rewrite Hout. reflexivity. }
  split.
  { intros s Hc Hp Hpath. rewrite <- Hp. apply moveCat_adjacent.
    - rewrite Hc. reflexivity.
    - rewrite Hc, Hp. discriminate.
    - apply edge_intro with (-1, 0); [apply list_elem_of_In; cbn; tauto | |].
      + rewrite Hc, Hp. reflexivity.
      + rewrite Hp. exact Hpath. }
  split.
  { intros s Hc Hp Hpath. rewrite <- Hp. apply moveCat_adjacent.
    - rewrite Hc. reflexivity.
    - rewrite Hc, Hp. discriminate.
    - apply edge_intro with (1, 0); [apply list_elem_of_In; cbn; tauto | |].
      + rewrite Hc, Hp. reflexivity.
      + rewrite Hp. exact Hpath. }
  split; [exact moveCat_step_shape |].
  intros s Hin Hy.
  destruct (moveCat_step_shape s Hin) as [H | (Hp & [H | [(Hc & _) | (Hc & _)]])].
  - left. exact H.
  - right. split; [exact (isPath_inGrid _ _ Hp) | exact H].
  - exfalso. apply Hy. unfold catPos in Hc. injection Hc as _ Hc. exact Hc.
  - exfalso. apply Hy. unfold catPos in Hc. injection Hc as _ Hc. exact Hc.
Qed.

Lemma tunnel_wrap_only_on_tunnel_row_witness :
  catPos sampleTunnel = (0, TUNNEL_ROW_INDEX)
  /\ playerPos sampleTunnel = (COLS - 1, TUNNEL_ROW_INDEX)
  /\ isPath (maze sampleTunnel) (COLS - 1, TUNNEL_ROW_INDEX) = true
  /\ catPos (moveCat sampleTunnel) = (COLS - 1, TUNNEL_ROW_INDEX).
Proof.
  assert (H1 : catPos sampleTunnel = (0, TUNNEL_ROW_INDEX)) by (vm_compute; reflexivity).
  assert (H2 : playerPos sampleTunnel = (COLS - 1, TUNNEL_ROW_INDEX))
    by (vm_compute; reflexivity).
  assert (H3 : isPath (maze sampleTunnel) (COLS - 1, TUNNEL_ROW_INDEX) = true)
    by (vm_compute; reflexivity).
  split; [exact H1 |]. split; [exact H2 |]. split; [exact H3 |].
  destruct tunnel_wrap_only_on_tunnel_row as (_ & _ & _ & _ & _ & _ & _ & _ & _ & H & _).
  exact (H sampleTunnel H1 H2 H3).
Defined.

Lemma cheeseAt_false rx ry cheese :
  cheeseAt rx ry cheese = false <-> (rx, ry) ∉ cheese.
Proof.
  unfold cheeseAt. induction cheese as [| [x y] l IH]; simpl.
  - split; [intros _; apply not_elem_of_nil | reflexivity].
  - rewrite orb_false_iff, IH, not_elem_of_cons. 
    split; intros [H1 H2]; split; try assumption.
    + intros [= -> ->]. rewrite !Z.eqb_refl in H1. discriminate.
    + apply andb_false_iff. destruct (Z.eqb_spec x rx); [| tauto].
      destruct (Z.eqb_spec y ry); [| tauto]. subst. contradiction.
Qed.

Lemma powerupAt_false rx ry powerups :
  powerupAt rx ry powerups = false <-> (rx, ry) ∉ map powerupPos powerups.
Proof.
  unfold powerupAt. induction powerups as [| [x y t] l IH]; simpl.
  - split; [intros _; apply not_elem_of_nil | reflexivity].
  - rewrite orb_false_iff, IH, not_elem_of_cons. unfold powerupPos at 1. simpl.
    split; intros [H1 H2]; split; try assumption.
    + intros [= -> ->]. rewrite !Z.eqb_refl in H1. discriminate.
    + apply andb_false_iff. destruct (Z.eqb_spec x rx); [| tauto].
      destruct (Z.eqb_spec y ry); [| tauto]. subst. contradiction.
Qed.

Lemma rand_cell draws n m :
  0 < m -> 0 <= Z.rem (rand draws n) m < m.
Proof.
  intros Hm. unfold rand. rewrite Z.rem_mod_nonneg by lia.
  apply Z.mod_pos_bound. lia.
Qed.

Lemma freeTile_good draws g n m :
  let rx := Z.rem (rand draws n) COLS in
  let ry := Z.rem (rand draws m) ROWS in
  freeTile g rx ry = true -> goodTile g (rx, ry).
Proof.
  intros rx ry H. unfold freeTile in H. apply andb_prop in H. destruct H as [Ht Hs].
  pose proof (rand_cell draws n COLS ltac:(reflexivity)) as Hx.
  pose proof (rand_cell draws m ROWS ltac:(reflexivity)) as Hy.
  fold rx in Hx. fold ry in Hy.
  unfold goodTile, isPath, inGrid. cbn [fst snd].
  split.
  { rewrite Ht. repeat (apply andb_true_intro; split); lia. }
  apply negb_true_iff in Hs. unfold isStartTile in Hs.
  apply orb_false_iff in Hs. destruct Hs as [H1 H2].
  unfold playerStart, catStart. split; intros [= Hx' Hy']; rewrite Hx', Hy' in *.
  - rewrite !Z.eqb_refl in H1. discriminate.
  - rewrite !Z.eqb_refl in H2. discriminate.
Qed.

Lemma placeCheese_S draws left g n placed cheese :
  placeCheese draws (S left) g n placed cheese
  = if placed <? NUM_CHEESE_TO_PLACE then
      let rx := Z.rem (rand draws n) COLS in
      let ry := Z.rem (rand draws (S n)) ROWS in
      if freeTile g rx ry && negb (cheeseAt rx ry cheese) then
        placeCheese draws left g (S (S n)) (placed + 1) (cheese ++ [(rx, ry)])
      else placeCheese draws left g (S (S n)) placed cheese
    else (cheese, placed, n).
Proof. reflexivity. Qed.

Lemma placePowerups_S draws left g cheese n placed powerups :
  placePowerups draws (S left) g cheese n placed powerups
  = if placed <? NUM_POWERUPS_PER_LEVEL then
      let rx := Z.rem (rand draws n) COLS in
      let ry := Z.rem (rand draws (S n)) ROWS in
      if freeTile g rx ry && negb (cheeseAt rx ry cheese)
         && negb (powerupAt rx ry powerups) then
        placePowerups draws left g cheese (S (S n)) (placed + 1)
          (powerups ++ [mkPowerup rx ry TILE_SLOW_POWERUP])
      else placePowerups draws left g cheese (S (S n)) placed powerups
    else (powerups, placed, n).
Proof. reflexivity. Qed.

Lemma placeCheese_inv draws g left : forall n placed cheese,
  cheeseInv g placed cheese ->
  let r := placeCheese draws left g n placed cheese in
  cheeseInv g (snd (fst r)) (fst (fst r)).
Proof.
  induction left as [| left IH]; intros n placed cheese Hinv; cbv zeta.
  - exact Hinv.
  - rewrite placeCheese_S. cbv zeta.
    destruct (Z.ltb_spec placed NUM_CHEESE_TO_PLACE) as [Hlt | Hge]; [| exact Hinv].
    destruct (freeTile g _ _ && negb (cheeseAt _ _ cheese)) eqn:E.
    + apply IH. apply andb_prop in E. destruct E as [Hfree Hnew].
      apply negb_true_iff, cheeseAt_false in Hnew.
      apply (freeTile_good draws g n (S n)) in Hfree.
      destruct Hinv as (Hnd & Hall & Hlen & Hle).
      split; [| split; [| split]].
      * apply NoDup_app. split; [assumption |]. split.
        -- intros x Hx Hx'. apply list_elem_of_singleton in Hx'. subst. contradiction.
        -- apply NoDup_singleton.
      * apply Forall_app. split; [assumption |]. constructor; [assumption | constructor].
      * rewrite length_app. simpl. lia.
      * lia.
    + apply IH. exact Hinv.
Qed.

Lemma placePowerups_inv draws g cheese left : forall n placed powerups,
  powerupInv g cheese placed powerups ->
  let r := placePowerups draws left g cheese n placed powerups in
  powerupInv g cheese (snd (fst r)) (fst (fst r)).
Proof.
  induction left as [| left IH]; intros n placed powerups Hinv; cbv zeta.
  - exact Hinv.
  - rewrite placePowerups_S. cbv zeta.
    destruct (Z.ltb_spec placed NUM_POWERUPS_PER_LEVEL) as [Hlt | Hge]; [| exact Hinv].
    destruct (freeTile g _ _ && negb (cheeseAt _ _ cheese)
              && negb (powerupAt _ _ powerups)) eqn:E.
    + apply IH. apply andb_prop in E. destruct E as [E Hnew2].
      apply andb_prop in E. destruct E as [Hfree Hnew].
      apply negb_true_iff, cheeseAt_false in Hnew.
      apply negb_true_iff, powerupAt_false in Hnew2.
      apply (freeTile_good draws g n (S n)) in Hfree.
      destruct Hinv as (Hnd & Hall & Hty & Hlen & Hle).
      split; [| split; [| split; [| split]]].
      * rewrite map_app, app_assoc. apply NoDup_app. split; [assumption |]. split.
        -- intros x Hx Hx'. apply list_elem_of_singleton in Hx'. subst.
           apply elem_of_app in Hx. tauto.
        -- apply NoDup_singleton.
      * rewrite map_app. apply Forall_app. split; [assumption |].
        constructor; [assumption | constructor].
      * apply Forall_app. split; [assumption |]. constructor; [reflexivity | constructor].
      * rewrite length_app. simpl. lia.
      * lia.
    + apply IH. exact Hinv.
Qed.

Lemma placeCheese_draws draws g left : forall n placed cheese,
  let r := placeCheese draws left g n placed cheese in
  (n <= snd r <= n + 2 * left)%nat
  /\ (snd (fst r) < NUM_CHEESE_TO_PLACE -> snd r = (n + 2 * left)%nat).
Proof.
  induction left as [| left IH]; intros n placed cheese; cbv zeta.
  - change (placeCheese draws 0 g n placed cheese) with (cheese, placed, n).
    cbn [fst snd]. split; [lia | intros _; lia].
  - rewrite placeCheese_S. cbv zeta.
    destruct (Z.ltb_spec placed NUM_CHEESE_TO_PLACE) as [Hlt | Hge].
    + destruct (freeTile g _ _ && negb (cheeseAt _ _ cheese)).
      * specialize (IH (S (S n)) (placed + 1) (cheese ++ [(Z.rem (rand draws n) COLS, Z.rem (rand draws (S n)) ROWS)])).
        cbv zeta in IH. destruct IH as [IH1 IH2]. split; [lia |].
        intros H. rewrite (IH2 H). lia.
      * specialize (IH (S (S n)) placed cheese).
        cbv zeta in IH. destruct IH as [IH1 IH2]. split; [lia |].
        intros H. rewrite (IH2 H). lia.
    + cbn [fst snd]. split; [lia |]. intros H. lia.
Qed.

Lemma placePowerups_draws draws g cheese left : forall n placed powerups,
  let r := placePowerups draws left g cheese n placed powerups in
  (n <= snd r <= n + 2 * left)%nat
  /\ (snd (fst r) < NUM_POWERUPS_PER_LEVEL -> snd r = (n + 2 * left)%nat).
Proof.
  induction left as [| left IH]; intros n placed powerups; cbv zeta.
  - change (placePowerups draws 0 g cheese n placed powerups) with (powerups, placed, n).
    cbn [fst snd]. split; [lia | intros _; lia].
  - rewrite placePowerups_S. cbv zeta.
    destruct (Z.ltb_spec placed NUM_POWERUPS_PER_LEVEL) as [Hlt | Hge].
    + destruct (freeTile g _ _ && negb (cheeseAt _ _ cheese) && negb (powerupAt _ _ powerups)).
      * specialize (IH (S (S n)) (placed + 1) (powerups ++ [mkPowerup (Z.rem (rand draws n) COLS) (Z.rem (rand draws (S n)) ROWS) TILE_SLOW_POWERUP])).
        cbv zeta in IH. destruct IH as [IH1 IH2]. split; [lia |].
        intros H. rewrite (IH2 H). lia.
      * specialize (IH (S (S n)) placed powerups).
        cbv zeta in IH. destruct IH as [IH1 IH2]. split; [lia |].
        intros H. rewrite (IH2 H). lia.
    + cbn [fst snd]. split; [lia |]. intros H. lia.
Qed.

Lemma cheeseInv_nil g : cheeseInv g 0 [].
Proof.
  split; [constructor |]. split; [constructor |]. split; [reflexivity |].
  unfold NUM_CHEESE_TO_PLACE. lia.
Qed.

(** X5.  Whatever the grid and the draws, [initLevelData] puts no two
    items (cheese or power-up) on one tile, puts every item on a path tile
    of the grid that is neither start tile, places at most 12 cheese and
    one power-up (of the slow kind), records the number of cheese it
    placed, and leaves the level ready: score 0, the initial delay, no
    slow effect, player and cat on their start tiles. *)
Theorem initLevelData_places_distinct_free_items (draws : nat -> nat) (s : Game) :
  let s' := initLevelData draws s in
  let items := cheeseLocations s' ++ map powerupPos (powerupLocations s') in
  NoDup items
  /\ Forall (goodTile (maze s)) items
  /\ Z.of_nat (length (cheeseLocations s')) <= NUM_CHEESE_TO_PLACE
  /\ Z.of_nat (length (powerupLocations s')) <= NUM_POWERUPS_PER_LEVEL
  /\ Forall (fun p => ptype p = TILE_SLOW_POWERUP) (powerupLocations s')
  /\ initialCheeseCount s' = Z.of_nat (length (cheeseLocations s'))
  /\ score s' = 0
  /\ currentCatDelay s' = INITIAL_CAT_DELAY_MS
  /\ isCatSlowed s' = false
  /\ playerPos s' = playerStart /\ catPos s' = catStart
  /\ maze s' = maze s /\ currentGameState s' = currentGameState s.
Proof.
  cbv zeta. rewrite initLevelData_eq. cbv zeta.
  cbn [cheeseLocations powerupLocations initialCheeseCount score currentCatDelay
       isCatSlowed playerPos catPos playerX playerY catX catY maze currentGameState].
  pose proof (placeCheese_inv draws (maze s) maxAttempts (randCount s) 0 []
                (cheeseInv_nil _)) as Hc.
  cbv zeta in Hc.
  set (pc := placeCheese draws maxAttempts (maze s) (randCount s) 0 []) in *.
  destruct Hc as (Hnd & Hall & Hlen & Hle).
  assert (Hp0 : powerupInv (maze s) (fst (fst pc)) 0 []).
  { split; [cbn [map]; rewrite app_nil_r; exact Hnd |].
    split; [constructor |]. split; [constructor |]. split; [reflexivity |].
    unfold NUM_POWERUPS_PER_LEVEL. lia. }
  pose proof (placePowerups_inv draws (maze s) (fst (fst pc)) maxAttempts (snd pc) 0 [] Hp0) as Hp.
  cbv zeta in Hp.
  set (pp := placePowerups draws maxAttempts (maze s) (fst (fst pc)) (snd pc) 0 []) in *.
  destruct Hp as (Hnd' & Hall' & Hty & Hlen' & Hle').
  split; [exact Hnd' |].
  split; [apply Forall_app; split; assumption |].
  split; [lia |]. split; [lia |]. split; [exact Hty |].
  repeat split.
Qed.

(** X6.  The two placement loops of [initLevelData] use two draws for each
    attempt and at most [ROWS * COLS * 10] attempts each; a level with
    fewer than 12 cheese is produced only after all the attempts of the
    cheese loop were used. *)
Theorem initLevelData_budget (draws : nat -> nat) (s : Game) :
  let s' := initLevelData draws s in
  (randCount s <= randCount s' <= randCount s + 4 * maxAttempts)%nat
  /\ (initialCheeseCount s' < NUM_CHEESE_TO_PLACE ->
      (randCount s + 2 * maxAttempts <= randCount s')%nat).
Proof.
  cbv zeta. rewrite initLevelData_eq. cbv zeta. cbn [randCount initialCheeseCount].
  pose proof (placeCheese_inv draws (maze s) maxAttempts (randCount s) 0 []
                (cheeseInv_nil _)) as Hc.
  pose proof (placeCheese_draws draws (maze s) maxAttempts (randCount s) 0 []) as Hd.
  cbv zeta in Hc, Hd.
  set (pc := placeCheese draws maxAttempts (maze s) (randCount s) 0 []) in *.
  pose proof (placePowerups_draws draws (maze s) (fst (fst pc)) maxAttempts (snd pc) 0 []) as Hd'.
  cbv zeta in Hd'.
  set (pp := placePowerups draws maxAttempts (maze s) (fst (fst pc)) (snd pc) 0 []) in *.
  destruct Hc as (_ & _ & Hlen & _). destruct Hd as [Hd1 Hd2]. destruct Hd' as [Hd1' _].
  split; [lia |]. intros Hlt. rewrite <- Hlen in Hlt. specialize (Hd2 Hlt). lia.
Qed.

(** Draws that never hit a free tile leave the level empty. *)
Lemma initLevelData_zeroDraws :
  cheeseLocations (initLevelData zeroDraws sampleStart) = []
  /\ powerupLocations (initLevelData zeroDraws sampleStart) = []
  /\ initialCheeseCount (initLevelData zeroDraws sampleStart) = 0.
Proof. vm_compute. repeat split. Qed.

(** ** Pending ticks *)

Lemma countLive_app r ts1 ts2 :
  countLive r (ts1 ++ ts2) = (countLive r ts1 + countLive r ts2)%nat.
Proof. induction ts1 as [| t ts1 IH]; cbn [countLive app]; [reflexivity | rewrite IH; lia]. Qed.

Lemma countLive_stale r ts :
  Forall (fun t => isCatTick t = true -> tvalue t < r) ts -> countLive r ts = O.
Proof.
  induction 1 as [| t ts Ht _ IH]; cbn [countLive]; [reflexivity |].
  rewrite IH. destruct (isCatTick t) eqn:E; cbn [andb]; [| reflexivity].
  specialize (Ht eq_refl). destruct (Z.eqb_spec (tvalue t) r); [lia | reflexivity].
Qed.

Lemma ticksUpTo_next r ts :
  ticksUpTo r ts -> Forall (fun t => isCatTick t = true -> tvalue t < r + 1) ts.
Proof.
  intros H. eapply Forall_impl; [exact H |]. intros t Ht Hc. specialize (Ht Hc). lia.
Qed.

Lemma ticksUpTo_mono r r' ts : r <= r' -> ticksUpTo r ts -> ticksUpTo r' ts.
Proof.
  intros Hr H. eapply Forall_impl; [exact H |]. intros t Ht Hc. specialize (Ht Hc). lia.
Qed.

Lemma ticksUpTo_delete r i ts : ticksUpTo r ts -> ticksUpTo r (delete i ts).
Proof.
  unfold ticksUpTo. apply Forall_delete.
Qed.

Lemma countLive_delete r ts : forall i t,
  ts !! i = Some t ->
  (countLive r (delete i ts)
   + (if isCatTick t && (tvalue t =? r)%Z then 1 else 0) = countLive r ts)%nat.
Proof.
  induction ts as [| t0 ts IH]; intros i t Hi; [discriminate |].
  destruct i as [| i]; cbn in Hi.
  - injection Hi as ->. change (delete 0%nat (t :: ts)) with ts. cbn [countLive]. lia.
  - change (delete (S i) (t0 :: ts)) with (t0 :: delete i ts). cbn [countLive].
    specialize (IH i t Hi). lia.
Qed.

Lemma countLive_delete_le r ts : forall i,
  (countLive r (delete i ts) <= countLive r ts)%nat.
Proof.
  induction ts as [| t0 ts IH]; intros i; [destruct i; apply Nat.le_refl |].
  destruct i as [| i].
  - change (delete 0%nat (t0 :: ts)) with ts. cbn [countLive]. lia.
  - change (delete (S i) (t0 :: ts)) with (t0 :: delete i ts). cbn [countLive].
    specialize (IH i). lia.
Qed.

(** A level as [resetGame] and [startLevel] leave it. *)
Lemma freshLevel_inv g cheese powerups now level total rid ts n :
  isPath g (PLAYER_START_X, PLAYER_START_Y) = true ->
  isPath g (11, 10) = true ->
  Z.of_nat (length cheese) <= NUM_CHEESE_TO_PLACE ->
  ticksUpTo rid ts ->
  GameInv (mkGame PLAYING PLAYER_START_X PLAYER_START_Y 11 10 g level 0 total
             (Z.of_nat (length cheese)) cheese powerups false 0
             INITIAL_CAT_DELAY_MS INITIAL_CAT_DELAY_MS now true (rid + 1)
             (ts ++ [mkTimer INITIAL_CAT_DELAY_MS CbCatTimer (rid + 1)]) n).
Proof.
  intros Hp Hc Hlen Ht. constructor; cbn [maze playerPos catPos playerX playerY catX catY
    resetIdentifier timers score cheeseLocations initialCheeseCount currentGameState
    currentCatDelay normalCatDelayBeforeSlowdown isCatSlowed catSlowDurationTimer];
    try assumption; inv_consts; try lia.
  - apply Forall_app. split.
    + apply (ticksUpTo_mono rid); [lia | assumption].
    + constructor; [| constructor]. intros _. cbn [tvalue]. lia.
  - rewrite countLive_app, (countLive_stale (rid + 1) ts (ticksUpTo_next _ _ Ht)).
    cbn [countLive isCatTick tcallback tvalue andb]. rewrite Z.eqb_refl. lia.
Qed.

Lemma selectLayout_starts v :
  isPath (selectLayout v) (PLAYER_START_X, PLAYER_START_Y) = true
  /\ isPath (selectLayout v) (CAT_START_X, CAT_START_Y) = true
  /\ isPath (selectLayout v) (11, 10) = true.
Proof.
  unfold selectLayout. destruct (v =? 2); [vm_compute; tauto |].
  destruct (v =? 3); vm_compute; tauto.
Qed.

Lemma placeCheese_length draws g n :
  Z.of_nat (length (fst (fst (placeCheese draws maxAttempts g n 0 [])))) <= NUM_CHEESE_TO_PLACE.
Proof.
  pose proof (placeCheese_inv draws g maxAttempts n 0 [] (cheeseInv_nil g)) as H.
  cbv zeta in H. destruct H as (_ & _ & Hlen & Hle). lia.
Qed.

Lemma resetGame_inv draws now s : GameInv s -> GameInv (resetGame draws now s).
Proof.
  intros I. rewrite resetGame_eq. cbv zeta.
  destruct (selectLayout_starts 1) as (Hp & _ & Hc).
  apply freshLevel_inv; try assumption.
  - apply placeCheese_length.
  - apply (gi_ticks _ I).
Qed.

Lemma startLevel_inv draws now v s : GameInv s -> GameInv (startLevel draws now v s).
Proof.
  intros I. rewrite startLevel_eq. cbv zeta.
  destruct (selectLayout_starts v) as (Hp & _ & Hc).
  apply freshLevel_inv; try assumption.
  - apply placeCheese_length.
  - apply (gi_ticks _ I).
Qed.

(** Changes of fields the invariant does not read, or reads harmlessly. *)
Lemma GameInv_set_lastTickTime v s : GameInv s -> GameInv (set_lastTickTime v s).
Proof. intros [? ? ? ? ? ? ? ? ? ? ? ? ?]. constructor; assumption. Qed.

Lemma mainInit_inv draws now : GameInv (mainInit draws now).
Proof.
  unfold mainInit. cbv zeta. apply GameInv_set_lastTickTime.
  rewrite initLevelData_eq. cbv zeta.
  unfold initMaze, glutTimerFunc, staticInit.
  cbn -[placeCheese placePowerups maxAttempts Z.add selectLayout isPath].
  destruct (selectLayout_starts 1) as (Hp & Hc & _).
  pose proof (placeCheese_length draws (selectLayout 1) 0) as Hlen.
  constructor; cbn [maze playerPos catPos playerX playerY catX catY
    resetIdentifier timers score cheeseLocations initialCheeseCount currentGameState
    currentCatDelay normalCatDelayBeforeSlowdown isCatSlowed catSlowDurationTimer];
    try assumption; inv_consts; try lia.
  - constructor; [| constructor]. intros H. discriminate.
  - cbn. lia.
Qed.

Lemma GameInv_leave_play st s :
  st <> PLAYING -> st <> PAUSED \/ currentGameState s = PLAYING
                                \/ currentGameState s = PAUSED ->
  GameInv s -> GameInv (set_currentGameState st s).
Proof.
  intros H1 H2 [? ? ? ? ? ? ? Hpl ? ? ? ? ?]. constructor; try assumption.
  cbn [currentGameState set_currentGameState score cheeseLocations initialCheeseCount].
  intros [? | ->]; [contradiction |]. apply Hpl. destruct H2 as [H2 | H2]; [contradiction | tauto].
Qed.

Lemma GameInv_set_timerActive v s : GameInv s -> GameInv (set_timerActive v s).
Proof. intros [? ? ? ? ? ? ? ? ? ? ? ? ?]. constructor; assumption. Qed.

Lemma GameInv_delete_timer i s :
  GameInv s -> GameInv (set_timers (delete i (timers s)) s).
Proof.
  intros [? ? Ht Hl ? ? ? ? ? ? ? ? ?]. constructor; try assumption.
  - apply ticksUpTo_delete. exact Ht.
  - cbn [resetIdentifier timers set_timers].
    pose proof (countLive_delete_le (resetIdentifier s) (timers s) i). lia.
Qed.

(** [moveCat] keeps the invariant. *)
Lemma moveCat_inv s : GameInv s -> GameInv (moveCat s).
Proof.
  intros I. pose proof (isPath_inGrid _ _ (gi_cat _ I)) as Hin.
  pose proof (moveCat_step_edge s Hin) as Hpos.
  assert (Hc : isPath (maze s) (catPos (moveCat s)) = true).
  { destruct Hpos as [-> | He]; [apply (gi_cat _ I) | eapply edge_isPath; exact He]. }
  destruct I as [Ipl Ict It Il Isc Ich Icn Iplay Id In If Inc Isl].
  destruct (moveCat_cases s) as (c & _ & Hres). cbv zeta in Hres.
  destruct Hres as [Hr | (Hst & _ & Hr)]; rewrite Hr in Hc |- *;
    constructor; try assumption;
    cbn [caught maze playerPos catPos playerX playerY catX catY set_catX set_catY
         set_timerActive set_currentGameState set_score set_totalScore
         score cheeseLocations initialCheeseCount currentGameState] in *;
    try assumption; try lia.
  intros [? | ?]; discriminate.
Qed.

Lemma moveCat_ticks s :
  timers (moveCat s) = timers s /\ resetIdentifier (moveCat s) = resetIdentifier s.
Proof. pose proof (moveCat_frame s) as F. cbv zeta in F. tauto. Qed.

Lemma GameInv_schedule s :
  GameInv s -> countLive (resetIdentifier s) (timers s) = O ->
  GameInv (glutTimerFunc (currentCatDelay s) CbCatTimer (resetIdentifier s) s).
Proof.
  intros [? ? Ht Hl ? ? ? ? ? ? ? ? ?] H0. constructor; try assumption.
  - cbn [glutTimerFunc resetIdentifier timers set_timers]. apply Forall_app. split; [assumption |].
    constructor; [| constructor]. intros _. cbn [tvalue]. lia.
  - cbn [glutTimerFunc resetIdentifier timers set_timers]. rewrite countLive_app, H0.
    cbn [countLive isCatTick tcallback tvalue andb]. rewrite Z.eqb_refl. lia.
Qed.

(** A tick of the current epoch, run while no other one is pending. *)
Lemma catTimer_inv v s :
  GameInv s ->
  (v = resetIdentifier s -> countLive (resetIdentifier s) (timers s) = O) ->
  GameInv (catTimer v s).
Proof.
  intros I H0. destruct (catTimer_cases v s) as [-> | (Hst & _ & Hv & Hr)]; [assumption |].
  cbv zeta in Hr. rewrite Hr.
  assert (Hv' : v = resetIdentifier s) by (destruct Hv; congruence).
  specialize (H0 Hv').
  destruct (isCatSlowed s).
  - cbn [negb]. apply GameInv_schedule; assumption.
  - cbn [negb]. destruct (moveCat_ticks s) as [Ht Hrid].
    apply GameInv_schedule; [apply moveCat_inv; assumption |]. rewrite Ht, Hrid. exact H0.
Qed.

Lemma eraseCheese_length x y cheese rest :
  eraseCheese x y cheese = Some rest -> length cheese = S (length rest).
Proof.
  revert rest. induction cheese as [| loc l IH]; intros rest H; cbn [eraseCheese] in H.
  - discriminate.
  - destruct ((fst loc =? x) && (snd loc =? y)).
    + injection H as ->. reflexivity.
    + destruct (eraseCheese x y l) as [r |]; [| discriminate].
      cbn [option_map] in H. injection H as <-. cbn [length]. rewrite (IH r eq_refl). reflexivity.
Qed.

Lemma nextLevel_inv s : GameInv s -> GameInv (nextLevel s).
Proof.
  intros [Ipl Ict It Il Isc Ich Icn Iplay Id In If Inc Isl].
  unfold nextLevel. cbv zeta.
  cbn [currentLevel set_currentLevel set_timerActive set_score set_totalScore].
  destruct (currentLevel s + 1 >? MAX_LEVELS);
    constructor;
    cbn [glutTimerFunc maze playerPos catPos playerX playerY catX catY resetIdentifier
         timers score cheeseLocations initialCheeseCount currentGameState
         currentCatDelay normalCatDelayBeforeSlowdown isCatSlowed catSlowDurationTimer
         set_currentLevel set_timerActive set_score set_totalScore
         set_currentGameState set_timers];
    try assumption; try lia; try (intros [? | ?]; discriminate).
  - apply Forall_app. split; [assumption |]. constructor; [| constructor].
    intros H. discriminate.
  - rewrite countLive_app. cbn. lia.
Qed.

Lemma collectPowerup_inv s : GameInv s -> GameInv (collectPowerup s).
Proof.
  intros I. unfold collectPowerup. destruct (isCatSlowed s) eqn:Hslow; [assumption |].
  destruct (erasePowerup _ _ _) as [rest |]; [| assumption].
  destruct I as [Ipl Ict It Il Isc Ich Icn Iplay Id In If Inc Isl].
  specialize (If Hslow).
  constructor;
    cbn [maze playerPos catPos playerX playerY catX catY resetIdentifier
         timers score cheeseLocations initialCheeseCount currentGameState
         currentCatDelay normalCatDelayBeforeSlowdown isCatSlowed catSlowDurationTimer
         set_isCatSlowed set_catSlowDurationTimer set_normalCatDelayBeforeSlowdown
         set_currentCatDelay set_powerupLocations];
    try assumption; inv_consts; try lia; try discriminate.
  intros H0. destruct (Inc H0) as [_ H]. split; [apply H; exact Hslow | discriminate].
Qed.

Lemma GameInv_move_player x y s :
  isPath (maze s) (x, y) = true -> GameInv s ->
  GameInv (set_playerY y (set_playerX x s)).
Proof. intros Hp [? ? ? ? ? ? ? ? ? ? ? ? ?]. constructor; assumption. Qed.

Lemma processPlayerMove_inv nx ny s : GameInv s -> GameInv (processPlayerMove nx ny s).
Proof.
  intros I. unfold processPlayerMove.
  destruct (wrapTunnel (nx, ny)) as [wx wy].
  destruct (isPath (maze s) (wx, wy)) eqn:Hp; [| assumption].
  cbv zeta. pose proof (GameInv_move_player wx wy s Hp I) as I1.
  set (s1 := set_playerY wy (set_playerX wx s)) in *.
  destruct (eraseCheese (playerX s1) (playerY s1) (cheeseLocations s1)) as [rest |] eqn:He;
    [| apply collectPowerup_inv; assumption].
  apply eraseCheese_length in He.
  set (s2 := set_score (score (set_cheeseLocations rest s1) + 1) (set_cheeseLocations rest s1)).
  assert (I2 : GameInv s2).
  { destruct I1 as [Ipl Ict It Il Isc Ich Icn Iplay Id In If Inc Isl].
    constructor; try assumption;
      cbn [s2 score cheeseLocations initialCheeseCount currentGameState
           set_score set_cheeseLocations] in *; try lia.
    intros H. specialize (Iplay H). lia. }
  assert (Hr2 : cheeseLocations s2 = rest) by reflexivity.
  clearbody s2. clear I1 He.
  set (s3 := if negb (isCatSlowed s2) && (initialCheeseCount s2 >? 0) then _ else s2).
  assert (I3 : GameInv s3 /\ cheeseLocations s3 = rest).
  { subst s3. destruct (negb (isCatSlowed s2) && (initialCheeseCount s2 >? 0)) eqn:E;
      [| tauto].
    split; [| exact Hr2]. apply andb_prop in E. destruct E as [_ Hpos].
    destruct I2 as [Ipl Ict It Il Isc Ich Icn Iplay Id In If Inc Isl].
    assert (Hrange : MIN_CAT_DELAY_MS <= catDelayFor (score s2) (initialCheeseCount s2)
                     <= INITIAL_CAT_DELAY_MS)
      by (apply catDelayFor_range; lia).
    constructor; try assumption;
      cbn [currentCatDelay normalCatDelayBeforeSlowdown isCatSlowed initialCheeseCount
           set_currentCatDelay set_normalCatDelayBeforeSlowdown] in *;
      inv_consts; try lia. }
  destruct I3 as [I3 Hr3]. clearbody s3. rewrite Hr3.
  destruct rest; [apply nextLevel_inv | apply collectPowerup_inv]; assumption.
Qed.

Lemma idle_inv now s : GameInv s -> GameInv (idle now s).
Proof.
  intros I. unfold idle. cbv zeta.
  destruct (now - lastTickTime s >? 0); [| assumption].
  apply GameInv_set_lastTickTime.
  destruct ((bool_decide (currentGameState s = PLAYING)
             || bool_decide (currentGameState s = PAUSED))
            && isCatSlowed s && bool_decide (currentGameState s = PLAYING)) eqn:E;
    [| assumption].
  destruct I as [Ipl Ict It Il Isc Ich Icn Iplay Id In If Inc Isl].
  cbn [catSlowDurationTimer set_catSlowDurationTimer].
  destruct (Z.leb_spec (catSlowDurationTimer s - (now - lastTickTime s)) 0) as [Hexp | Hrun].
  - cbn [initialCheeseCount set_isCatSlowed set_catSlowDurationTimer].
    destruct (Z.gtb_spec (initialCheeseCount s) 0) as [Hpos | Hzero].
    + assert (Hrange : MIN_CAT_DELAY_MS <= catDelayFor (score s) (initialCheeseCount s)
                       <= INITIAL_CAT_DELAY_MS)
        by (apply catDelayFor_range; lia).
      constructor; try assumption;
        cbn [currentCatDelay normalCatDelayBeforeSlowdown isCatSlowed initialCheeseCount
             score catSlowDurationTimer
             set_currentCatDelay set_isCatSlowed set_catSlowDurationTimer] in *;
        inv_consts; try lia; try discriminate.
    + constructor; try assumption;
        cbn [currentCatDelay normalCatDelayBeforeSlowdown isCatSlowed initialCheeseCount
             score catSlowDurationTimer
             set_currentCatDelay set_isCatSlowed set_catSlowDurationTimer] in *;
        inv_consts; try lia; try discriminate.
  - constructor; try assumption;
      cbn [isCatSlowed catSlowDurationTimer set_catSlowDurationTimer]; try lia.
Qed.

(** The epoch advanced on resume: every pending tick is stale. *)
Lemma GameInv_resume now s :
  currentGameState s = PAUSED -> GameInv s ->
  let s' := set_resetIdentifier (resetIdentifier s + 1)
              (set_lastTickTime now
                 (set_timerActive true (set_currentGameState PLAYING s))) in
  GameInv s' /\ countLive (resetIdentifier s') (timers s') = O.
Proof.
  intros Hst [Ipl Ict It Il Isc Ich Icn Iplay Id In If Inc Isl]. cbv zeta.
  assert (H0 : countLive (resetIdentifier s + 1) (timers s) = O)
    by (apply countLive_stale, ticksUpTo_next; assumption).
  split; [| exact H0].
  constructor; try assumption;
    cbn [resetIdentifier timers score cheeseLocations initialCheeseCount currentGameState
         set_resetIdentifier set_lastTickTime set_timerActive set_currentGameState].
  - apply (ticksUpTo_mono (resetIdentifier s)); [lia | assumption].
  - rewrite H0. lia.
  - intros _. apply Iplay. right. assumption.
Qed.

Lemma keyboard_inv draws now key s s' :
  keyboard draws now key s = Some s' -> GameInv s -> GameInv s'.
Proof.
  intros H I. unfold keyboard in H.
  destruct (currentGameState s) eqn:Hst.
  - injection H as <-. apply GameInv_leave_play; [discriminate | left; discriminate | assumption].
  - destruct (Ascii.eqb key KEY_ENTER).
    + injection H as <-. apply resetGame_inv. assumption.
    + destruct (Ascii.eqb key KEY_ESCAPE); [discriminate |]. injection H as <-. assumption.
  - (* PLAYING *)
    destruct (isKey key "p" "P").
    + rewrite bool_decide_eq_true_2 in H by reflexivity. injection H as <-.
      apply GameInv_set_timerActive.
      apply GameInv_leave_play; [discriminate | right; left; assumption | assumption].
    + destruct (Ascii.eqb key KEY_ESCAPE); [discriminate |].
      rewrite bool_decide_eq_true_2 in H by reflexivity. cbn [negb] in H.
      repeat match type of H with
             | context [if ?b then _ else _] => destruct b
             end;
        injection H as <-;
        first [ apply resetGame_inv | apply processPlayerMove_inv | idtac ]; assumption.
  - (* PAUSED *)
    destruct (isKey key "p" "P").
    + rewrite bool_decide_eq_false_2 in H by discriminate. cbv zeta in H.
      injection H as <-.
      destruct (GameInv_resume now s Hst I) as [I' H0]. cbv zeta in I', H0.
      apply catTimer_inv; [exact I' | intros _; exact H0].
    + destruct (Ascii.eqb key KEY_ESCAPE); [discriminate |].
      rewrite bool_decide_eq_false_2 in H by discriminate. cbn [negb] in H.
      injection H as <-. assumption.
  - destruct (isKey key "r" "R" && negb (bool_decide (GAME_OVER = GAME_WON_FINAL))).
    + injection H as <-. apply resetGame_inv. assumption.
    + destruct (Ascii.eqb key KEY_ESCAPE); [discriminate |]. injection H as <-. assumption.
  - destruct (isKey key "r" "R" && negb (bool_decide (GAME_WON_LEVEL = GAME_WON_FINAL))).
    + injection H as <-. apply resetGame_inv. assumption.
    + destruct (Ascii.eqb key KEY_ESCAPE); [discriminate |]. injection H as <-. assumption.
  - destruct (isKey key "r" "R" && negb (bool_decide (GAME_WON_FINAL = GAME_WON_FINAL))).
    + injection H as <-. apply resetGame_inv. assumption.
    + destruct (Ascii.eqb key KEY_ESCAPE); [discriminate |]. injection H as <-. assumption.
Qed.

Lemma specialKeyboard_inv key s : GameInv s -> GameInv (specialKeyboard key s).
Proof.
  intros I. unfold specialKeyboard.
  repeat match goal with |- context [if ?b then _ else _] => destruct b end;
    first [ apply processPlayerMove_inv | idtac ]; assumption.
Qed.

Lemma leaveIntro_inv s : GameInv s -> GameInv (leaveIntro s).
Proof.
  intros I. unfold leaveIntro. destruct (bool_decide _); [| assumption].
  apply GameInv_leave_play; [discriminate | left; discriminate | assumption].
Qed.

Lemma step_inv draws ev s s' : step draws ev s = Some s' -> GameInv s -> GameInv s'.
Proof.
  destruct ev as [now key | key | now | now i]; cbn [step]; intros H I.
  - eapply keyboard_inv; eassumption.
  - injection H as <-. apply specialKeyboard_inv. assumption.
  - injection H as <-. apply idle_inv. assumption.
  - destruct (timers s !! i) as [t |] eqn:Ht; [| discriminate]. injection H as <-.
    pose proof (GameInv_delete_timer i s I) as I'.
    unfold fire. destruct (tcallback t) eqn:Hcb.
    + apply catTimer_inv; [assumption |].
      cbn [resetIdentifier timers set_timers]. intros Hv.
      pose proof (countLive_delete (resetIdentifier s) _ _ _ Ht) as Hd.
      unfold isCatTick in Hd. rewrite Hcb, Hv, Z.eqb_refl in Hd. cbn [andb] in Hd.
      pose proof (gi_live _ I). lia.
    + apply startLevel_inv. assumption.
    + apply leaveIntro_inv. assumption.
Qed.

Lemma run_inv draws evs : forall s s',
  run draws evs s = Some s' -> GameInv s -> GameInv s'.
Proof.
  induction evs as [| ev evs IH]; cbn [run]; intros s s' H I.
  - injection H as <-. assumption.
  - destruct (step draws ev s) as [s1 |] eqn:E; [| discriminate].
    eapply IH; [eassumption |]. eapply step_inv; eassumption.
Qed.

Lemma reachable_inv draws s : reachable draws s -> GameInv s.
Proof.
  intros (now & evs & H). eapply run_inv; [eassumption | apply mainInit_inv].
Qed.

(** Any key leaves the intro, Enter starts the game. *)
Lemma samplePlaying_reachable : reachable sampleDraws samplePlaying.
Proof.
  exists 0, [EvKey 1 " "%char; EvKey 5 KEY_ENTER]. vm_compute. reflexivity.
Qed.

(** X9.  In every state of a run the player and the cat stand on path
    tiles of the grid in [maze]: inside the grid, on a tile whose value is
    [TILE_PATH], hence never on a wall or on a [TILE_BLOCKED] tile. *)
Theorem reachable_positions_on_path (draws : nat -> nat) (s : Game) :
  reachable draws s ->
  isPath (maze s) (playerPos s) = true /\ isPath (maze s) (catPos s) = true
  /\ tile (maze s) (playerX s) (playerY s) <> TILE_BLOCKED
  /\ tile (maze s) (catX s) (catY s) <> TILE_BLOCKED.
Proof.
  intros R. apply reachable_inv in R. destruct R as [Hp Hc _ _ _ _ _ _ _ _ _ _ _].
  split; [assumption |]. split; [assumption |].
  apply isPath_tile in Hp, Hc. cbn [fst snd playerPos catPos] in Hp, Hc.
  rewrite Hp, Hc. split; discriminate.
Qed.

Lemma reachable_positions_on_path_witness :
  reachable sampleDraws samplePlaying
  /\ isPath (maze samplePlaying) (playerPos samplePlaying) = true
  /\ isPath (maze samplePlaying) (catPos samplePlaying) = true
  /\ tile (maze samplePlaying) (playerX samplePlaying) (playerY samplePlaying) <> TILE_BLOCKED
  /\ tile (maze samplePlaying) (catX samplePlaying) (catY samplePlaying) <> TILE_BLOCKED.
Proof.
  split; [exact samplePlaying_reachable |].
  exact (reachable_positions_on_path sampleDraws samplePlaying samplePlaying_reachable).
Defined.

(** X10.  In every state of a run no pending tick of the cat carries a value
    above the epoch, and at most one carries the epoch itself: there is
    never more than one chain of ticks that can move the cat. *)
Theorem reachable_single_tick_chain (draws : nat -> nat) (s : Game) :
  reachable draws s ->
  ticksUpTo (resetIdentifier s) (timers s)
  /\ (countLive (resetIdentifier s) (timers s) <= 1)%nat.
Proof.
  intros R. apply reachable_inv in R. split; [apply (gi_ticks _ R) | apply (gi_live _ R)].
Qed.

Lemma reachable_single_tick_chain_witness :
  reachable sampleDraws samplePlaying
  /\ ticksUpTo (resetIdentifier samplePlaying) (timers samplePlaying)
  /\ (countLive (resetIdentifier samplePlaying) (timers samplePlaying) <= 1)%nat.
Proof.
  split; [exact samplePlaying_reachable |].
  exact (reachable_single_tick_chain sampleDraws samplePlaying samplePlaying_reachable).
Defined.

(** X12.  In every state of a run the level score is not negative, the
    score and the cheese left never exceed the initial count, which is at
    most 12; while the game is playing or paused they add up to it
    exactly. *)
Theorem reachable_score_accounting (draws : nat -> nat) (s : Game) :
  reachable draws s ->
  0 <= score s
  /\ score s + Z.of_nat (length (cheeseLocations s)) <= initialCheeseCount s
  /\ initialCheeseCount s <= NUM_CHEESE_TO_PLACE
  /\ (currentGameState s = PLAYING \/ currentGameState s = PAUSED ->
      score s + Z.of_nat (length (cheeseLocations s)) = initialCheeseCount s).
Proof.
  intros R. apply reachable_inv in R.
  destruct R as [_ _ _ _ H1 H2 H3 H4 _ _ _ _ _]. tauto.
Qed.

Lemma reachable_score_accounting_witness :
  reachable sampleDraws samplePlaying
  /\ 0 <= score samplePlaying
  /\ score samplePlaying + Z.of_nat (length (cheeseLocations samplePlaying))
     <= initialCheeseCount samplePlaying
  /\ initialCheeseCount samplePlaying <= NUM_CHEESE_TO_PLACE
  /\ (currentGameState samplePlaying = PLAYING \/ currentGameState samplePlaying = PAUSED ->
      score samplePlaying + Z.of_nat (length (cheeseLocations samplePlaying))
      = initialCheeseCount samplePlaying).
Proof.
  split; [exact samplePlaying_reachable |].
  exact (reachable_score_accounting sampleDraws samplePlaying samplePlaying_reachable).
Defined.

(** X13.  In every state of a run the delay of the cat lies between
    [MIN_CAT_DELAY_MS] and [INITIAL_CAT_DELAY_MS + 100]; without the slow
    effect it is at most [INITIAL_CAT_DELAY_MS]; and an active slow effect
    has time left. *)
Theorem reachable_delay_bounds (draws : nat -> nat) (s : Game) :
  reachable draws s ->
  MIN_CAT_DELAY_MS <= currentCatDelay s <= INITIAL_CAT_DELAY_MS + 100
  /\ (isCatSlowed s = false -> currentCatDelay s <= INITIAL_CAT_DELAY_MS)
  /\ (isCatSlowed s = true -> 0 < catSlowDurationTimer s).
Proof.
  intros R. apply reachable_inv in R.
  destruct R as [_ _ _ _ _ _ _ _ H1 _ H2 _ H3]. tauto.
Qed.

Lemma reachable_delay_bounds_witness :
  reachable sampleDraws samplePlaying
  /\ MIN_CAT_DELAY_MS <= currentCatDelay samplePlaying <= INITIAL_CAT_DELAY_MS + 100
  /\ (isCatSlowed samplePlaying = false ->
      currentCatDelay samplePlaying <= INITIAL_CAT_DELAY_MS)
  /\ (isCatSlowed samplePlaying = true -> 0 < catSlowDurationTimer samplePlaying).
Proof.
  split; [exact samplePlaying_reachable |].
  exact (reachable_delay_bounds sampleDraws samplePlaying samplePlaying_reachable).
Defined.

(** One frame of an active slow effect in a playing game. *)
Lemma idle_slowed now s :
  currentGameState s = PLAYING -> isCatSlowed s = true ->
  idle now s =
    if now - lastTickTime s >? 0 then
      if catSlowDurationTimer s - (now - lastTickTime s) <=? 0 then
        set_lastTickTime now
          (set_currentCatDelay (delayAfterSlow s)
             (set_isCatSlowed false
                (set_catSlowDurationTimer
                   (catSlowDurationTimer s - (now - lastTickTime s)) s)))
      else
        set_lastTickTime now
          (set_catSlowDurationTimer (catSlowDurationTimer s - (now - lastTickTime s)) s)
    else s.
Proof.
  intros Hst Hsl. unfold idle, delayAfterSlow. cbv zeta.
  rewrite Hst, Hsl. rewrite bool_decide_eq_true_2 by reflexivity. cbn [orb andb].
  destruct (now - lastTickTime s >? 0); [| reflexivity].
  cbn [catSlowDurationTimer set_catSlowDurationTimer].
  destruct (catSlowDurationTimer s - (now - lastTickTime s) <=? 0); [| reflexivity].
  cbn [initialCheeseCount score normalCatDelayBeforeSlowdown set_isCatSlowed
       set_catSlowDurationTimer].
  destruct (initialCheeseCount s >? 0); reflexivity.
Qed.

(** A frame without an active slow effect, or outside play, only records
    the clock. *)
Lemma idle_plain now s :
  isCatSlowed s = false \/ currentGameState s <> PLAYING ->
  idle now s = if now - lastTickTime s >? 0 then set_lastTickTime now s else s.
Proof.
  intros H. unfold idle. cbv zeta. destruct (now - lastTickTime s >? 0); [| reflexivity].
  destruct H as [H | H].
  - rewrite H, andb_false_r. reflexivity.
  - rewrite (bool_decide_eq_false_2 _ H), andb_false_r. reflexivity.
Qed.

Lemma set_lastTickTime_twice a b s :
  set_lastTickTime a (set_lastTickTime b s) = set_lastTickTime a s.
Proof. reflexivity. Qed.

Lemma set_lastTickTime_same s : set_lastTickTime (lastTickTime s) s = s.
Proof. destruct s; reflexivity. Qed.

(** Frames that find no slow effect to age change the clock field only. *)
Lemma idleAll_plain ticks : forall s,
  isCatSlowed s = false \/ currentGameState s <> PLAYING ->
  set_lastTickTime (lastTickTime s) (idleAll ticks s) = s.
Proof.
  induction ticks as [| now ticks IH]; intros s H.
  - apply set_lastTickTime_same.
  - cbn [idleAll fold_left]. rewrite idle_plain by assumption.
    destruct (now - lastTickTime s >? 0); [| apply IH; assumption].
    specialize (IH (set_lastTickTime now s) H). unfold idleAll in IH.
    apply (f_equal (set_lastTickTime (lastTickTime s))) in IH.
    rewrite !set_lastTickTime_twice, set_lastTickTime_same in IH. exact IH.
Qed.

Lemma idleAll_expires ticks : forall s L,
  currentGameState s = PLAYING -> isCatSlowed s = true ->
  L <= lastTickTime s -> (lastTickTime s = L \/ 0 < catSlowDurationTimer s) ->
  Exists (fun now => L < now /\ lastTickTime s + catSlowDurationTimer s <= now) ticks ->
  let s' := idleAll ticks s in
  isCatSlowed s' = false /\ currentCatDelay s' = delayAfterSlow s
  /\ currentGameState s' = PLAYING /\ score s' = score s
  /\ initialCheeseCount s' = initialCheeseCount s.
Proof.
  induction ticks as [| now ticks IH]; intros s L Hst Hsl HL Hpos Hex; cbv zeta.
  - inversion Hex.
  - cbn [idleAll fold_left]. rewrite idle_slowed by assumption.
    destruct (Z.gtb_spec (now - lastTickTime s) 0) as [Hd | Hd].
    + destruct (Z.leb_spec (catSlowDurationTimer s - (now - lastTickTime s)) 0) as [He | He].
      * set (s1 := set_lastTickTime now _).
        pose proof (idleAll_plain ticks s1 (or_introl eq_refl)) as Hp.
        fold (idleAll ticks s1).
        assert (Hf : forall f : Game -> Z,
                   (forall v x, f (set_lastTickTime v x) = f x) ->
                   f (idleAll ticks s1) = f s1)
          by (intros f Hf; rewrite <- Hp at 2; symmetry; apply Hf).
        assert (Hb : isCatSlowed (idleAll ticks s1) = isCatSlowed s1)
          by (rewrite <- Hp at 2; reflexivity).
        assert (Hg : currentGameState (idleAll ticks s1) = currentGameState s1)
          by (rewrite <- Hp at 2; reflexivity).
        rewrite Hb, Hg, (Hf currentCatDelay), (Hf score), (Hf initialCheeseCount)
          by reflexivity.
        subst s1. cbn. tauto.
      * set (s1 := set_lastTickTime now _).
        assert (Hex' : Exists (fun now0 => L < now0
                          /\ lastTickTime s1 + catSlowDurationTimer s1 <= now0) ticks).
        { apply Exists_cons in Hex. destruct Hex as [[_ Hq] | Hex]; [lia |].
          eapply Exists_impl; [exact Hex |]. subst s1. cbn. intros x. lia. }
        specialize (IH s1 L Hst Hsl ltac:(subst s1; cbn; lia)
                      ltac:(right; subst s1; cbn; lia) Hex').
        cbv zeta in IH. exact IH.
    + apply Exists_cons in Hex. destruct Hex as [[Hq1 Hq2] | Hex]; [lia |].
      apply (IH s L); assumption.
Qed.

(** X14.  A slow effect is active in a playing game and frames follow one
    another, nothing else happening.  Once a frame reads a clock value
    that lies after the last frame by at least the time the effect has
    left, the effect is over, and the delay of the cat is the one the
    curve gives for the score and the initial cheese count of the moment
    (with no cheese in the level: the delay saved when the effect
    began). *)
Theorem slow_effect_expires (s : Game) (ticks : list Z) :
  currentGameState s = PLAYING -> isCatSlowed s = true ->
  Exists (fun now => lastTickTime s < now
                     /\ lastTickTime s + catSlowDurationTimer s <= now) ticks ->
  let s' := idleAll ticks s in
  isCatSlowed s' = false
  /\ currentCatDelay s' = delayAfterSlow s
  /\ currentGameState s' = PLAYING /\ score s' = score s
  /\ initialCheeseCount s' = initialCheeseCount s.
Proof.
  intros Hst Hsl Hex.
  apply (idleAll_expires ticks s (lastTickTime s)); try assumption; [lia | left; reflexivity].
Qed.

Lemma slow_effect_expires_witness :
  currentGameState sampleSlowed = PLAYING /\ isCatSlowed sampleSlowed = true
  /\ Exists (fun now => lastTickTime sampleSlowed < now
               /\ lastTickTime sampleSlowed + catSlowDurationTimer sampleSlowed <= now)
       [3000; 2000; 6000; 6016]
  /\ isCatSlowed (idleAll [3000; 2000; 6000; 6016] sampleSlowed) = false
  /\ currentCatDelay (idleAll [3000; 2000; 6000; 6016] sampleSlowed)
     = delayAfterSlow sampleSlowed
  /\ currentGameState (idleAll [3000; 2000; 6000; 6016] sampleSlowed) = PLAYING
  /\ score (idleAll [3000; 2000; 6000; 6016] sampleSlowed) = score sampleSlowed
  /\ initialCheeseCount (idleAll [3000; 2000; 6000; 6016] sampleSlowed)
     = initialCheeseCount sampleSlowed.
Proof.
  assert (H1 : currentGameState sampleSlowed = PLAYING) by (vm_compute; reflexivity).
  assert (H2 : isCatSlowed sampleSlowed = true) by (vm_compute; reflexivity).
  assert (H3 : Exists (fun now => lastTickTime sampleSlowed < now
               /\ lastTickTime sampleSlowed + catSlowDurationTimer sampleSlowed <= now)
       [3000; 2000; 6000; 6016]).
  { apply Exists_cons_tl, Exists_cons_tl, Exists_cons_hd.
    replace (lastTickTime sampleSlowed) with 1000 by (vm_compute; reflexivity).
    replace (catSlowDurationTimer sampleSlowed) with 5000 by (vm_compute; reflexivity).
    lia. }
  split; [exact H1 |]. split; [exact H2 |]. split; [exact H3 |].
  exact (slow_effect_expires sampleSlowed [3000; 2000; 6000; 6016] H1 H2 H3).
Defined.

(** X15.  In a run, the delay a slow effect leaves behind when it expires
    is the delay of the curve for the current score: [catDelayFor] of the
    score and the initial cheese count, or the initial delay in a level
    without cheese. *)
Theorem slow_effect_expires_on_curve (draws : nat -> nat) (s : Game) (ticks : list Z) :
  reachable draws s ->
  currentGameState s = PLAYING -> isCatSlowed s = true ->
  Exists (fun now => lastTickTime s < now
                     /\ lastTickTime s + catSlowDurationTimer s <= now) ticks ->
  isCatSlowed (idleAll ticks s) = false
  /\ currentCatDelay (idleAll ticks s) = curveDelay s.
Proof.
  intros R Hst Hsl Hex. apply reachable_inv in R.
  destruct (idleAll_expires ticks s (lastTickTime s) Hst Hsl ltac:(lia)
              (or_introl eq_refl) Hex) as (H1 & H2 & _).
  split; [exact H1 |]. rewrite H2. unfold delayAfterSlow, curveDelay.
  destruct (Z.gtb_spec (initialCheeseCount s) 0) as [Hpos | Hz]; [reflexivity |].
  pose proof (gi_score _ R). pose proof (gi_cheese _ R).
  apply (gi_nocheese _ R). lia.
Qed.

(** X18.  Pausing, letting any number of frames pass and resuming is, for
    the game, the same as advancing the epoch and ticking the cat at once
    in the state in which the game was paused: the frames of the pause
    age nothing, and the resume runs one tick of the new epoch. *)
Theorem pause_then_resume (draws : nat -> nat) (s : Game) (now now' : Z)
    (ticks : list Z) :
  currentGameState s = PLAYING ->
  keyboard draws now "p" s = Some (pausedFrom s)
  /\ keyboard draws now' "p" (idleAll ticks (pausedFrom s))
     = Some (catTimer (resetIdentifier s + 1)
               (set_resetIdentifier (resetIdentifier s + 1)
                  (set_lastTickTime now' (set_timerActive true s)))).
Proof.
  intros Hst. split.
  - unfold keyboard. rewrite Hst. cbn [isKey Ascii.eqb orb].
    rewrite bool_decide_eq_true_2 by reflexivity. reflexivity.
  - assert (Hp : currentGameState (pausedFrom s) <> PLAYING) by (cbn; discriminate).
    pose proof (idleAll_plain ticks (pausedFrom s) (or_intror Hp)) as Hx.
    set (x := idleAll ticks (pausedFrom s)) in *.
    assert (Hx' : x = set_lastTickTime (lastTickTime x) (pausedFrom s)).
    { clearbody x. rewrite <- Hx. rewrite set_lastTickTime_twice.
      symmetry. apply set_lastTickTime_same. }
    rewrite Hx'. unfold keyboard. cbn [currentGameState pausedFrom set_lastTickTime
      set_timerActive set_currentGameState isKey Ascii.eqb orb].
    rewrite bool_decide_eq_false_2 by discriminate. cbv zeta. f_equal.
    destruct s. cbn in Hst. subst. reflexivity.
Qed.

Lemma pause_then_resume_witness :
  currentGameState samplePlaying = PLAYING
  /\ keyboard sampleDraws 100 "p" samplePlaying = Some (pausedFrom samplePlaying)
  /\ keyboard sampleDraws 900 "p" (idleAll [300; 600] (pausedFrom samplePlaying))
     = Some (catTimer (resetIdentifier samplePlaying + 1)
               (set_resetIdentifier (resetIdentifier samplePlaying + 1)
                  (set_lastTickTime 900 (set_timerActive true samplePlaying)))).
Proof.
  assert (H1 : currentGameState samplePlaying = PLAYING) by (vm_compute; reflexivity).
  split; [exact H1 |].
  exact (pause_then_resume sampleDraws samplePlaying 100 900 [300; 600] H1).
Defined.

Lemma nextLevel_slow_frame s :
  powerupLocations (nextLevel s) = powerupLocations s
  /\ isCatSlowed (nextLevel s) = isCatSlowed s
  /\ catSlowDurationTimer (nextLevel s) = catSlowDurationTimer s
  /\ currentCatDelay (nextLevel s) = currentCatDelay s
  /\ normalCatDelayBeforeSlowdown (nextLevel s) = normalCatDelayBeforeSlowdown s.
Proof.
  unfold nextLevel. cbv zeta. cbn [currentLevel set_currentLevel set_timerActive set_score
    set_totalScore]. destruct (currentLevel s + 1 >? MAX_LEVELS); cbn; tauto.
Qed.

(** X17.  While the slow effect is active no move of the player touches
    it: whatever the move does (nothing, a step, a cheese, the last
    cheese), the power-ups stay where they are, the effect keeps its
    remaining time, and the delay of the cat is not recomputed. *)
Theorem slowed_moves_leave_effect (s : Game) (nextX nextY : Z) :
  isCatSlowed s = true ->
  let s' := processPlayerMove nextX nextY s in
  powerupLocations s' = powerupLocations s
  /\ isCatSlowed s' = true
  /\ catSlowDurationTimer s' = catSlowDurationTimer s
  /\ currentCatDelay s' = currentCatDelay s
  /\ normalCatDelayBeforeSlowdown s' = normalCatDelayBeforeSlowdown s.
Proof.
  intros Hsl. cbv zeta. unfold processPlayerMove.
  destruct (wrapTunnel (nextX, nextY)) as [wx wy].
  destruct (isPath (maze s) (wx, wy)); [| tauto].
  cbv zeta. cbn [playerX playerY cheeseLocations set_playerX set_playerY].
  destruct (eraseCheese wx wy (cheeseLocations s)) as [rest |].
  - cbn [isCatSlowed set_score set_cheeseLocations set_playerX set_playerY score].
    rewrite Hsl. cbn [negb andb cheeseLocations set_score set_cheeseLocations].
    destruct rest.
    + destruct (nextLevel_slow_frame
                  (set_score (score s + 1)
                     (set_cheeseLocations [] (set_playerY wy (set_playerX wx s)))))
        as (H1 & H2 & H3 & H4 & H5).
      rewrite H1, H2, H3, H4, H5. cbn. tauto.
    + unfold collectPowerup.
      cbn [isCatSlowed set_score set_cheeseLocations set_playerX set_playerY].
      rewrite Hsl. cbn. tauto.
  - unfold collectPowerup. cbn [isCatSlowed set_playerX set_playerY]. rewrite Hsl.
    cbn. tauto.
Qed.

Lemma slowed_moves_leave_effect_witness :
  isCatSlowed sampleSlowed = true
  /\ powerupLocations (processPlayerMove 8 5 sampleSlowed) = powerupLocations sampleSlowed
  /\ isCatSlowed (processPlayerMove 8 5 sampleSlowed) = true
  /\ catSlowDurationTimer (processPlayerMove 8 5 sampleSlowed)
     = catSlowDurationTimer sampleSlowed
  /\ currentCatDelay (processPlayerMove 8 5 sampleSlowed) = currentCatDelay sampleSlowed
  /\ normalCatDelayBeforeSlowdown (processPlayerMove 8 5 sampleSlowed)
     = normalCatDelayBeforeSlowdown sampleSlowed.
Proof.
  assert (H1 : isCatSlowed sampleSlowed = true) by (vm_compute; reflexivity).
  split; [exact H1 |]. exact (slowed_moves_leave_effect sampleSlowed 8 5 H1).
Defined.

(** X16.  A move onto a tile that holds a slow power-up and no cheese,
    made while the effect is not active, starts the effect: 5000 ms to
    run, the delay of the moment saved, the delay raised to at least
    [INITIAL_CAT_DELAY_MS + 100], the power-up removed; score, cheese and
    cat are as before. *)
Theorem powerup_starts_slow_effect (s : Game) (nextX nextY : Z) (rest : list Powerup) :
  isCatSlowed s = false ->
  isPath (maze s) (wrapTunnel (nextX, nextY)) = true ->
  eraseCheese (fst (wrapTunnel (nextX, nextY))) (snd (wrapTunnel (nextX, nextY)))
    (cheeseLocations s) = None ->
  erasePowerup (fst (wrapTunnel (nextX, nextY))) (snd (wrapTunnel (nextX, nextY)))
    (powerupLocations s) = Some rest ->
  let s' := processPlayerMove nextX nextY s in
  playerPos s' = wrapTunnel (nextX, nextY)
  /\ isCatSlowed s' = true
  /\ catSlowDurationTimer s' = CAT_SLOW_DURATION_MS
  /\ normalCatDelayBeforeSlowdown s' = currentCatDelay s
  /\ currentCatDelay s' = Z.max (currentCatDelay s) (INITIAL_CAT_DELAY_MS + 100)
  /\ powerupLocations s' = rest
  /\ score s' = score s /\ cheeseLocations s' = cheeseLocations s
  /\ catPos s' = catPos s /\ currentGameState s' = currentGameState s.
Proof.
  intros Hsl Hp Hc Hu. cbv zeta. unfold processPlayerMove.
  destruct (wrapTunnel (nextX, nextY)) as [wx wy]. cbn [fst snd] in Hc, Hu.
  rewrite Hp. cbv zeta. cbn [playerX playerY cheeseLocations set_playerX set_playerY].
  rewrite Hc. unfold collectPowerup. cbn [isCatSlowed playerX playerY powerupLocations
    set_playerX set_playerY]. rewrite Hsl, Hu. cbn. tauto.
Qed.

Lemma powerup_starts_slow_effect_witness :
  isCatSlowed samplePlaying = false
  /\ isPath (maze samplePlaying) (wrapTunnel (7, 5)) = true
  /\ eraseCheese (fst (wrapTunnel (7, 5))) (snd (wrapTunnel (7, 5)))
       (cheeseLocations samplePlaying) = None
  /\ erasePowerup (fst (wrapTunnel (7, 5))) (snd (wrapTunnel (7, 5)))
       (powerupLocations samplePlaying) = Some []
  /\ playerPos (processPlayerMove 7 5 samplePlaying) = wrapTunnel (7, 5)
  /\ isCatSlowed (processPlayerMove 7 5 samplePlaying) = true
  /\ catSlowDurationTimer (processPlayerMove 7 5 samplePlaying) = CAT_SLOW_DURATION_MS
  /\ normalCatDelayBeforeSlowdown (processPlayerMove 7 5 samplePlaying)
     = currentCatDelay samplePlaying
  /\ currentCatDelay (processPlayerMove 7 5 samplePlaying)
     = Z.max (currentCatDelay samplePlaying) (INITIAL_CAT_DELAY_MS + 100)
  /\ powerupLocations (processPlayerMove 7 5 samplePlaying) = []
  /\ score (processPlayerMove 7 5 samplePlaying) = score samplePlaying
  /\ cheeseLocations (processPlayerMove 7 5 samplePlaying) = cheeseLocations samplePlaying
  /\ catPos (processPlayerMove 7 5 samplePlaying) = catPos samplePlaying
  /\ currentGameState (processPlayerMove 7 5 samplePlaying)
     = currentGameState samplePlaying.
Proof.
  assert (H1 : isCatSlowed samplePlaying = false) by (vm_compute; reflexivity).
  assert (H2 : isPath (maze samplePlaying) (wrapTunnel (7, 5)) = true)
    by (vm_compute; reflexivity).
  assert (H3 : eraseCheese (fst (wrapTunnel (7, 5))) (snd (wrapTunnel (7, 5)))
                 (cheeseLocations samplePlaying) = None) by (vm_compute; reflexivity).
  assert (H4 : erasePowerup (fst (wrapTunnel (7, 5))) (snd (wrapTunnel (7, 5)))
                 (powerupLocations samplePlaying) = Some []) by (vm_compute; reflexivity).
  split; [exact H1 |]. split; [exact H2 |]. split; [exact H3 |]. split; [exact H4 |].
  exact (powerup_starts_slow_effect samplePlaying 7 5 [] H1 H2 H3 H4).
Defined.

Lemma sampleSlowedRun_reachable : reachable sampleDraws sampleSlowedRun.
Proof. exists 0, sampleSlowRun. vm_compute. reflexivity. Qed.

Lemma slow_effect_expires_on_curve_witness :
  reachable sampleDraws sampleSlowedRun
  /\ currentGameState sampleSlowedRun = PLAYING /\ isCatSlowed sampleSlowedRun = true
  /\ Exists (fun now => lastTickTime sampleSlowedRun < now
               /\ lastTickTime sampleSlowedRun + catSlowDurationTimer sampleSlowedRun <= now)
       [2000; 5005]
  /\ isCatSlowed (idleAll [2000; 5005] sampleSlowedRun) = false
  /\ currentCatDelay (idleAll [2000; 5005] sampleSlowedRun) = curveDelay sampleSlowedRun.
Proof.
  assert (H1 : currentGameState sampleSlowedRun = PLAYING) by (vm_compute; reflexivity).
  assert (H2 : isCatSlowed sampleSlowedRun = true) by (vm_compute; reflexivity).
  assert (H3 : Exists (fun now => lastTickTime sampleSlowedRun < now
               /\ lastTickTime sampleSlowedRun + catSlowDurationTimer sampleSlowedRun <= now)
       [2000; 5005]).
  { apply Exists_cons_tl, Exists_cons_hd.
    replace (lastTickTime sampleSlowedRun) with 5 by (vm_compute; reflexivity).
    replace (catSlowDurationTimer sampleSlowedRun) with 5000 by (vm_compute; reflexivity).
    lia. }
  split; [exact sampleSlowedRun_reachable |].
  split; [exact H1 |]. split; [exact H2 |]. split; [exact H3 |].
  exact (slow_effect_expires_on_curve sampleDraws sampleSlowedRun [2000; 5005]
           sampleSlowedRun_reachable H1 H2 H3).
Defined.

(** X20.  The move onto the only cheese left completes the level: the
    level score, the cheese just taken included, is added to the total
    and reset, the level number advances, ticking stops, and the game is
    won for good after level 3 or else waits in [GAME_WON_LEVEL] with the
    start of the next level scheduled 2000 ms ahead.  A power-up on that
    tile is not collected. *)
Theorem last_cheese_completes_level (s : Game) (nextX nextY : Z) :
  isPath (maze s) (wrapTunnel (nextX, nextY)) = true ->
  cheeseLocations s = [wrapTunnel (nextX, nextY)] ->
  let s' := processPlayerMove nextX nextY s in
  playerPos s' = wrapTunnel (nextX, nextY)
  /\ cheeseLocations s' = [] /\ score s' = 0
  /\ totalScore s' = totalScore s + (score s + 1)
  /\ currentLevel s' = currentLevel s + 1
  /\ timerActive s' = false
  /\ powerupLocations s' = powerupLocations s
  /\ (if currentLevel s + 1 >? MAX_LEVELS then
        currentGameState s' = GAME_WON_FINAL /\ timers s' = timers s
      else
        currentGameState s' = GAME_WON_LEVEL
        /\ timers s' = timers s ++ [mkTimer 2000 CbNextLevel (currentLevel s + 1)]).
Proof.
  intros Hp Hc. cbv zeta. unfold processPlayerMove.
  destruct (wrapTunnel (nextX, nextY)) as [wx wy]. rewrite Hp. cbv zeta.
  cbn [playerX playerY cheeseLocations set_playerX set_playerY]. rewrite Hc.
  cbn [eraseCheese fst snd]. rewrite !Z.eqb_refl. cbn [andb].
  set (s2 := set_score _ _).
  set (s3 := if negb (isCatSlowed s2) && (initialCheeseCount s2 >? 0) then _ else s2).
  assert (H3 : cheeseLocations s3 = [] /\ (playerX s3 = wx /\ playerY s3 = wy)
               /\ score s3 = score s + 1 /\ totalScore s3 = totalScore s
               /\ currentLevel s3 = currentLevel s /\ timers s3 = timers s
               /\ powerupLocations s3 = powerupLocations s).
  { subst s3 s2. destruct (negb _ && _); cbn; tauto. }
  destruct H3 as (Hch & [Hpx Hpy] & Hsc & Hts & Hlv & Htm & Hpu). clearbody s3. rewrite Hch.
  unfold nextLevel. cbv zeta.
  cbn [currentLevel set_currentLevel set_timerActive set_score set_totalScore].
  rewrite Hlv. unfold playerPos. destruct (currentLevel s + 1 >? MAX_LEVELS);
    cbn [glutTimerFunc playerX playerY cheeseLocations score totalScore
         currentLevel timerActive powerupLocations currentGameState timers
         set_currentLevel set_timerActive set_score set_totalScore
         set_currentGameState set_timers];
    rewrite Hpx, Hpy, Hch, Hsc, Hts, Htm, Hpu; tauto.
Qed.

Lemma last_cheese_completes_level_witness :
  isPath (maze sampleLastCheese) (wrapTunnel (3, 1)) = true
  /\ cheeseLocations sampleLastCheese = [wrapTunnel (3, 1)]
  /\ playerPos (processPlayerMove 3 1 sampleLastCheese) = wrapTunnel (3, 1)
  /\ cheeseLocations (processPlayerMove 3 1 sampleLastCheese) = []
  /\ score (processPlayerMove 3 1 sampleLastCheese) = 0
  /\ totalScore (processPlayerMove 3 1 sampleLastCheese)
     = totalScore sampleLastCheese + (score sampleLastCheese + 1)
  /\ currentLevel (processPlayerMove 3 1 sampleLastCheese)
     = currentLevel sampleLastCheese + 1
  /\ timerActive (processPlayerMove 3 1 sampleLastCheese) = false
  /\ powerupLocations (processPlayerMove 3 1 sampleLastCheese)
     = powerupLocations sampleLastCheese
  /\ (if currentLevel sampleLastCheese + 1 >? MAX_LEVELS then
        currentGameState (processPlayerMove 3 1 sampleLastCheese) = GAME_WON_FINAL
        /\ timers (processPlayerMove 3 1 sampleLastCheese) = timers sampleLastCheese
      else
        currentGameState (processPlayerMove 3 1 sampleLastCheese) = GAME_WON_LEVEL
        /\ timers (processPlayerMove 3 1 sampleLastCheese)
           = timers sampleLastCheese
             ++ [mkTimer 2000 CbNextLevel (currentLevel sampleLastCheese + 1)]).
Proof.
  assert (H1 : isPath (maze sampleLastCheese) (wrapTunnel (3, 1)) = true)
    by (vm_compute; reflexivity).
  assert (H2 : cheeseLocations sampleLastCheese = [wrapTunnel (3, 1)])
    by (vm_compute; reflexivity).
  split; [exact H1 |]. split; [exact H2 |].
  exact (last_cheese_completes_level sampleLastCheese 3 1 H1 H2).
Defined.

(** X4.  The cat one move away from the player catches it on its next
    step: it lands on the tile of the player and, in a playing game, the
    game is over, the level score is added to the total and reset, and
    ticking stops. *)
Theorem adjacent_cat_catches (s : Game) :
  inGrid (catPos s) = true ->
  currentGameState s = PLAYING ->
  catPos s <> playerPos s ->
  edge (maze s) (catPos s) (playerPos s) ->
  let s' := moveCat s in
  catPos s' = playerPos s /\ playerPos s' = playerPos s
  /\ currentGameState s' = GAME_OVER
  /\ totalScore s' = totalScore s + score s /\ score s' = 0
  /\ timerActive s' = false.
Proof.
  intros Hin Hst Hne He. cbv zeta.
  assert (Hd : distance (maze s) (catPos s) (playerPos s) 1).
  { split.
    - apply walk_more with (catPos s); [constructor | exact He].
    - intros m W. destruct m; [| lia]. apply walk_zero in W. contradiction. }
  destruct (nextStep_shortest _ _ _ _ Hin Hd) as (c & Hn & _ & Hc).
  apply distance_zero in Hc. subst c.
  unfold moveCat. rewrite Hn.
  rewrite (proj2 (Z.eqb_neq _ _) (isPath_fst _ _ (edge_isPath _ _ _ He))).
  cbn [playerPos fst snd catX catY playerX playerY currentGameState set_catX set_catY].
  rewrite !Z.eqb_refl, bool_decide_eq_true_2 by assumption. cbn. tauto.
Qed.

Lemma adjacent_cat_catches_witness :
  inGrid (catPos sampleAdjacent) = true
  /\ currentGameState sampleAdjacent = PLAYING
  /\ catPos sampleAdjacent <> playerPos sampleAdjacent
  /\ edge (maze sampleAdjacent) (catPos sampleAdjacent) (playerPos sampleAdjacent)
  /\ catPos (moveCat sampleAdjacent) = playerPos sampleAdjacent
  /\ playerPos (moveCat sampleAdjacent) = playerPos sampleAdjacent
  /\ currentGameState (moveCat sampleAdjacent) = GAME_OVER
  /\ totalScore (moveCat sampleAdjacent)
     = totalScore sampleAdjacent + score sampleAdjacent
  /\ score (moveCat sampleAdjacent) = 0
  /\ timerActive (moveCat sampleAdjacent) = false.
Proof.
  assert (H1 : inGrid (catPos sampleAdjacent) = true) by (vm_compute; reflexivity).
  assert (H2 : currentGameState sampleAdjacent = PLAYING) by (vm_compute; reflexivity).
  assert (H3 : catPos sampleAdjacent <> playerPos sampleAdjacent).
  { replace (catPos sampleAdjacent) with ((11, 10) : Pos) by (vm_compute; reflexivity).
    replace (playerPos sampleAdjacent) with ((11, 9) : Pos) by (vm_compute; reflexivity).
    intros H. injection H as H. lia. }
  assert (H4 : edge (maze sampleAdjacent) (catPos sampleAdjacent) (playerPos sampleAdjacent)).
  { apply (edge_intro _ _ _ (0, -1)).
    - apply list_elem_of_In. cbn. tauto.
    - vm_compute. reflexivity.
    - vm_compute. reflexivity. }
  split; [exact H1 |]. split; [exact H2 |]. split; [exact H3 |]. split; [exact H4 |].
  exact (adjacent_cat_catches sampleAdjacent H1 H2 H3 H4).
Defined.

Lemma keyboard_rid_step draws now key s s' :
  keyboard draws now key s = Some s' ->
  resetIdentifier s' = resetIdentifier s \/ resetIdentifier s' = resetIdentifier s + 1.
Proof.
  unfold keyboard. intros H.
  repeat match type of H with
         | context [match currentGameState ?s with _ => _ end] =>
             destruct (currentGameState s)
         | context [if ?b then _ else _] => destruct b
         end;
    try discriminate; injection H as <-;
    rewrite ?resetGame_eq, ?processPlayerMove_rid, ?catTimer_rid; simpl; tauto.
Qed.

Lemma step_rid_step draws ev s s' :
  step draws ev s = Some s' ->
  resetIdentifier s' = resetIdentifier s \/ resetIdentifier s' = resetIdentifier s + 1.
Proof.
  destruct ev as [now key | key | now | now i]; simpl; intros H.
  - eapply keyboard_rid_step; eassumption.
  - injection H as <-. rewrite specialKeyboard_rid. tauto.
  - injection H as <-. pose proof (idle_frame now s) as F. cbv zeta in F.
    destruct F as (_ & _ & _ & _ & -> & _). tauto.
  - destruct (timers s !! i) as [t |]; [| discriminate]. injection H as <-.
    unfold fire. destruct (tcallback t).
    + rewrite catTimer_rid. simpl. tauto.
    + rewrite startLevel_eq. simpl. tauto.
    + unfold leaveIntro. destruct (bool_decide _); simpl; tauto.
Qed.

(** X23.  The epoch [resetIdentifier] never goes down: an event leaves it
    as it is or raises it by one.  A reset, the start of a level and a
    resume each raise it by exactly one. *)
Theorem epoch_advances_by_one (draws : nat -> nat) :
  (forall ev s s', step draws ev s = Some s' ->
     resetIdentifier s' = resetIdentifier s
     \/ resetIdentifier s' = resetIdentifier s + 1)
  /\ (forall now s, resetIdentifier (resetGame draws now s) = resetIdentifier s + 1)
  /\ (forall now v s, resetIdentifier (startLevel draws now v s) = resetIdentifier s + 1)
  /\ (forall now s, currentGameState s = PAUSED ->
        exists s', keyboard draws now "p" s = Some s'
                   /\ resetIdentifier s' = resetIdentifier s + 1).
Proof.
  split; [intros ev s s'; apply step_rid_step |].
  split; [intros now s; rewrite resetGame_eq; reflexivity |].
  split; [intros now v s; rewrite startLevel_eq; reflexivity |].
  intros now s Hst. unfold keyboard. rewrite Hst. cbn [isKey Ascii.eqb orb].
  rewrite bool_decide_eq_false_2 by discriminate. cbv zeta.
  eexists. split; [reflexivity |]. rewrite catTimer_rid. reflexivity.
Qed.

(** X24.  Input that does not fit the state is ignored, the state left
    untouched: arrow keys outside play; in a pause every key but [p] and
    Escape; in the start menu every key but Enter and Escape; after a
    capture or a completed level every key but [r] and Escape; after the
    final win every key but Escape. *)
Theorem misplaced_input_is_ignored (draws : nat -> nat) (now : Z) (s : Game) :
  (forall key, currentGameState s <> PLAYING -> specialKeyboard key s = s)
  /\ (forall key, currentGameState s = PAUSED ->
        isKey key "p" "P" = false -> key <> KEY_ESCAPE ->
        keyboard draws now key s = Some s)
  /\ (forall key, currentGameState s = START_MENU ->
        key <> KEY_ENTER -> key <> KEY_ESCAPE ->
        keyboard draws now key s = Some s)
  /\ (forall key, currentGameState s = GAME_OVER \/ currentGameState s = GAME_WON_LEVEL ->
        isKey key "r" "R" = false -> key <> KEY_ESCAPE ->
        keyboard draws now key s = Some s)
  /\ (forall key, currentGameState s = GAME_WON_FINAL ->
        key <> KEY_ESCAPE -> keyboard draws now key s = Some s).
Proof.
  assert (Hesc : forall key, key <> KEY_ESCAPE -> Ascii.eqb key KEY_ESCAPE = false)
    by (intros key H; apply Ascii.eqb_neq; exact H).
  split; [| split; [| split; [| split]]].
  - intros key Hst. unfold specialKeyboard.
    rewrite bool_decide_eq_false_2 by assumption. reflexivity.
  - intros key Hst Hp He. unfold keyboard. rewrite Hst, Hp, (Hesc key He).
    rewrite bool_decide_eq_false_2 by discriminate. reflexivity.
  - intros key Hst Hen He. unfold keyboard. rewrite Hst, (Hesc key He).
    rewrite (proj2 (Ascii.eqb_neq _ _) Hen). reflexivity.
  - intros key Hst Hr He. unfold keyboard.
    destruct Hst as [Hst | Hst]; rewrite Hst, Hr, (Hesc key He); reflexivity.
  - intros key Hst He. unfold keyboard. rewrite Hst, (Hesc key He).
    rewrite bool_decide_eq_true_2 by reflexivity. rewrite andb_false_r. reflexivity.
Qed.

(** X21.  From a completed level to the next one.  When the level that
    was completed is not the last, the callback [nextLevel] has scheduled
    is the last pending timer; when it fires, the game is playing the
    level whose number [currentLevel] now holds, in the layout of that
    level, with the total holding the score of the level before, the
    level score 0, the epoch advanced, and the cat already one step up
    from its start tile. *)
Theorem level_advance (draws : nat -> nat) (s : Game) (now : Z) :
  currentLevel s + 1 <= MAX_LEVELS ->
  exists s', step draws (EvTimer now (length (timers s))) (nextLevel s) = Some s'
    /\ currentGameState s' = PLAYING
    /\ currentLevel s' = currentLevel s + 1
    /\ maze s' = selectLayout (currentLevel s')
    /\ totalScore s' = totalScore s + score s /\ score s' = 0
    /\ playerPos s' = (PLAYER_START_X, PLAYER_START_Y)
    /\ catPos s' = (CAT_START_X, CAT_START_Y - 1)
    /\ isCatSlowed s' = false /\ currentCatDelay s' = INITIAL_CAT_DELAY_MS
    /\ timerActive s' = true
    /\ resetIdentifier s' = resetIdentifier s + 1.
Proof.
  intros Hlv. unfold nextLevel. cbv zeta.
  cbn [currentLevel set_currentLevel set_timerActive set_score set_totalScore].
  destruct (Z.gtb_spec (currentLevel s + 1) MAX_LEVELS) as [Hgt | _]; [lia |].
  cbn [step glutTimerFunc timers set_timers set_currentGameState set_currentLevel
       set_timerActive set_score set_totalScore].
  rewrite lookup_app_r by reflexivity. rewrite Nat.sub_diag. cbn [lookup list_lookup].
  eexists. split; [reflexivity |].
  unfold fire. cbn [tcallback tvalue]. rewrite startLevel_eq. cbv zeta.
  cbn. repeat split.
Qed.

Lemma level_advance_witness :
  currentLevel sampleLastCheese + 1 <= MAX_LEVELS
  /\ exists s', step sampleDraws (EvTimer 7000 (length (timers sampleLastCheese)))
                  (nextLevel sampleLastCheese) = Some s'
    /\ currentGameState s' = PLAYING
    /\ currentLevel s' = currentLevel sampleLastCheese + 1
    /\ maze s' = selectLayout (currentLevel s')
    /\ totalScore s' = totalScore sampleLastCheese + score sampleLastCheese
    /\ score s' = 0
    /\ playerPos s' = (PLAYER_START_X, PLAYER_START_Y)
    /\ catPos s' = (CAT_START_X, CAT_START_Y - 1)
    /\ isCatSlowed s' = false /\ currentCatDelay s' = INITIAL_CAT_DELAY_MS
    /\ timerActive s' = true
    /\ resetIdentifier s' = resetIdentifier sampleLastCheese + 1.
Proof.
  assert (H1 : currentLevel sampleLastCheese + 1 <= MAX_LEVELS).
  { replace (currentLevel sampleLastCheese) with 1 by (vm_compute; reflexivity).
    unfold MAX_LEVELS. lia. }
  split; [exact H1 |]. exact (level_advance sampleDraws sampleLastCheese 7000 H1).
Defined.

(** X19.  A move onto a tile that holds cheese, other cheese remaining,
    takes that one cheese: the score grows by one, the cheese list loses
    the entry, the total and the state of the game stay.  Unless the slow
    effect is active or no cheese was ever placed, the delay of the curve
    for the new score becomes the normal delay of the cat; it is also the
    delay in force when the tile holds no slow power-up, whereas a slow
    power-up on the tile is taken by the same move, which starts the slow
    effect from that delay: 5000 ms to run and the delay in force the
    larger of it and [INITIAL_CAT_DELAY_MS + 100].  While the slow effect
    is active the move leaves both delays, the effect and the power-ups
    as they are. *)
Theorem cheese_is_collected (s : Game) (nextX nextY : Z) (c : Pos) (rest : list Pos) :
  isPath (maze s) (wrapTunnel (nextX, nextY)) = true ->
  eraseCheese (fst (wrapTunnel (nextX, nextY))) (snd (wrapTunnel (nextX, nextY)))
    (cheeseLocations s) = Some (c :: rest) ->
  let s' := processPlayerMove nextX nextY s in
  let onTile := erasePowerup (fst (wrapTunnel (nextX, nextY)))
                  (snd (wrapTunnel (nextX, nextY))) (powerupLocations s) in
  let curve := catDelayFor (score s + 1) (initialCheeseCount s) in
  playerPos s' = wrapTunnel (nextX, nextY)
  /\ score s' = score s + 1
  /\ cheeseLocations s' = c :: rest
  /\ length (cheeseLocations s) = S (length (cheeseLocations s'))
  /\ totalScore s' = totalScore s
  /\ currentGameState s' = currentGameState s
  /\ currentLevel s' = currentLevel s
  /\ (isCatSlowed s = false -> 0 < initialCheeseCount s ->
      normalCatDelayBeforeSlowdown s' = curve
      /\ (onTile = None ->
          currentCatDelay s' = curve /\ isCatSlowed s' = false
          /\ powerupLocations s' = powerupLocations s)
      /\ (forall left, onTile = Some left ->
          currentCatDelay s' = Z.max curve (INITIAL_CAT_DELAY_MS + 100)
          /\ isCatSlowed s' = true
          /\ catSlowDurationTimer s' = CAT_SLOW_DURATION_MS
          /\ powerupLocations s' = left))
  /\ (isCatSlowed s = true ->
      currentCatDelay s' = currentCatDelay s
      /\ normalCatDelayBeforeSlowdown s' = normalCatDelayBeforeSlowdown s
      /\ isCatSlowed s' = true
      /\ catSlowDurationTimer s' = catSlowDurationTimer s
      /\ powerupLocations s' = powerupLocations s).
Proof.
  intros Hp He. cbv zeta. pose proof (eraseCheese_length _ _ _ _ He) as Hlen.
  unfold processPlayerMove.
  destruct (wrapTunnel (nextX, nextY)) as [wx wy]. cbn [fst snd] in He |- *. rewrite Hp.
  cbv zeta. cbn [playerX playerY cheeseLocations set_playerX set_playerY]. rewrite He.
  cbn [isCatSlowed initialCheeseCount score cheeseLocations set_score set_cheeseLocations
       set_playerX set_playerY].
  destruct (isCatSlowed s) eqn:Hsl; cbn [negb andb].
  - cbn [cheeseLocations set_score set_cheeseLocations]. unfold collectPowerup.
    cbn [isCatSlowed set_score set_cheeseLocations set_playerX set_playerY].
    rewrite Hsl. cbn. repeat split; try assumption. all: discriminate.
  - destruct (Z.gtb_spec (initialCheeseCount s) 0) as [Hpos | Hz].
    + cbn [cheeseLocations set_score set_cheeseLocations set_currentCatDelay
           set_normalCatDelayBeforeSlowdown currentCatDelay]. unfold collectPowerup.
      cbn [isCatSlowed set_score set_cheeseLocations set_playerX set_playerY
           set_currentCatDelay set_normalCatDelayBeforeSlowdown
           playerX playerY powerupLocations].
      rewrite Hsl.
      destruct (erasePowerup wx wy (powerupLocations s)) as [left |] eqn:Hpu; cbn;
        repeat split; try assumption; try discriminate; try reflexivity.
      congruence.
    + cbn [cheeseLocations set_score set_cheeseLocations]. unfold collectPowerup.
      cbn [isCatSlowed set_score set_cheeseLocations set_playerX set_playerY].
      rewrite Hsl.
      destruct (erasePowerup _ _ _); cbn; repeat split; try assumption;
        try discriminate; lia.
Qed.

Lemma cheese_is_collected_witness :
  isPath (maze samplePlaying) (wrapTunnel (3, 1)) = true
  /\ eraseCheese (fst (wrapTunnel (3, 1))) (snd (wrapTunnel (3, 1)))
       (cheeseLocations samplePlaying)
     = Some ((12, 19) :: [(17, 1); (8, 15); (9, 16); (14, 21); (19, 3); (2, 9);
                          (7, 14); (21, 5); (4, 11); (5, 3)])
  /\ isCatSlowed samplePlaying = false
  /\ 0 < initialCheeseCount samplePlaying
  /\ erasePowerup (fst (wrapTunnel (3, 1))) (snd (wrapTunnel (3, 1)))
       (powerupLocations samplePlaying) = None
  /\ playerPos (processPlayerMove 3 1 samplePlaying) = wrapTunnel (3, 1)
  /\ score (processPlayerMove 3 1 samplePlaying) = score samplePlaying + 1
  /\ cheeseLocations (processPlayerMove 3 1 samplePlaying)
     = (12, 19) :: [(17, 1); (8, 15); (9, 16); (14, 21); (19, 3); (2, 9);
                    (7, 14); (21, 5); (4, 11); (5, 3)]
  /\ totalScore (processPlayerMove 3 1 samplePlaying) = totalScore samplePlaying
  /\ currentGameState (processPlayerMove 3 1 samplePlaying)
     = currentGameState samplePlaying
  /\ currentLevel (processPlayerMove 3 1 samplePlaying) = currentLevel samplePlaying
  /\ normalCatDelayBeforeSlowdown (processPlayerMove 3 1 samplePlaying)
     = catDelayFor (score samplePlaying + 1) (initialCheeseCount samplePlaying)
  /\ currentCatDelay (processPlayerMove 3 1 samplePlaying)
     = catDelayFor (score samplePlaying + 1) (initialCheeseCount samplePlaying)
  /\ isCatSlowed (processPlayerMove 3 1 samplePlaying) = false
  /\ powerupLocations (processPlayerMove 3 1 samplePlaying)
     = powerupLocations samplePlaying.
Proof.
  assert (H1 : isPath (maze samplePlaying) (wrapTunnel (3, 1)) = true)
    by (vm_compute; reflexivity).
  assert (H2 : eraseCheese (fst (wrapTunnel (3, 1))) (snd (wrapTunnel (3, 1)))
       (cheeseLocations samplePlaying)
     = Some ((12, 19) :: [(17, 1); (8, 15); (9, 16); (14, 21); (19, 3); (2, 9);
                          (7, 14); (21, 5); (4, 11); (5, 3)])) by (vm_compute; reflexivity).
  assert (H3 : isCatSlowed samplePlaying = false) by (vm_compute; reflexivity).
  assert (H4 : 0 < initialCheeseCount samplePlaying)
    by (replace (initialCheeseCount samplePlaying) with 12 by (vm_compute; reflexivity);
        lia).
  assert (H5 : erasePowerup (fst (wrapTunnel (3, 1))) (snd (wrapTunnel (3, 1)))
       (powerupLocations samplePlaying) = None) by (vm_compute; reflexivity).
  pose proof (cheese_is_collected samplePlaying 3 1 _ _ H1 H2) as H. cbv zeta in H.
  destruct H as (Ha & Hb & Hc & _ & Hd & He & Hf & Hg & _).
  destruct (Hg H3 H4) as (Hn & Hnone & _). destruct (Hnone H5) as (Hcur & Hsl & Hpu).
  split; [exact H1 |]. split; [exact H2 |]. split; [exact H3 |]. split; [exact H4 |].
  split; [exact H5 |]. split; [exact Ha |]. split; [exact Hb |]. split; [exact Hc |].
  split; [exact Hd |]. split; [exact He |]. split; [exact Hf |]. split; [exact Hn |].
  split; [exact Hcur |]. split; [exact Hsl |]. exact Hpu.
Defined.

(** ** The chain of ticks stays alive *)

Lemma collectPowerup_chain s : chainLive s -> chainLive (collectPowerup s).
Proof.
  unfold collectPowerup. intros H. destruct (isCatSlowed s); [assumption |].
  destruct (erasePowerup _ _ _); assumption.
Qed.

Lemma processPlayerMove_chain nx ny s :
  chainLive s -> chainLive (processPlayerMove nx ny s).
Proof.
  intros H. unfold processPlayerMove.
  destruct (wrapTunnel (nx, ny)) as [wx wy].
  destruct (isPath (maze s) (wx, wy)); [| assumption]. cbv zeta.
  set (s1 := set_playerY wy (set_playerX wx s)).
  assert (H1 : chainLive s1) by exact H. clearbody s1.
  destruct (eraseCheese _ _ _) as [rest |]; [| apply collectPowerup_chain; assumption].
  set (s2 := set_score _ (set_cheeseLocations rest s1)).
  assert (H2 : chainLive s2) by exact H1. clearbody s2.
  set (s3 := if negb (isCatSlowed s2) && (initialCheeseCount s2 >? 0) then _ else s2).
  assert (H3 : chainLive s3).
  { subst s3. destruct (negb (isCatSlowed s2) && (initialCheeseCount s2 >? 0)); exact H2. }
  clearbody s3.
  destruct (cheeseLocations s3); [| apply collectPowerup_chain; assumption].
  intros Hst. destruct (nextLevel_frame s3) as ([E | E] & _); congruence.
Qed.

Lemma idle_chain now s : chainLive s -> chainLive (idle now s).
Proof.
  intros H. unfold idle. cbv zeta.
  destruct (now - lastTickTime s >? 0); [| assumption].
  destruct ((bool_decide (currentGameState s = PLAYING)
             || bool_decide (currentGameState s = PAUSED))
            && isCatSlowed s && bool_decide (currentGameState s = PLAYING));
    [| exact H].
  cbn [catSlowDurationTimer set_catSlowDurationTimer].
  destruct (_ <=? 0); [| exact H].
  destruct (_ >? 0); exact H.
Qed.

(** A tick run while the game plays with no other live tick pending, or a
    stale one while one is. *)
Lemma catTimer_chain v s :
  (currentGameState s = PLAYING ->
   timerActive s = true
   /\ countLive (resetIdentifier s) (timers s)
      = if v =? resetIdentifier s then O else 1%nat) ->
  chainLive (catTimer v s).
Proof.
  intros H. destruct (catTimer_cases v s) as [E | (Hst & Ha & Hv & Hr)].
  - rewrite E. intros Hst. destruct (H Hst) as [Ha Hc]. split; [exact Ha |].
    destruct (Z.eqb_spec v (resetIdentifier s)) as [Hv | Hv]; [| exact Hc].
    exfalso. unfold catTimer in E.
    rewrite Hv, Z.eqb_refl, Hst, Ha in E. cbn [negb andb] in E.
    rewrite bool_decide_eq_true_2 in E by reflexivity. cbn [andb] in E.
    apply (f_equal (fun x => length (timers x))) in E. revert E.
    destruct (isCatSlowed s); cbn [negb glutTimerFunc timers set_timers];
      rewrite ?length_app; cbn [length].
    + lia.
    + destruct (moveCat_ticks s) as [-> _]. lia.
  - cbv zeta in Hr. rewrite Hr.
    assert (Hv' : v = resetIdentifier s) by (destruct Hv; congruence).
    destruct (H Hst) as [_ Hc]. rewrite Hv', Z.eqb_refl in Hc.
    destruct (isCatSlowed s); cbn [negb].
    + intros _. split; [exact Ha |].
      cbn [glutTimerFunc resetIdentifier timers set_timers].
      rewrite countLive_app, Hc. cbn [countLive isCatTick tcallback tvalue andb].
      rewrite Z.eqb_refl. reflexivity.
    + destruct (moveCat_ticks s) as [Ht Hrid]. intros Hst'.
      cbn [glutTimerFunc currentGameState timerActive resetIdentifier timers set_timers]
        in Hst' |- *.
      rewrite countLive_app, Ht, Hrid, Hc.
      cbn [countLive isCatTick tcallback tvalue andb]. rewrite Z.eqb_refl.
      split; [| reflexivity].
      destruct (moveCat_cases s) as (c & _ & [Hm | (_ & _ & Hm)]); cbv zeta in Hm;
        rewrite Hm in Hst' |- *; [exact Ha | discriminate].
Qed.

Lemma resetGame_chain draws now s : GameInv s -> chainLive (resetGame draws now s).
Proof.
  intros I _. rewrite resetGame_eq. cbv zeta. cbn [timerActive resetIdentifier timers].
  split; [reflexivity |]. rewrite countLive_app.
  rewrite (countLive_stale _ _ (ticksUpTo_next _ _ (gi_ticks _ I))).
  cbn [countLive isCatTick tcallback tvalue andb]. rewrite Z.eqb_refl. reflexivity.
Qed.

Lemma startLevel_chain draws now v s : GameInv s -> chainLive (startLevel draws now v s).
Proof.
  intros I _. rewrite startLevel_eq. cbv zeta. cbn [timerActive resetIdentifier timers].
  split; [reflexivity |]. rewrite countLive_app.
  rewrite (countLive_stale _ _ (ticksUpTo_next _ _ (gi_ticks _ I))).
  cbn [countLive isCatTick tcallback tvalue andb]. rewrite Z.eqb_refl. reflexivity.
Qed.

Lemma keyboard_chain draws now key s s' :
  keyboard draws now key s = Some s' -> GameInv s -> chainLive s -> chainLive s'.
Proof.
  intros H I C. unfold keyboard in H.
  destruct (currentGameState s) eqn:Hst.
  - injection H as <-. intros E. discriminate E.
  - destruct (Ascii.eqb key KEY_ENTER).
    + injection H as <-. apply resetGame_chain. assumption.
    + destruct (Ascii.eqb key KEY_ESCAPE); [discriminate |]. injection H as <-. assumption.
  - destruct (isKey key "p" "P").
    + rewrite bool_decide_eq_true_2 in H by reflexivity. injection H as <-.
      intros E. discriminate E.
    + destruct (Ascii.eqb key KEY_ESCAPE); [discriminate |].
      rewrite bool_decide_eq_true_2 in H by reflexivity. cbn [negb] in H.
      repeat match type of H with
             | context [if ?b then _ else _] => destruct b
             end;
        injection H as <-;
        first [ apply resetGame_chain | apply processPlayerMove_chain | idtac ];
        assumption.
  - destruct (isKey key "p" "P").
    + rewrite bool_decide_eq_false_2 in H by discriminate. cbv zeta in H.
      injection H as <-.
      destruct (GameInv_resume now s Hst I) as [_ H0]. cbv zeta in H0.
      apply catTimer_chain. intros _. rewrite Z.eqb_refl. split; [reflexivity | exact H0].
    + destruct (Ascii.eqb key KEY_ESCAPE); [discriminate |].
      rewrite bool_decide_eq_false_2 in H by discriminate. cbn [negb] in H.
      injection H as <-. assumption.
  - destruct (isKey key "r" "R" && negb (bool_decide (GAME_OVER = GAME_WON_FINAL))).
    + injection H as <-. apply resetGame_chain. assumption.
    + destruct (Ascii.eqb key KEY_ESCAPE); [discriminate |]. injection H as <-. assumption.
  - destruct (isKey key "r" "R" && negb (bool_decide (GAME_WON_LEVEL = GAME_WON_FINAL))).
    + injection H as <-. apply resetGame_chain. assumption.
    + destruct (Ascii.eqb key KEY_ESCAPE); [discriminate |]. injection H as <-. assumption.
  - destruct (isKey key "r" "R" && negb (bool_decide (GAME_WON_FINAL = GAME_WON_FINAL))).
    + injection H as <-. apply resetGame_chain. assumption.
    + destruct (Ascii.eqb key KEY_ESCAPE); [discriminate |]. injection H as <-. assumption.
Qed.

Lemma specialKeyboard_chain key s : chainLive s -> chainLive (specialKeyboard key s).
Proof.
  intros C. unfold specialKeyboard.
  repeat match goal with |- context [if ?b then _ else _] => destruct b end;
    first [ apply processPlayerMove_chain | idtac ]; assumption.
Qed.

Lemma step_chain draws ev s s' :
  step draws ev s = Some s' -> GameInv s -> chainLive s -> chainLive s'.
Proof.
  destruct ev as [now key | key | now | now i]; cbn [step]; intros H I C.
  - eapply keyboard_chain; eassumption.
  - injection H as <-. apply specialKeyboard_chain. assumption.
  - injection H as <-. apply idle_chain. assumption.
  - destruct (timers s !! i) as [t |] eqn:Ht; [| discriminate]. injection H as <-.
    pose proof (countLive_delete (resetIdentifier s) _ _ _ Ht) as Hd.
    unfold fire. destruct (tcallback t) eqn:Hcb.
    + apply catTimer_chain.
      cbn [currentGameState timerActive resetIdentifier timers set_timers].
      intros Hst. destruct (C Hst) as [Ha Hc]. split; [exact Ha |].
      unfold isCatTick in Hd. rewrite Hcb in Hd. cbn [andb] in Hd.
      destruct (tvalue t =? resetIdentifier s); lia.
    + apply startLevel_chain. apply GameInv_delete_timer. assumption.
    + unfold isCatTick in Hd. rewrite Hcb in Hd. cbn [andb] in Hd.
      assert (C' : chainLive (set_timers (delete i (timers s)) s)).
      { intros Hst. destruct (C Hst) as [Ha Hc]. split; [exact Ha |].
        cbn [resetIdentifier timers set_timers]. lia. }
      unfold leaveIntro. destruct (bool_decide _); [| exact C'].
      intros E. discriminate E.
Qed.

Lemma run_chain draws evs : forall s s',
  run draws evs s = Some s' -> GameInv s -> chainLive s -> chainLive s'.
Proof.
  induction evs as [| ev evs IH]; cbn [run]; intros s s' H I C.
  - injection H as <-. assumption.
  - destruct (step draws ev s) as [s1 |] eqn:E; [| discriminate].
    eapply IH; [eassumption | eapply step_inv; eassumption | eapply step_chain; eassumption].
Qed.

Lemma countLive_pos r ts :
  (0 < countLive r ts)%nat ->
  exists i t, ts !! i = Some t /\ tcallback t = CbCatTimer /\ tvalue t = r.
Proof.
  induction ts as [| t ts IH]; cbn [countLive]; [lia |]. intros H.
  destruct (isCatTick t && (tvalue t =? r)) eqn:E.
  - apply andb_prop in E. destruct E as [E1 E2]. exists O, t.
    split; [reflexivity |]. split; [| lia].
    unfold isCatTick in E1. destruct (tcallback t); [reflexivity | discriminate ..].
  - destruct IH as (i & t' & Hi & Ht'); [lia |]. exists (S i), t'. split; assumption.
Qed.

(** X11.  The cat never stalls: in every state of a run in which the game
    is playing the timer flag is set and exactly one pending timer is a
    tick of the cat that carries the current epoch. *)
Theorem playing_has_one_live_tick (draws : nat -> nat) (s : Game) :
  reachable draws s ->
  currentGameState s = PLAYING ->
  timerActive s = true
  /\ countLive (resetIdentifier s) (timers s) = 1%nat
  /\ exists i t, timers s !! i = Some t
                 /\ tcallback t = CbCatTimer /\ tvalue t = resetIdentifier s.
Proof.
  intros (now & evs & H) Hst.
  assert (C : chainLive s).
  { eapply run_chain; [exact H | apply mainInit_inv |].
    unfold chainLive, mainInit. cbv zeta. rewrite initLevelData_eq. cbv zeta.
    unfold initMaze. cbn [currentGameState set_lastTickTime set_maze glutTimerFunc
                          set_timers staticInit].
    intros E. discriminate E. }
  destruct (C Hst) as [Ha Hc]. split; [exact Ha |]. split; [exact Hc |].
  apply countLive_pos. lia.
Qed.

Lemma playing_has_one_live_tick_witness :
  reachable sampleDraws samplePlaying
  /\ currentGameState samplePlaying = PLAYING
  /\ timerActive samplePlaying = true
  /\ countLive (resetIdentifier samplePlaying) (timers samplePlaying) = 1%nat
  /\ exists i t, timers samplePlaying !! i = Some t
                 /\ tcallback t = CbCatTimer /\ tvalue t = resetIdentifier samplePlaying.
Proof.
  assert (H : currentGameState samplePlaying = PLAYING) by (vm_compute; reflexivity).
  split; [exact samplePlaying_reachable |]. split; [exact H |].
  exact (playing_has_one_live_tick sampleDraws samplePlaying samplePlaying_reachable H).
Defined.

(** X22.  A reset does not cancel the start of a level that [nextLevel]
    scheduled.  With the game in [GAME_WON_LEVEL] and the start of level
    [v] pending, [r] restarts the game at level 1 on the first layout;
    when the pending start then fires it installs the layout of level [v]
    and a fresh population while [currentLevel] stays 1 and the total
    stays 0, and it opens another epoch. *)
Theorem pending_level_start_survives_reset
    (draws : nat -> nat) (s : Game) (now now' d v : Z) (i : nat) :
  currentGameState s = GAME_WON_LEVEL ->
  timers s !! i = Some (mkTimer d CbNextLevel v) ->
  exists s1 s2,
    keyboard draws now "r" s = Some s1
    /\ currentGameState s1 = PLAYING /\ currentLevel s1 = 1 /\ maze s1 = layout1
    /\ step draws (EvTimer now' i) s1 = Some s2
    /\ currentGameState s2 = PLAYING
    /\ maze s2 = selectLayout v
    /\ currentLevel s2 = 1 /\ totalScore s2 = 0
    /\ resetIdentifier s2 = resetIdentifier s + 2.
Proof.
  intros Hst Hi.
  exists (resetGame draws now s). eexists.
  split; [unfold keyboard; rewrite Hst; reflexivity |].
  rewrite resetGame_eq. cbv zeta.
  cbn [currentGameState currentLevel maze step timers].
  split; [reflexivity |]. split; [reflexivity |]. split; [reflexivity |].
  rewrite lookup_app_l by (apply lookup_lt_Some in Hi; exact Hi).
  rewrite Hi. split; [reflexivity |].
  unfold fire. cbn [tcallback tvalue]. rewrite startLevel_eq. cbv zeta.
  cbn [currentGameState currentLevel maze totalScore resetIdentifier set_timers].
  repeat split. lia.
Qed.

Lemma pending_level_start_survives_reset_witness :
  currentGameState sampleWonLevel = GAME_WON_LEVEL
  /\ timers sampleWonLevel !! 2%nat = Some (mkTimer 2000 CbNextLevel 2)
  /\ exists s1 s2,
    keyboard sampleDraws 9000 "r" sampleWonLevel = Some s1
    /\ currentGameState s1 = PLAYING /\ currentLevel s1 = 1 /\ maze s1 = layout1
    /\ step sampleDraws (EvTimer 9500 2) s1 = Some s2
    /\ currentGameState s2 = PLAYING
    /\ maze s2 = selectLayout 2
    /\ currentLevel s2 = 1 /\ totalScore s2 = 0
    /\ resetIdentifier s2 = resetIdentifier sampleWonLevel + 2.
Proof.
  assert (H1 : currentGameState sampleWonLevel = GAME_WON_LEVEL)
    by (vm_compute; reflexivity).
  assert (H2 : timers sampleWonLevel !! 2%nat = Some (mkTimer 2000 CbNextLevel 2))
    by (vm_compute; reflexivity).
  split; [exact H1 |]. split; [exact H2 |].
  exact (pending_level_start_survives_reset sampleDraws sampleWonLevel 9000 9500 2000 2 2
           H1 H2).
Defined.

(** A value with at most [prec] significant bits is its own rounding. *)
Lemma roundFloat_exact prec n e b :
  0 < prec -> 0 < b -> 0 <= n < 2 ^ prec -> 0 <= e ->
  roundFloat prec (n * 2 ^ e * b) b = n * 2 ^ e.
Proof.
  intros Hp Hb Hn He. unfold roundFloat. cbv zeta.
  rewrite Z.div_mul by lia.
  assert (H2e : 0 < 2 ^ e) by (apply Z.pow_pos_nonneg; lia).
  set (k := Z.max 0 (Z.log2 (n * 2 ^ e) + 1 - prec)).
  assert (Hk : 0 <= k <= e).
  { subst k. destruct (Z.eq_dec n 0) as [-> | Hne].
    - rewrite Z.mul_0_l. change (Z.log2 0) with 0. lia.
    - rewrite Z.log2_mul_pow2 by lia.
      assert (Z.log2 n < prec) by (apply Z.log2_lt_pow2; lia). lia. }
  clearbody k.
  assert (H2k : 0 < 2 ^ k) by (apply Z.pow_pos_nonneg; lia).
  assert (Hsplit : 2 ^ e = 2 ^ (e - k) * 2 ^ k).
  { rewrite <- Z.pow_add_r by lia. f_equal. lia. }
  replace (n * 2 ^ e * b) with (n * 2 ^ (e - k) * (b * 2 ^ k)) by (rewrite Hsplit; ring).
  rewrite roundHalfEven_exact by nia. rewrite Hsplit. ring.
Qed.

Lemma floatOfInt_exact n :
  0 <= n <= 2 ^ 24 -> floatOfInt n = ofInt binary32 n.
Proof.
  intros Hn. unfold floatOfInt, ofInt. cbn [fprec fscale binary32].
  destruct (Z.eq_dec n (2 ^ 24)) as [-> | Hne]; [vm_compute; reflexivity |].
  pose proof (roundFloat_exact 24 n 149 1 ltac:(lia) ltac:(lia) ltac:(lia) ltac:(lia)) as H.
  rewrite Z.mul_1_r in H. exact H.
Qed.

Lemma floatOfInt_mono n n' : 0 <= n -> n <= n' -> floatOfInt n <= floatOfInt n'.
Proof.
  intros Hn Hnn. unfold floatOfInt. apply roundFloat_mono; cbn [fprec fscale binary32]; lia.
Qed.

Lemma toInt_ofInt n : toInt binary32 (ofInt binary32 n) = n.
Proof.
  unfold toInt, ofInt. apply Z.quot_mul. cbn [fscale binary32]. lia.
Qed.

Lemma gameAspect_one :
  fdiv binary32 (floatOfInt WINDOW_WIDTH) (floatOfInt WINDOW_HEIGHT) = one32.
Proof. vm_compute. reflexivity. Qed.

Lemma fmul_one n : 0 <= n <= 2 ^ 23 ->
  fmul binary32 (ofInt binary32 n) one32 = ofInt binary32 n.
Proof.
  intros Hn. unfold fmul, ofInt, one32, ofInt. cbn [fprec fscale binary32].
  rewrite Z.mul_1_l.
  apply (roundFloat_exact 24 n 149 (2 ^ 149)); lia.
Qed.

Lemma fdiv_one n : 0 <= n <= 2 ^ 23 ->
  fdiv binary32 (ofInt binary32 n) one32 = ofInt binary32 n.
Proof.
  intros Hn. unfold fdiv, ofInt, one32, ofInt. cbn [fprec fscale binary32].
  rewrite Z.mul_1_l.
  apply (roundFloat_exact 24 n 149 (2 ^ 149)); lia.
Qed.

(** The quotient of two sizes exceeds 1 exactly when the first is the
    larger one. *)
Lemma windowAspect_le w h :
  0 <= w -> w <= h -> 0 < h <= 2 ^ 23 ->
  fdiv binary32 (floatOfInt w) (floatOfInt h) <= one32.
Proof.
  intros Hw Hwh Hh. rewrite !floatOfInt_exact by lia.
  unfold fdiv, ofInt, one32, ofInt. cbn [fprec fscale binary32].
  rewrite Z.mul_1_l.
  pose proof (roundFloat_exact 24 1 149 (h * 2 ^ 149) ltac:(lia) ltac:(lia) ltac:(lia)
                ltac:(lia)) as H1.
  rewrite Z.mul_1_l in H1.
  pose proof (roundFloat_mono 24 (w * 2 ^ 149 * 2 ^ 149) (2 ^ 149 * (h * 2 ^ 149))
                (h * 2 ^ 149) ltac:(lia) ltac:(lia) ltac:(nia) ltac:(nia)) as Hm.
  rewrite H1 in Hm. exact Hm.
Qed.

Lemma windowAspect_gt w h :
  h < w -> 0 < h <= 2 ^ 23 ->
  one32 < fdiv binary32 (floatOfInt w) (floatOfInt h).
Proof.
  intros Hwh Hh.
  assert (Hw : ofInt binary32 (h + 1) <= floatOfInt w).
  { rewrite <- floatOfInt_exact by lia. apply floatOfInt_mono; lia. }
  rewrite (floatOfInt_exact h) by lia.
  assert (Hp : 0 <= floatOfInt w) by (apply roundFloat_nonneg; cbn [fscale binary32]; lia).
  unfold fdiv, ofInt, one32, ofInt in *. cbn [fprec fscale binary32] in *.
  rewrite Z.mul_1_l.
  pose proof (roundFloat_exact 24 (2 ^ 23 + 1) 126 (h * 2 ^ 149) ltac:(lia) ltac:(lia)
                ltac:(lia) ltac:(lia)) as H1.
  assert (Hle : (2 ^ 23 + 1) * 2 ^ 126 * (h * 2 ^ 149) <= floatOfInt w * 2 ^ 149).
  { replace (2 ^ 149) with (2 ^ 23 * 2 ^ 126) in Hw |- * by reflexivity.
    assert (0 < 2 ^ 126) by lia. nia. }
  assert (H0 : 0 <= (2 ^ 23 + 1) * 2 ^ 126 * (h * 2 ^ 149)) by lia.
  pose proof (roundFloat_mono 24 _ _ (h * 2 ^ 149) ltac:(lia) ltac:(lia) H0 Hle) as Hm.
  rewrite H1 in Hm.
  assert ((2 ^ 23 + 1) * 2 ^ 126 = 2 ^ 149 + 2 ^ 126) by reflexivity. lia.
Qed.

(** X25.  For a window up to 2^23 pixels high, whatever its width, the
    viewport [reshape] sets is the largest square that fits the window,
    centred in it: its side is the smaller of width and height (a height
    of 0 counting as 1), and the space left over is split evenly between
    the two sides, the odd pixel going to the far side. *)
Theorem reshape_centred_square (w h : Z) :
  0 <= w -> 0 <= h <= 2 ^ 23 ->
  let h' := Z.max h 1 in
  let side := Z.min w h' in
  reshape w h = (Z.quot (w - side) 2, Z.quot (h' - side) 2, side, side).
Proof.
  intros Hw Hh. cbv zeta. unfold reshape. cbv zeta. rewrite gameAspect_one.
  assert (Hh' : (if h =? 0 then 1 else h) = Z.max h 1)
    by (destruct (Z.eqb_spec h 0); lia).
  rewrite Hh'. set (h' := Z.max h 1). assert (Hb : 0 < h' <= 2 ^ 23) by lia.
  clearbody h'. clear Hh' Hh h.
  destruct (Z.ltb_spec one32 (fdiv binary32 (floatOfInt w) (floatOfInt h'))) as [Hgt | Hle].
  - assert (Hwh : h' < w).
    { destruct (Z.lt_ge_cases h' w) as [? | Hc]; [assumption |].
      pose proof (windowAspect_le w h' Hw Hc Hb). lia. }
    rewrite (floatOfInt_exact h') by lia. rewrite fmul_one by lia. rewrite toInt_ofInt.
    rewrite Z.min_r by lia. rewrite Z.sub_diag. reflexivity.
  - assert (Hwh : w <= h').
    { destruct (Z.le_gt_cases w h') as [? | Hc]; [assumption |].
      pose proof (windowAspect_gt w h' ltac:(lia) Hb). lia. }
    rewrite (floatOfInt_exact w) by lia. rewrite fdiv_one by lia. rewrite toInt_ofInt.
    rewrite Z.min_l by lia. rewrite Z.sub_diag. reflexivity.
Qed.

Lemma reshape_centred_square_witness :
  0 <= 800 /\ 0 <= 575 <= 2 ^ 23
  /\ reshape 800 575 = (112, 0, 575, 575).
Proof.
  split; [lia |]. split; [lia |].
  exact (reshape_centred_square 800 575 ltac:(lia) ltac:(lia)).
Defined.

(** ** The mazes are connected *)

Lemma edge_sym g u w : isPath g u = true -> edge g u w -> edge g w u.
Proof.
  intros Hu (d & Hd & Hw & Hp).
  pose proof (isPath_inGrid _ _ Hu) as Hiu. pose proof (isPath_inGrid _ _ Hp) as Hiw.
  destruct u as [ux uy]. destruct w as [wx wy].
  unfold inGrid in Hiu, Hiw. unfold COLS, ROWS in *.
  assert (Hd' : d = (0, -1) \/ d = (0, 1) \/ d = (-1, 0) \/ d = (1, 0)).
  { apply list_elem_of_In in Hd. cbn in Hd. intuition (subst; auto). }
  assert (Hsym : exists d', d' ∈ directions
                            /\ (ux, uy) = wrapTunnel (wx + fst d', wy + snd d')).
  { cbn [fst snd] in Hw. unfold wrapTunnel, TUNNEL_ROW_INDEX, COLS in *.
    destruct Hd' as [-> | [-> | [-> | ->]]]; cbn [fst snd] in Hw.
    - exists (0, 1). split; [apply list_elem_of_In; cbn; tauto |]. cbn [fst snd].
      repeat match goal with
             | H : context [if ?b then _ else _] |- _ => destruct b eqn:?
             | |- context [if ?b then _ else _] => destruct b eqn:?
             end; inversion Hw; subst; f_equal; lia.
    - exists (0, -1). split; [apply list_elem_of_In; cbn; tauto |]. cbn [fst snd].
      repeat match goal with
             | H : context [if ?b then _ else _] |- _ => destruct b eqn:?
             | |- context [if ?b then _ else _] => destruct b eqn:?
             end; inversion Hw; subst; f_equal; lia.
    - exists (1, 0). split; [apply list_elem_of_In; cbn; tauto |]. cbn [fst snd].
      repeat match goal with
             | H : context [if ?b then _ else _] |- _ => destruct b eqn:?
             | |- context [if ?b then _ else _] => destruct b eqn:?
             end; inversion Hw; subst; f_equal; lia.
    - exists (-1, 0). split; [apply list_elem_of_In; cbn; tauto |]. cbn [fst snd].
      repeat match goal with
             | H : context [if ?b then _ else _] |- _ => destruct b eqn:?
             | |- context [if ?b then _ else _] => destruct b eqn:?
             end; inversion Hw; subst; f_equal; lia. }
  destruct Hsym as (d' & Hd1 & Hd2). exists d'. split; [exact Hd1 |]. split; assumption.
Qed.

Lemma walk_sym g n u w : walk g n u w -> isPath g u = true -> walk g n w u.
Proof.
  induction 1 as [u | n u v w W IH E]; intros Hu; [constructor |].
  specialize (IH Hu).
  assert (Hv : isPath g v = true).
  { destruct (walk_end _ _ _ _ W) as [<- | Hv]; assumption. }
  apply walk_cons with v; [apply edge_sym; assumption | exact IH].
Qed.

Lemma walk_app g m v w : walk g m v w -> forall n u, walk g n u v -> walk g (n + m) u w.
Proof.
  induction 1 as [v | m v x w W IH E]; intros n u Wu.
  - rewrite Nat.add_0_r. exact Wu.
  - rewrite Nat.add_succ_r. apply walk_more with x; [apply IH; exact Wu | exact E].
Qed.

Lemma in_allCells g p : isPath g p = true -> In p allCells.
Proof.
  intros Hp. apply list_elem_of_In. pose proof (inGrid_cells p (isPath_inGrid _ _ Hp)) as Hc.
  unfold cells in Hc. apply elem_of_list_to_set in Hc. exact Hc.
Qed.

Lemma marked_in (g : Grid) (V : gset Pos) (p : Pos) :
  forallb (fun p => negb (isPath g p) || bool_decide (p ∈ V)) allCells = true ->
  isPath g p = true -> p ∈ V.
Proof.
  intros Hall Hp. rewrite forallb_forall in Hall.
  specialize (Hall p (in_allCells g p Hp)). rewrite Hp in Hall. cbn [negb orb] in Hall.
  apply bool_decide_eq_true_1 in Hall. exact Hall.
Qed.

Lemma allMarked_walk g p :
  allMarked g = true -> isPath g p = true ->
  exists n, walk g n (CAT_START_X, CAT_START_Y) p.
Proof.
  intros Hall Hp.
  pose proof (marked_in g _ p Hall Hp) as Hv.
  pose proof (bfs_inv g (CAT_START_X, CAT_START_Y) noParent eq_refl) as B.
  cbv zeta in B. destruct B as (q & (D & I) & _ & _).
  exists (D p). exact (bfsInv_walk g _ D q _ _ I (D p) p Hv eq_refl).
Qed.

Lemma layouts_marked g : isLayout g -> allMarked g = true.
Proof. intros [-> | [-> | ->]]; vm_compute; reflexivity. Qed.

(** In a maze of the game any two path tiles are joined by a walk. *)
Lemma layout_connected g u w :
  isLayout g -> isPath g u = true -> isPath g w = true -> exists n, walk g n u w.
Proof.
  intros L Hu Hw. pose proof (layouts_marked g L) as Hall.
  destruct (allMarked_walk g u Hall Hu) as (n & Wu).
  destruct (allMarked_walk g w Hall Hw) as (m & Ww).
  exists (n + m)%nat. apply walk_app with (CAT_START_X, CAT_START_Y); [exact Ww |].
  apply walk_sym; [exact Wu |]. destruct L as [-> | [-> | ->]]; vm_compute; reflexivity.
Qed.

(** ** The maze of a run is one of the three *)

Lemma selectLayout_isLayout v : isLayout (selectLayout v).
Proof.
  unfold selectLayout, isLayout. destruct (v =? 2); [tauto |]. destruct (v =? 3); tauto.
Qed.

Lemma processPlayerMove_maze nx ny s : maze (processPlayerMove nx ny s) = maze s.
Proof.
  destruct (isPath (maze s) (wrapTunnel (nx, ny))) eqn:E.
  - pose proof (processPlayerMove_valid nx ny s E) as H. cbv zeta in H. tauto.
  - rewrite processPlayerMove_invalid by assumption. reflexivity.
Qed.

Lemma catTimer_maze v s : maze (catTimer v s) = maze s.
Proof. pose proof (catTimer_frame v s) as H. cbv zeta in H. tauto. Qed.

Lemma keyboard_layout draws now key s s' :
  keyboard draws now key s = Some s' -> isLayout (maze s) -> isLayout (maze s').
Proof.
  intros H L. unfold keyboard in H.
  assert (R : isLayout (maze (resetGame draws now s))).
  { rewrite resetGame_eq. cbv zeta. cbn [maze]. left. reflexivity. }
  destruct (currentGameState s) eqn:Hst;
    repeat match type of H with
           | context [if ?b then _ else _] => destruct b
           end;
    try discriminate; injection H as <-;
    rewrite ?processPlayerMove_maze; cbv zeta; rewrite ?catTimer_maze; assumption.
Qed.

Lemma step_layout draws ev s s' :
  step draws ev s = Some s' -> isLayout (maze s) -> isLayout (maze s').
Proof.
  destruct ev as [now key | key | now | now i]; cbn [step]; intros H L.
  - eapply keyboard_layout; eassumption.
  - injection H as <-. unfold specialKeyboard.
    repeat match goal with |- context [if ?b then _ else _] => destruct b end;
      rewrite ?processPlayerMove_maze; assumption.
  - injection H as <-. pose proof (idle_frame now s) as F. cbv zeta in F.
    destruct F as (_ & -> & _). assumption.
  - destruct (timers s !! i) as [t |]; [| discriminate]. injection H as <-.
    unfold fire. destruct (tcallback t).
    + rewrite catTimer_maze. assumption.
    + rewrite startLevel_eq. cbv zeta. cbn [maze]. apply selectLayout_isLayout.
    + unfold leaveIntro. destruct (bool_decide _); assumption.
Qed.

Lemma run_layout draws evs : forall s s',
  run draws evs s = Some s' -> isLayout (maze s) -> isLayout (maze s').
Proof.
  induction evs as [| ev evs IH]; cbn [run]; intros s s' H L.
  - injection H as <-. assumption.
  - destruct (step draws ev s) as [s1 |] eqn:E; [| discriminate].
    eapply IH; [eassumption |]. eapply step_layout; eassumption.
Qed.

Lemma reachable_layout draws s : reachable draws s -> isLayout (maze s).
Proof.
  intros (now & evs & H). eapply run_layout; [exact H |].
  unfold mainInit. cbv zeta. rewrite initLevelData_eq. cbv zeta.
  unfold initMaze. cbn [maze set_lastTickTime set_maze currentLevel glutTimerFunc
                        set_timers staticInit].
  left. reflexivity.
Qed.

(** X26.  In every state of a run the maze is one of the three layouts of
    [initMaze] and the cat can reach the player: there is a shortest
    distance [d] between them over path tiles, and when it is not zero a
    call of [moveCat] moves the cat to a neighbouring tile at distance
    [d - 1].  The search of [moveCat] never fails in a run. *)
Theorem reachable_cat_approaches (draws : nat -> nat) (s : Game) :
  reachable draws s ->
  isLayout (maze s)
  /\ exists d, distance (maze s) (catPos s) (playerPos s) d
       /\ ((0 < d)%nat ->
           edge (maze s) (catPos s) (catPos (moveCat s))
           /\ distance (maze s) (catPos (moveCat s)) (playerPos s) (d - 1)).
Proof.
  intros R. pose proof (reachable_layout draws s R) as L.
  pose proof (reachable_inv draws s R) as I.
  split; [exact L |].
  destruct (layout_connected (maze s) (catPos s) (playerPos s) L (gi_cat _ I) (gi_player _ I))
    as (n & W).
  pose proof (isPath_inGrid _ _ (gi_cat _ I)) as Hin.
  destruct (walk_distance _ _ _ _ Hin W) as (d & Hd & _).
  exists d. split; [exact Hd |]. intros Hpos.
  destruct d as [| d]; [lia |].
  destruct (nextStep_shortest _ _ _ _ Hin Hd) as (c & Hn & He & Hdc).
  destruct (moveCat_to s c Hn (isPath_fst _ _ (edge_isPath _ _ _ He))) as (Hc & _).
  rewrite Hc. replace (S d - 1)%nat with d by lia. split; assumption.
Qed.

Lemma reachable_cat_approaches_witness :
  reachable sampleDraws samplePlaying
  /\ isLayout (maze samplePlaying)
  /\ exists d, distance (maze samplePlaying) (catPos samplePlaying) (playerPos samplePlaying) d
       /\ ((0 < d)%nat ->
           edge (maze samplePlaying) (catPos samplePlaying) (catPos (moveCat samplePlaying))
           /\ distance (maze samplePlaying) (catPos (moveCat samplePlaying))
                (playerPos samplePlaying) (d - 1)).
Proof.
  split; [exact samplePlaying_reachable |].
  exact (reachable_cat_approaches sampleDraws samplePlaying samplePlaying_reachable).
Defined.

(** X27.  While the game is playing, the letter keys w, s, a, d (in
    either case) do exactly what the arrow keys up, down, left, right
    do. *)
Theorem letters_move_like_arrows
    (draws : nat -> nat) (now : Z) (key : ascii) (arrow : Z) (s : Game) :
  currentGameState s = PLAYING ->
  arrowOf key = Some arrow ->
  keyboard draws now key s = Some (specialKeyboard arrow s).
Proof.
  intros Hst Ha. unfold keyboard, specialKeyboard. rewrite Hst.
  rewrite bool_decide_eq_true_2 by reflexivity. cbn [negb].
  unfold arrowOf, isKey in *.
  destruct key as [b0 b1 b2 b3 b4 b5 b6 b7].
  destruct b0, b1, b2, b3, b4, b5, b6, b7; cbn in Ha; try discriminate Ha;
    injection Ha as <-; reflexivity.
Qed.

Lemma letters_move_like_arrows_witness :
  currentGameState samplePlaying = PLAYING
  /\ arrowOf "d" = Some GLUT_KEY_RIGHT
  /\ keyboard sampleDraws 7 "d" samplePlaying
     = Some (specialKeyboard GLUT_KEY_RIGHT samplePlaying).
Proof.
  assert (H1 : currentGameState samplePlaying = PLAYING) by (vm_compute; reflexivity).
  split; [exact H1 |]. split; [reflexivity |].
  exact (letters_move_like_arrows sampleDraws 7 "d" GLUT_KEY_RIGHT samplePlaying H1 eq_refl).
Defined.

(** X28.  Escape ends the program in every state but the intro, where it
    only leaves the intro like any other key. *)
Theorem escape_quits_outside_intro (draws : nat -> nat) (now : Z) (s : Game) :
  (currentGameState s <> INTRO -> keyboard draws now KEY_ESCAPE s = None)
  /\ (currentGameState s = INTRO ->
      forall key, keyboard draws now key s = Some (set_currentGameState START_MENU s)).
Proof.
  split.
  - intros Hst. unfold keyboard.
    destruct (currentGameState s); [contradiction | reflexivity ..].
  - intros Hst key. unfold keyboard. rewrite Hst. reflexivity.
Qed.
